(** * Folder-scoped RBAC of [backend/iam/models.py]

    A shallow embedding of the IAM model: the folder tree, role
    assignments, the single-decision evaluator [is_access_allowed], the
    bulk enumerators [get_accessible_folders] and
    [get_accessible_object_ids], [get_role_assignments],
    [get_permissions], the domain provisioner [create_default_ug_and_ra]
    and [PublishInRootFolderMixin.save].

    Database tables are finite maps from primary key to row; Python sets
    are [gset]s; loops that follow [parent_folder] or [folder_set] take a
    fuel argument and answer [Timeout] when it runs out; exceptions are
    the [Raise] outcome. *)

From stdpp Require Import gmap strings list fin_maps fin_sets.

Open Scope string_scope.
Open Scope list_scope.
Open Scope nat_scope.

(** ** Outcomes: a returned value, a raised exception, or fuel exhausted *)

Inductive Error :=
  | DoesNotExist
  | MultipleObjectsReturned
  | IntegrityError
  | AttributeError
  | RelatedObjectDoesNotExist
  | NotImplementedError.

Inductive outcome (A : Type) :=
  | Ret (a : A)
  | Raise (e : Error)
  | Timeout.
Arguments Ret {A} a.
Arguments Raise {A} e.
Arguments Timeout {A}.

Global Instance outcome_bind : MBind outcome := λ A B k m,
  match m with
  | Ret a => k a
  | Raise e => Raise e
  | Timeout => Timeout
  end.

(** [[g(x) for x in xs]] where [g] may fail: left to right, first failure wins. *)
Fixpoint for_each {A B} (g : A → outcome B) (xs : list A) : outcome (list B) :=
  match xs with
  | [] => Ret []
  | x :: xs' => y ← g x; ys ← for_each g xs'; Ret (y :: ys)
  end.

(** [for x in xs: s = body(s, x)] where the body may fail. *)
Fixpoint fold_each {A S} (body : S → A → outcome S) (s : S) (xs : list A)
  : outcome S :=
  match xs with
  | [] => Ret s
  | x :: xs' => s' ← body s x; fold_each body s' xs'
  end.

(** [[x for x in xs if g(x)]] where the test may fail. *)
Fixpoint filter_each {A} (g : A → outcome bool) (xs : list A)
  : outcome (list A) :=
  match xs with
  | [] => Ret []
  | x :: xs' =>
      keep ← g x; ys ← filter_each g xs';
      Ret (if keep : bool then x :: ys else ys)
  end.

(** ** Data model *)

(** Primary keys (UUIDs). *)
Abbreviation uuid := N (only parsing).

Inductive ContentType := ROOT | DOMAIN | ENCLAVE.

Global Instance ContentType_eq_dec : EqDecision ContentType.
Proof. solve_decision. Defined.

Record Folder := mkFolder {
  name : string;
  content_type : ContentType;
  parent_folder : option uuid;
  builtin : bool;
}.

(** A row of django's [Permission] table, identified by its codename, which
    is what every [Permission.objects.get(codename=...)] of the module
    relies on. *)
Abbreviation Permission := string (only parsing).

Record Role := mkRole {
  role_id : uuid;
  role_name : string;
  permissions : gset Permission;
  role_builtin : bool;
}.

Record UserGroup := mkUserGroup {
  ug_name : string;
  ug_folder : uuid;
  ug_builtin : bool;
}.

Record RoleAssignment := mkRoleAssignment {
  perimeter_folders : gset uuid;
  user : option uuid;
  user_group : option uuid;
  role : Role;
  is_recursive : bool;
  ra_builtin : bool;
  ra_folder : uuid;
}.

(** A principal is a [User] or a [UserGroup]. *)
Inductive Principal :=
  | IsUser (u : uuid)
  | IsUserGroup (g : uuid).

(** The committed state the engine reads. *)
Record Store := mkStore {
  Folder_objects : gmap uuid Folder;
  Permission_objects : gset Permission;
  Role_objects : gmap uuid Role;
  UserGroup_objects : gmap uuid UserGroup;
  User_user_groups : gmap uuid (gset uuid);
  RoleAssignment_objects : gmap uuid RoleAssignment;
}.

(** A model instance: primary key and row. *)
Abbreviation instance A := (uuid * A)%type (only parsing).

(** ** Folder tree *)

Section FolderTree.
Context (st : Store).

(** [f.parent_folder] *)
Definition parent_of (f : uuid) : option uuid :=
  Folder_objects st !! f ≫= parent_folder.

(** [f.content_type] *)
Definition content_type_of (f : uuid) : option ContentType :=
  content_type <$> Folder_objects st !! f.

(** [folder.folder_set.all()] *)
Definition folder_set (folder : uuid) : list uuid :=
  (filter (λ kv, parent_folder kv.2 = Some folder)
          (map_to_list (Folder_objects st))).*1.

(** [sub_folders_in] of [Folder.get_sub_folders] *)
Fixpoint sub_folders_in (fuel : nat) (folder : uuid) : outcome (list uuid) :=
  match fuel with
  | 0 => Timeout
  | S fuel' =>
      subs ← for_each
               (λ sub_folder,
                  below ← sub_folders_in fuel' sub_folder;
                  Ret (sub_folder :: below))
               (folder_set folder);
      Ret (mjoin (M:=list) subs)
  end.

Definition get_sub_folders (fuel : nat) (self : uuid) : outcome (list uuid) :=
  sub_folders_in fuel self.

(** [Folder.get_parent_folders] *)
Fixpoint get_parent_folders (fuel : nat) (current_folder : uuid)
  : outcome (list uuid) :=
  match parent_of current_folder with
  | None => Ret []
  | Some p =>
      match fuel with
      | 0 => Timeout
      | S fuel' => rest ← get_parent_folders fuel' p; Ret (p :: rest)
      end
  end.

(** [_get_root_folder]: [Folder.objects.get(content_type=ROOT)], [None] on
    any exception. *)
Definition get_root_folder : option uuid :=
  match filter (λ kv, content_type kv.2 = ROOT)
               (map_to_list (Folder_objects st)) with
  | [kv] => Some kv.1
  | _ => None
  end.

(** [n] steps along [parent_folder]. *)
Fixpoint nth_parent (n : nat) (f : uuid) : option uuid :=
  match n with
  | 0 => Some f
  | S n' => parent_of f ≫= nth_parent n'
  end.

(** [a] is a strict ancestor of [f]; equivalently [f] a strict descendant
    of [a]. *)
Definition strict_ancestor (a f : uuid) : Prop :=
  ∃ k, nth_parent (S k) f = Some a.

(** The tree invariant: no folder is its own strict ancestor. The table
    being finite, every parent chain is then finite. *)
Definition acyclic : Prop := ∀ f, ¬ strict_ancestor f f.
End FolderTree.

(** ** Role assignments of a principal *)

Section Assignments.
Context (st : Store).

(** [Permission.objects.get(codename=...)] *)
Definition Permission_get (codename : string) : outcome Permission :=
  if decide (codename ∈ Permission_objects st) then Ret codename
  else Raise DoesNotExist.

(** [principal.roleassignment_set.all()] *)
Definition roleassignment_set (principal : Principal)
  : list (instance RoleAssignment) :=
  match principal with
  | IsUser u =>
      filter (λ kv, user kv.2 = Some u)
             (map_to_list (RoleAssignment_objects st))
  | IsUserGroup g =>
      filter (λ kv, user_group kv.2 = Some g)
             (map_to_list (RoleAssignment_objects st))
  end.

(** [principal.user_groups.all()], for a principal that has the attribute *)
Definition user_groups (principal : Principal) : option (list uuid) :=
  match principal with
  | IsUser u => Some (elements (default ∅ (User_user_groups st !! u)))
  | IsUserGroup _ => None
  end.

(** [RoleAssignment.get_role_assignments] *)
Definition get_role_assignments (principal : Principal)
  : list (instance RoleAssignment) :=
  let assignments := roleassignment_set principal in
  let assignments :=
    match user_groups principal with
    | Some groups =>
        foldl (λ assignments user_group,
                 assignments ++ roleassignment_set (IsUserGroup user_group))
              assignments groups
    | None => assignments
    end in
  assignments ++ roleassignment_set principal.
End Assignments.

(** ** The single-decision evaluator and the permission mapping *)

Section AccessEvaluator.
Context (st : Store).

(** The [while f is not None] loop of [is_access_allowed] for one
    assignment: [Ret true] when its [return True] is reached, [Ret false]
    when the loop falls off the top of the tree. *)
Fixpoint perimeter_walk (fuel : nat) (ra : RoleAssignment)
    (perm : Permission) (f : option uuid) : outcome bool :=
  match f with
  | None => Ret false
  | Some f' =>
      if bool_decide (f' ∈ perimeter_folders ra)
         && bool_decide (perm ∈ permissions (role ra))
      then Ret true
      else match fuel with
           | 0 => Timeout
           | S fuel' => perimeter_walk fuel' ra perm (parent_of st f')
           end
  end.

(** The [for ra in ...] loop of [is_access_allowed]. *)
Fixpoint access_loop (fuel : nat) (add_tag_permission perm : Permission)
    (folder : uuid) (ras : list (instance RoleAssignment)) : outcome bool :=
  match ras with
  | [] => Ret false
  | ra :: rest =>
      if bool_decide (perm = add_tag_permission)
         && bool_decide (perm ∈ permissions (role ra.2))
      then Ret true
      else
        granted ← perimeter_walk fuel ra.2 perm (Some folder);
        if granted : bool then Ret true
        else access_loop fuel add_tag_permission perm folder rest
  end.

(** [RoleAssignment.is_access_allowed] *)
Definition is_access_allowed (fuel : nat) (user : Principal)
    (perm : Permission) (folder : uuid) : outcome bool :=
  add_tag_permission ← Permission_get st "add_filteringlabel";
  access_loop fuel add_tag_permission perm folder
              (get_role_assignments st user).

(** [str(p)] of a permission, defined by django. *)
Context (Permission_str : Permission → string).

(** The two nested loops of [get_permissions] over a list of assignments. *)
Definition permissions_of (ras : list (instance RoleAssignment))
  : gmap string (gmap string string) :=
  foldl (λ perms ra,
           foldl (λ perms p,
                    let permission_dict :=
                      {[ p := {[ "str" := Permission_str p ]} ]} in
                    permission_dict ∪ perms)
                 perms (elements (permissions (role ra.2))))
        ∅ ras.

(** [RoleAssignment.get_permissions] *)
Definition get_permissions (principal : Principal)
  : gmap string (gmap string string) :=
  permissions_of (get_role_assignments st principal).
End AccessEvaluator.

(** ** Resource kinds and their objects *)

(** A row of a resource table; each [x__folder] field is the folder reached
    through the relation [x], when the kind has it and it is set. *)
Record ObjectRow := mkObjectRow {
  folder : option uuid;
  risk_assessment__folder : option uuid;
  entity__folder : option uuid;
  provider_entity__folder : option uuid;
  is_published : bool;
}.

(** A model class: its name, the attributes [hasattr] probes, its table. *)
Record ObjectType := mkObjectType {
  class_name_lower : string;
  has_folder : bool;
  has_risk_assessment : bool;
  has_entity : bool;
  has_provider_entity : bool;
  has_parent_folder : bool;
  has_is_published : bool;
  objects : gmap uuid ObjectRow;
}.

(** [object_type.objects.filter(<cond>).values_list("id", flat=True)] *)
Definition ids_where (object_type : ObjectType) (cond : ObjectRow → bool)
  : gset uuid :=
  dom (filter (λ kv, cond kv.2 = true) (objects object_type)).

Definition in_folder (f : uuid) (o : option uuid) : bool :=
  bool_decide (o = Some f).

(** ** Bulk enumeration *)

Section AccessibleSetIndex.
Context (st : Store).

(** The body of the first loop of [get_accessible_folders]: every
    perimeter folder of [ra] and all its sub-folders join the set. *)
Definition add_perimeter (fuel : nat) (folders_set : gset uuid)
    (ra : instance RoleAssignment) : outcome (gset uuid) :=
  fold_each
    (λ folders_set f,
       let folders_set := {[f]} ∪ folders_set in
       subs ← get_sub_folders st fuel f;
       Ret (folders_set ∪ list_to_set subs))
    folders_set (elements (perimeter_folders ra.2)).

(** [RoleAssignment.get_accessible_folders] *)
Definition get_accessible_folders (fuel : nat) (folder : uuid)
    (user : Principal) (content_type : option ContentType)
    (codename : string) : outcome (list uuid) :=
  let folders_set : gset uuid := ∅ in
  ref_permission ← Permission_get st codename;
  ras ← filter_each
          (λ x, view_folder ← Permission_get st "view_folder";
                Ret (bool_decide (view_folder ∈ permissions (role x.2))
                     && bool_decide (ref_permission ∈ permissions (role x.2))))
          (get_role_assignments st user);
  folders_set ← fold_each (add_perimeter fuel) folders_set ras;
  let perimeter : gset uuid := {[folder]} in
  subs ← get_sub_folders st fuel folder;
  let perimeter := perimeter ∪ list_to_set subs in
  Ret (filter (λ x, (match content_type with
                     | Some ct => bool_decide (content_type_of st x = Some ct)
                     | None => true
                     end && bool_decide (x ∈ perimeter)) = true)
              (elements folders_set)).

(** [result_folders[f].add(p)] for every [p] and [f] of one assignment. *)
Definition record_grants (result_folders : gmap uuid (gset Permission))
    (ps : list Permission) (target_folders : list uuid)
  : gmap uuid (gset Permission) :=
  foldl (λ result_folders p,
           foldl (λ result_folders f,
                    <[f := {[p]} ∪ result_folders !!! f]> result_folders)
                 result_folders target_folders)
        result_folders ps.

(** The perimeter of one assignment, expanded when [is_recursive]. *)
Definition expanded_perimeter (fuel : nat) (ra : RoleAssignment)
  : outcome (gset uuid) :=
  let ra_perimeter := perimeter_folders ra in
  if is_recursive ra then
    subs ← for_each (get_sub_folders st fuel) (elements ra_perimeter);
    Ret (ra_perimeter ∪ ⋃ (list_to_set <$> subs))
  else Ret ra_perimeter.

(** The body of the first loop of [get_accessible_object_ids], for one
    assignment. *)
Definition grant_step (fuel : nat) (perimeter : gset uuid)
    (perms : gset Permission)
    (result_folders : gmap uuid (gset Permission))
    (ra : instance RoleAssignment)
  : outcome (gmap uuid (gset Permission)) :=
  let ra_permissions := permissions (role ra.2) in
  ra_perimeter ← expanded_perimeter fuel ra.2;
  let target_folders := perimeter ∩ ra_perimeter in
  Ret (record_grants result_folders
         (elements (perms ∩ ra_permissions))
         (elements target_folders)).

(** The first loop: which folder grants which of the three permissions. *)
Definition grant_loop (fuel : nat) (perimeter : gset uuid)
    (perms : gset Permission)
    (role_assignments : list (instance RoleAssignment))
  : outcome (gmap uuid (gset Permission)) :=
  fold_each (grant_step fuel perimeter perms) ∅ role_assignments.

(** The [hasattr] chain selecting the objects located in [f]. *)
Definition objects_ids_in (object_type : ObjectType) (f : uuid)
  : outcome (gset uuid) :=
  if has_folder object_type then
    Ret (ids_where object_type (λ o, in_folder f (folder o)))
  else if has_risk_assessment object_type then
    Ret (ids_where object_type (λ o, in_folder f (risk_assessment__folder o)))
  else if has_entity object_type then
    Ret (ids_where object_type (λ o, in_folder f (entity__folder o)))
  else if has_provider_entity object_type then
    Ret (ids_where object_type (λ o, in_folder f (provider_entity__folder o)))
  else if has_parent_folder object_type then
    Ret {[f]}
  else Raise NotImplementedError.

(** The body of the second loop, for one folder of [result_folders]. *)
Definition collect_step (object_type : ObjectType)
    (permission_view permission_change permission_delete : Permission)
    (result_folders : gmap uuid (gset Permission))
    (results : gset uuid * gset uuid * gset uuid) (f : uuid)
  : outcome (gset uuid * gset uuid * gset uuid) :=
  let '(result_view, result_change, result_delete) := results in
  objects_ids ← objects_ids_in object_type f;
  Ret (if bool_decide (permission_view ∈ result_folders !!! f)
       then result_view ∪ objects_ids else result_view,
       if bool_decide (permission_change ∈ result_folders !!! f)
       then result_change ∪ objects_ids else result_change,
       if bool_decide (permission_delete ∈ result_folders !!! f)
       then result_delete ∪ objects_ids else result_delete).

(** The second loop: accumulate the three id sets. *)
Definition collect_loop (object_type : ObjectType)
    (permission_view permission_change permission_delete : Permission)
    (result_folders : gmap uuid (gset Permission))
  : outcome (gset uuid * gset uuid * gset uuid) :=
  fold_each
    (collect_step object_type permission_view permission_change
                  permission_delete result_folders)
    (∅, ∅, ∅) (elements (dom result_folders)).

(** The [while my_folder2] loop of the publication overlay. *)
Fixpoint published_walk (fuel : nat) (object_type : ObjectType)
    (my_folder2 : option uuid) (result_view : gset uuid)
  : outcome (gset uuid) :=
  match my_folder2 with
  | None => Ret result_view
  | Some f2 =>
      match fuel with
      | 0 => Timeout
      | S fuel' =>
          published_walk fuel' object_type (parent_of st f2)
            (result_view
             ∪ ids_where object_type
                 (λ o, in_folder f2 (folder o) && is_published o))
      end
  end.

(** The body of the overlay loop, for one folder with a local view. *)
Definition overlay_step (fuel : nat) (object_type : ObjectType)
    (result_view : gset uuid) (my_folder : uuid) : outcome (gset uuid) :=
  if bool_decide (content_type_of st my_folder ≠ Some ENCLAVE) then
    published_walk fuel object_type (parent_of st my_folder) result_view
  else Ret result_view.

(** The publication overlay. *)
Definition publication_overlay (fuel : nat) (object_type : ObjectType)
    (permission_view : Permission)
    (result_folders : gmap uuid (gset Permission))
    (result_view : gset uuid) : outcome (gset uuid) :=
  if has_is_published object_type && has_folder object_type then
    let folders_with_local_view :=
      filter (λ f, permission_view ∈ result_folders !!! f)
             (elements (dom result_folders)) in
    fold_each (overlay_step fuel object_type)
              result_view folders_with_local_view
  else Ret result_view.

(** [RoleAssignment.get_accessible_object_ids] *)
Definition get_accessible_object_ids (fuel : nat) (folder : uuid)
    (user : Principal) (object_type : ObjectType)
  : outcome (list uuid * list uuid * list uuid) :=
  let class_name := class_name_lower object_type in
  permission_view ← Permission_get st ("view_" +:+ class_name);
  permission_change ← Permission_get st ("change_" +:+ class_name);
  permission_delete ← Permission_get st ("delete_" +:+ class_name);
  let perms : gset Permission :=
    list_to_set [permission_view; permission_change; permission_delete] in
  ref_permission ← Permission_get st "view_folder";
  subs ← get_sub_folders st fuel folder;
  let perimeter : gset uuid := {[folder]} ∪ list_to_set subs in
  let role_assignments :=
    filter (λ ra, ref_permission ∈ permissions (role ra.2))
           (get_role_assignments st user) in
  result_folders ← grant_loop fuel perimeter perms role_assignments;
  results ← collect_loop object_type permission_view permission_change
                         permission_delete result_folders;
  let '(result_view, result_change, result_delete) := results in
  result_view ← publication_overlay fuel object_type permission_view
                                    result_folders result_view;
  Ret (elements result_view, elements result_change, elements result_delete).
End AccessibleSetIndex.

(** ** Writes: commands over the store

    A command returns the store it leaves behind together with its outcome:
    the module opens no transaction, so the writes made before an exception
    are in the store the exception leaves. *)

Definition cmd (A : Type) : Type := Store → Store * outcome A.

Global Instance cmd_bind : MBind cmd := λ A B k m st,
  match m st with
  | (st', Ret a) => k a st'
  | (st', Raise e) => (st', Raise e)
  | (st', Timeout) => (st', Timeout)
  end.

Definition read {A} (g : Store → A) : cmd A := λ st, (st, Ret (g st)).
Definition done_with {A} (a : A) : cmd A := λ st, (st, Ret a).

Definition set_UserGroup_objects (t : gmap uuid UserGroup) (st : Store) :=
  mkStore (Folder_objects st) (Permission_objects st) (Role_objects st)
          t (User_user_groups st) (RoleAssignment_objects st).

Definition set_RoleAssignment_objects (t : gmap uuid RoleAssignment)
    (st : Store) :=
  mkStore (Folder_objects st) (Permission_objects st) (Role_objects st)
          (UserGroup_objects st) (User_user_groups st) t.

(** [UserGroup.objects.create(name=..., folder=..., builtin=...)]; the new
    primary key is one the table does not hold. *)
Definition UserGroup_objects_create (name : string) (folder : uuid)
    (builtin : bool) : cmd uuid := λ st,
  let id := fresh (dom (UserGroup_objects st)) in
  (set_UserGroup_objects
     (<[id := mkUserGroup name folder builtin]> (UserGroup_objects st)) st,
   Ret id).

(** [Role.objects.get(name=...)] on a given state of the table *)
Definition Role_get (roles : gmap uuid Role) (name : string) : outcome Role :=
  match filter (λ kv, role_name kv.2 = name) (map_to_list roles) with
  | [] => Raise DoesNotExist
  | [kv] => Ret kv.2
  | _ => Raise MultipleObjectsReturned
  end.

(** [Role.objects.get(name=...)] *)
Definition Role_objects_get (name : string) : cmd Role := λ st,
  (st, Role_get (Role_objects st) name).

(** [RoleAssignment.objects.create(user_group=..., role=..., builtin=...,
    folder=..., is_recursive=...)]; [folder] is a non-null foreign key. *)
Definition RoleAssignment_objects_create (user_group : uuid) (role : Role)
    (builtin : bool) (folder : option uuid) (is_recursive : bool)
  : cmd uuid := λ st,
  match folder with
  | None => (st, Raise IntegrityError)
  | Some folder =>
      let id := fresh (dom (RoleAssignment_objects st)) in
      (set_RoleAssignment_objects
         (<[id := mkRoleAssignment ∅ None (Some user_group) role
                                    is_recursive builtin folder]>
            (RoleAssignment_objects st)) st,
       Ret id)
  end.

(** [ra.perimeter_folders.add(folder)] *)
Definition perimeter_folders_add (ra : uuid) (folder : uuid) : cmd unit :=
  λ st,
  (set_RoleAssignment_objects
     (alter (λ r, mkRoleAssignment ({[folder]} ∪ perimeter_folders r)
                    (user r) (user_group r) (role r) (is_recursive r)
                    (ra_builtin r) (ra_folder r))
            ra (RoleAssignment_objects st)) st,
   Ret ()).

(** The members of [UserGroupCodename] and [RoleCodename] the provisioner
    names. *)
Inductive Codename := READER | APPROVER | ANALYST | DOMAIN_MANAGER.

Section DomainProvisioner.
(** The string values of the two enumerations of [core.utils]. *)
Context (UserGroupCodename RoleCodename : Codename → string).

(** One of the four blocks [ra = RoleAssignment.objects.create(...)]
    followed by [ra.perimeter_folders.add(folder)]. *)
Definition create_builtin_ra (c : Codename) (group : uuid) (folder : uuid)
  : cmd unit :=
  role ← Role_objects_get (RoleCodename c);
  root ← read get_root_folder;
  ra ← RoleAssignment_objects_create group role true root true;
  perimeter_folders_add ra folder.

(** [Folder.create_default_ug_and_ra] *)
Definition create_default_ug_and_ra (folder : instance Folder) : cmd unit :=
  if decide (content_type folder.2 = DOMAIN) then
    readers ← UserGroup_objects_create (UserGroupCodename READER)
                                       folder.1 true;
    approvers ← UserGroup_objects_create (UserGroupCodename APPROVER)
                                         folder.1 true;
    analysts ← UserGroup_objects_create (UserGroupCodename ANALYST)
                                        folder.1 true;
    managers ← UserGroup_objects_create (UserGroupCodename DOMAIN_MANAGER)
                                        folder.1 true;
    _ ← create_builtin_ra READER readers folder.1;
    _ ← create_builtin_ra APPROVER approvers folder.1;
    _ ← create_builtin_ra ANALYST analysts folder.1;
    create_builtin_ra DOMAIN_MANAGER managers folder.1
  else done_with ().
End DomainProvisioner.

(** ** [PublishInRootFolderMixin.save] *)

Definition set_is_published (b : bool) (o : ObjectRow) : ObjectRow :=
  mkObjectRow (folder o) (risk_assessment__folder o) (entity__folder o)
              (provider_entity__folder o) b.

Definition set_objects (t : gmap uuid ObjectRow) (ot : ObjectType) :=
  mkObjectType (class_name_lower ot) (has_folder ot) (has_risk_assessment ot)
               (has_entity ot) (has_provider_entity ot) (has_parent_folder ot)
               (has_is_published ot) t.

(** [save] of an instance [self] with primary key [id] of a class that
    inherits the mixin; [super().save()] writes the row. The attribute
    [folder] is the foreign key of [FolderMixin], which is not nullable:
    [getattr(self, "folder")] raises while it is unset, and raises
    [AttributeError] on a class that has no such attribute. *)
Definition save (st : Store) (object_type : ObjectType) (id : uuid)
    (self : ObjectRow) : outcome ObjectType :=
  self_folder ← (if has_folder object_type then
                   match folder self with
                   | Some f => Ret f
                   | None => Raise RelatedObjectDoesNotExist
                   end
                 else Raise AttributeError);
  let self :=
    if bool_decide (Some self_folder = get_root_folder st)
       && has_is_published object_type
       && negb (is_published self)
    then set_is_published true self
    else self in
  Ret (set_objects (<[id := self]> (objects object_type)) object_type).

(** ** Notions the properties are stated with *)

(** The assignments a user inherits from its groups, in the order
    [get_role_assignments] appends them. *)
Definition group_assignments (st : Store) (principal : Principal)
  : list (instance RoleAssignment) :=
  match user_groups st principal with
  | Some groups => groups ≫= λ g, roleassignment_set st (IsUserGroup g)
  | None => []
  end.

(** [principal] holds the assignment [ra], directly or through a group. *)
Definition assigned (st : Store) (principal : Principal)
    (ra : instance RoleAssignment) : Prop :=
  ra ∈ roleassignment_set st principal ∨ ra ∈ group_assignments st principal.

(** [a] is [f] or one of its ancestors. *)
Definition on_chain (st : Store) (a f : uuid) : Prop :=
  a = f ∨ strict_ancestor st a f.

(** The assignment [ra] grants [perm] on [folder]: its role holds the token
    and either the token is the tagging one or a perimeter folder lies on
    the chain from [folder] to the root. *)
Definition grants (st : Store) (add_tag_permission perm : Permission)
    (folder : uuid) (ra : RoleAssignment) : Prop :=
  perm ∈ permissions (role ra)
  ∧ (perm = add_tag_permission
     ∨ ∃ a, a ∈ perimeter_folders ra ∧ on_chain st a folder).

(** Setting the [is_recursive] flag of the assignment [id]. *)
Definition with_is_recursive (b : bool) (r : RoleAssignment) : RoleAssignment :=
  mkRoleAssignment (perimeter_folders r) (user r) (user_group r) (role r)
                   b (ra_builtin r) (ra_folder r).

Definition set_is_recursive (id : uuid) (b : bool) (st : Store) : Store :=
  set_RoleAssignment_objects
    (alter (with_is_recursive b) id (RoleAssignment_objects st)) st.

(** A sufficient, checkable condition for the tree invariant: every parent
    has a smaller key than its child. *)
Definition parents_precede (st : Store) : bool :=
  forallb (λ kv, match parent_folder kv.2 with
                 | Some p => (p <? kv.1)%N
                 | None => true
                 end)
          (map_to_list (Folder_objects st)).

(** ** A small deployment used to exercise the statements

    Folders: the root [1], a domain [2] under it, a domain [3] and an
    enclave [4] under [2], and an unrelated domain [5] under the root. *)
Module Sample.
Definition folders : gmap uuid Folder :=
  <[5%N := mkFolder "other" DOMAIN (Some 1%N) false]>
 (<[4%N := mkFolder "enclave" ENCLAVE (Some 2%N) false]>
 (<[3%N := mkFolder "child" DOMAIN (Some 2%N) false]>
 (<[2%N := mkFolder "domain" DOMAIN (Some 1%N) false]>
 (<[1%N := mkFolder "Global" ROOT None true]> ∅)))).

Definition catalog : gset Permission :=
  list_to_set ["view_folder"; "view_asset"; "change_asset"; "delete_asset";
               "add_filteringlabel"].

Definition reader : Role :=
  mkRole 10%N "BI-RL-AUD" (list_to_set ["view_folder"; "view_asset"]) true.
Definition analyst : Role :=
  mkRole 11%N "BI-RL-ANA"
         (list_to_set ["view_folder"; "view_asset"; "change_asset";
                       "delete_asset"; "add_filteringlabel"]) true.

(** User [7] reads domain [2], not recursively; group [8], of which user
    [9] is a member, analyses domain [2] recursively. *)
Definition ra_reader : RoleAssignment :=
  mkRoleAssignment {[2%N]} (Some 7%N) None reader false false 1%N.
Definition ra_analyst : RoleAssignment :=
  mkRoleAssignment {[2%N]} None (Some 8%N) analyst true false 1%N.

Definition store : Store :=
  mkStore folders catalog
          (<[11%N := analyst]> {[10%N := reader]})
          {[8%N := mkUserGroup "analysts" 2%N false]}
          {[9%N := {[8%N]}]}
          (<[101%N := ra_analyst]> {[100%N := ra_reader]}).
End Sample.

(** The row of assignment [k] once the flag of assignment [id] is set. *)
Definition retag (id : uuid) (b : bool) (k : uuid) (r : RoleAssignment)
  : RoleAssignment :=
  if decide (id = k) then with_is_recursive b r else r.

(** The answer of [accessibleFolders] in the words of the specification:
    [x] is a candidate (a perimeter folder, or a descendant of one, of an
    assignment of the user whose role holds both [view_folder] and the
    requested token), lies in the scope [{folder} ∪ descendants(folder)],
    and has the requested content type when one is requested. *)
Definition accessibleFolders_spec (st : Store) (folder : uuid)
    (user : Principal) (contentType : option ContentType) (codename : string)
    (x : uuid) : Prop :=
  (∃ ra p, assigned st user ra
           ∧ "view_folder" ∈ permissions (role ra.2)
           ∧ codename ∈ permissions (role ra.2)
           ∧ p ∈ perimeter_folders ra.2
           ∧ on_chain st p x)
  ∧ on_chain st folder x
  ∧ match contentType with
    | Some ct => content_type_of st x = Some ct
    | None => True
    end.

(** [f] is in the perimeter of [ra] as [get_accessible_object_ids] expands
    it: a perimeter folder, or, when [is_recursive], a descendant of one. *)
Definition in_expanded_perimeter (st : Store) (ra : RoleAssignment)
    (f : uuid) : Prop :=
  ∃ a, a ∈ perimeter_folders ra
       ∧ (f = a ∨ (is_recursive ra = true ∧ strict_ancestor st a f)).

(** Folder [f] locally grants the token [p] to [user] in a query rooted at
    [folder]: an assignment of the user whose role holds [view_folder] and
    [p] has [f] in its expanded perimeter, and [f] is in the scope
    [{folder} ∪ descendants(folder)]. *)
Definition local_grant (st : Store) (folder : uuid) (user : Principal)
    (p : Permission) (f : uuid) : Prop :=
  ∃ ra, assigned st user ra
        ∧ "view_folder" ∈ permissions (role ra.2)
        ∧ p ∈ permissions (role ra.2)
        ∧ on_chain st folder f
        ∧ in_expanded_perimeter st ra.2 f.

(** The object [o] of the kind is located in folder [f]. *)
Definition located (object_type : ObjectType) (f : uuid) (o : uuid) : Prop :=
  ∃ ids, objects_ids_in object_type f = Ret ids ∧ o ∈ ids.

(** The object [o] of the kind is published and has [a] as its folder. *)
Definition published_in (object_type : ObjectType) (a : uuid) (o : uuid)
  : Prop :=
  o ∈ ids_where object_type (λ r, in_folder a (folder r) && is_published r).

(** The kind has one of the attributes [get_accessible_object_ids] knows. *)
Definition supported (object_type : ObjectType) : bool :=
  has_folder object_type || has_risk_assessment object_type
  || has_entity object_type || has_provider_entity object_type
  || has_parent_folder object_type.

(** A publishable kind with a direct folder, and four of its objects: [200]
    published in the domain [2], [201] in the child domain [3], [202]
    published in the root, [203] in the enclave [4]. *)
Module SampleKind.
Definition rows : gmap uuid ObjectRow :=
  <[203%N := mkObjectRow (Some 4%N) None None None false]>
 (<[202%N := mkObjectRow (Some 1%N) None None None true]>
 (<[201%N := mkObjectRow (Some 3%N) None None None false]>
 (<[200%N := mkObjectRow (Some 2%N) None None None true]> ∅))).

Definition asset : ObjectType :=
  mkObjectType "asset" true false false false false true rows.
End SampleKind.

(** Values for the codenames, used with the sample deployment. *)
Module SampleCodenames.
Definition UserGroupCodename (c : Codename) : string :=
  match c with
  | READER => "BI-UG-AUD"
  | APPROVER => "BI-UG-APP"
  | ANALYST => "BI-UG-ANA"
  | DOMAIN_MANAGER => "BI-UG-DMA"
  end.

Definition RoleCodename (c : Codename) : string :=
  match c with
  | READER => "BI-RL-AUD"
  | APPROVER => "BI-RL-APP"
  | ANALYST => "BI-RL-ANA"
  | DOMAIN_MANAGER => "BI-RL-DMA"
  end.

Definition approver : Role :=
  mkRole 12%N "BI-RL-APP" (list_to_set ["view_folder"; "view_asset"]) true.
Definition domain_manager : Role :=
  mkRole 13%N "BI-RL-DMA"
         (list_to_set ["view_folder"; "view_asset"; "change_asset"]) true.

(** The sample deployment with all four builtin roles. *)
Definition full_store : Store :=
  mkStore Sample.folders Sample.catalog
          (<[13%N := domain_manager]>
             (<[12%N := approver]> (Role_objects Sample.store)))
          (UserGroup_objects Sample.store)
          (User_user_groups Sample.store)
          (RoleAssignment_objects Sample.store).

(** The domain folder [5] as an instance. *)
Definition new_domain : instance Folder :=
  (5%N, mkFolder "other" DOMAIN (Some 1%N) false).
End SampleCodenames.

(** The group and the assignment the provisioner creates for one codename. *)
Definition builtin_group (UserGroupCodename : Codename → string)
    (c : Codename) (folder : uuid) : UserGroup :=
  mkUserGroup (UserGroupCodename c) folder true.

Definition builtin_assignment (group : uuid) (r : Role) (root folder : uuid)
  : RoleAssignment :=
  mkRoleAssignment {[folder]} None (Some group) r true true root.

(** The guarantee the specification asks of a failing provisioning: the
    store it leaves is the store it found. *)
Definition all_or_nothing (UserGroupCodename RoleCodename : Codename → string)
  : Prop :=
  ∀ st folder st' e,
    create_default_ug_and_ra UserGroupCodename RoleCodename folder st
    = (st', Raise e) →
    st' = st.

(** ** Paths in the folder tree *)

(** [Folder.get_folder_full_path] *)
Definition get_folder_full_path (st : Store) (fuel : nat) (self : uuid)
    (include_root : bool) : outcome (list uuid) :=
  parents ← get_parent_folders st fuel self;
  let folders := reverse ([self] ++ parents) in
  if include_root then Ret folders
  else Ret (if decide (1 < length folders) then drop 1 folders else folders).

Module FolderMixin.
(** [FolderMixin.get_folder_full_path], for an object whose [folder]
    attribute is [self_folder]. *)
Definition get_folder_full_path (st : Store) (fuel : nat) (self_folder : uuid)
    (include_root : bool) : outcome (list uuid) :=
  parents ← get_parent_folders st fuel self_folder;
  let folders := reverse ([self_folder] ++ parents) in
  if include_root then Ret folders
  else Ret (if decide (1 < length folders) then drop 1 folders else folders).
End FolderMixin.

(** The object [o] is located in a folder of the scope of [folder] on
    which the single decision allows [user] both [token] and
    [view_folder]. *)
Definition allowed_object (st : Store) (fuel : nat) (folder : uuid)
    (user : Principal) (object_type : ObjectType) (token : Permission)
    (o : uuid) : Prop :=
  ∃ f, located object_type f o ∧ on_chain st folder f
       ∧ is_access_allowed st fuel user token f = Ret true
       ∧ is_access_allowed st fuel user "view_folder" f = Ret true.

(** ** Other queries on role assignments *)

(** [RoleAssignment.is_user_assigned]; the value of the Python expression
    is taken for its truth. *)
Definition is_user_assigned (st : Store) (self : RoleAssignment)
    (a_user : uuid) : bool :=
  bool_decide (Some a_user = user self)
  || match user_group self with
     | Some g => bool_decide (g ∈ default ∅ (User_user_groups st !! a_user))
     | None => false
     end.

(** The loop of [has_role]; two roles are equal when their primary keys
    are. *)
Fixpoint has_role_loop (a_role : Role) (ras : list (instance RoleAssignment))
  : bool :=
  match ras with
  | [] => false
  | ra :: rest =>
      if bool_decide (role_id (role ra.2) = role_id a_role) then true
      else has_role_loop a_role rest
  end.

(** [RoleAssignment.has_role] *)
Definition has_role (st : Store) (a_user : Principal) (a_role : Role) : bool :=
  has_role_loop a_role (get_role_assignments st a_user).

(** [permissions[key] |= ra_permissions] on a [defaultdict(set)] *)
Definition union_into (key : uuid) (ra_permissions : gset Permission)
    (perms : gmap uuid (gset Permission)) : gmap uuid (gset Permission) :=
  <[key := perms !!! key ∪ ra_permissions]> perms.

(** The body of the outer loop of [get_permissions_per_folder], for one
    assignment. The keys of the mapping are [str(folder.id)], one per
    folder; the folder's key stands for it. *)
Definition per_folder_step (st : Store) (fuel : nat) (recursive : bool)
    (perms : gmap uuid (gset Permission)) (ra : instance RoleAssignment)
  : outcome (gmap uuid (gset Permission)) :=
  let ra_permissions := permissions (role ra.2) in
  fold_each
    (λ perms folder,
       let perms := union_into folder ra_permissions perms in
       if recursive && is_recursive ra.2 then
         subs ← get_sub_folders st fuel folder;
         Ret (foldl (λ perms f, union_into f ra_permissions perms) perms subs)
       else Ret perms)
    perms (elements (perimeter_folders ra.2)).

(** [RoleAssignment.get_permissions_per_folder] *)
Definition get_permissions_per_folder (st : Store) (fuel : nat)
    (principal : Principal) (recursive : bool)
  : outcome (gmap uuid (gset Permission)) :=
  fold_each (per_folder_step st fuel recursive) ∅
            (get_role_assignments st principal).

(** The loop of [is_access_allowed] when the caller's [folder] may be
    [None], as [Folder.get_root_folder()] and [Folder.get_folder(obj)] can
    be. *)
Fixpoint access_loop_from (st : Store) (fuel : nat)
    (add_tag_permission perm : Permission) (folder : option uuid)
    (ras : list (instance RoleAssignment)) : outcome bool :=
  match ras with
  | [] => Ret false
  | ra :: rest =>
      if bool_decide (perm = add_tag_permission)
         && bool_decide (perm ∈ permissions (role ra.2))
      then Ret true
      else
        granted ← perimeter_walk st fuel ra.2 perm folder;
        if granted : bool then Ret true
        else access_loop_from st fuel add_tag_permission perm folder rest
  end.

(** [RoleAssignment.is_access_allowed] called with such a [folder]. *)
Definition is_access_allowed_from (st : Store) (fuel : nat)
    (a_user : Principal) (perm : Permission) (folder : option uuid)
  : outcome bool :=
  add_tag_permission ← Permission_get st "add_filteringlabel";
  access_loop_from st fuel add_tag_permission perm folder
                   (get_role_assignments st a_user).

(** [User.has_backup_permission] *)
Definition has_backup_permission (st : Store) (fuel : nat) (self : uuid)
  : outcome bool :=
  perm ← Permission_get st "backup";
  is_access_allowed_from st fuel (IsUser self) perm (get_root_folder st).

(** [User.is_editor]; iterating the mapping visits its keys. *)
Definition is_editor (st : Store) (Permission_str : Permission → string)
    (self : uuid) : bool :=
  let perms := get_permissions st Permission_str (IsUser self) in
  let editor_prefixes := ["add_"; "change_"; "delete_"] in
  existsb (λ perm, existsb (λ prefix, String.prefix prefix perm)
                           editor_prefixes)
          (map_to_list perms).*1.

(** The perimeter of [ra] as [get_permissions_per_folder] reads it: a
    perimeter folder, or a descendant of one when [recursive] is asked and
    the assignment is recursive. *)
Definition covers (st : Store) (recursive : bool) (ra : RoleAssignment)
    (f : uuid) : Prop :=
  ∃ a, a ∈ perimeter_folders ra
       ∧ (f = a ∨ (recursive = true ∧ is_recursive ra = true
                   ∧ strict_ancestor st a f)).

(** The sample deployment with the [backup] token in the catalog. *)
Module SampleBackup.
Definition store : Store :=
  mkStore Sample.folders ({["backup"]} ∪ Sample.catalog)
          (Role_objects Sample.store) (UserGroup_objects Sample.store)
          (User_user_groups Sample.store)
          (RoleAssignment_objects Sample.store).
End SampleBackup.

(** ** Resolving the folder of an arbitrary object *)

(** The Python values [Folder.get_folder] navigates: [None], an instance of
    [Folder] (its parent is in the store), a dictionary with its items, or
    any other object with every name [getattr] resolves on it, class-level
    names included, and the value each gives. *)
Inductive PyValue :=
  | PyNone
  | PyFolder (id : uuid)
  | PyDict (items : list (string * PyValue))
  | PyObject (attrs : list (string * PyValue)).

(** The entry of a name in a dictionary or in the attributes of an object. *)
Fixpoint entry (name : string) (entries : list (string * PyValue))
  : option PyValue :=
  match entries with
  | [] => None
  | (k, v) :: rest => if decide (k = name) then Some v else entry name rest
  end.

(** What [getattr] resolves on the two values whose attributes are not
    written in the value: on [None], the names of its class; on a folder,
    every name but [parent_folder] (the other columns, the methods and
    what [Folder] inherits from classes outside this module). [None] is
    the answer for a name that is not resolved. *)
Record Attributes := mkAttributes {
  None_getattr : string → option PyValue;
  Folder_getattr : uuid → string → option PyValue;
}.

(** [current.get(p, None)] on a dictionary, [getattr(current, p, None)] on
    anything else. *)
Definition step_into (py : Attributes) (st : Store) (current : PyValue)
    (p : string) : PyValue :=
  match current with
  | PyDict items => default PyNone (entry p items)
  | PyObject attrs => default PyNone (entry p attrs)
  | PyFolder id =>
      if decide (p = "parent_folder") then
        match parent_of st id with
        | Some parent => PyFolder parent
        | None => PyNone
        end
      else default PyNone (Folder_getattr py id p)
  | PyNone => default PyNone (None_getattr py p)
  end.

(** [Folder._navigate_structure] *)
Fixpoint _navigate_structure (py : Attributes) (st : Store)
    (start : PyValue) (path : list string) : PyValue :=
  match path with
  | [] => start
  | p :: rest =>
      match step_into py st start p with
      | PyNone => PyNone
      | current => _navigate_structure py st current rest
      end
  end.

(** The paths [get_folder] tries, in order. *)
Definition paths : list (list string) :=
  [ ["folder"];
    ["parent_folder"];
    ["perimeter"; "folder"];
    ["entity"; "folder"];
    ["provider_entity"; "folder"];
    ["solution"; "provider_entity"; "folder"];
    ["risk_assessment"; "perimeter"; "folder"];
    ["risk_scenario"; "risk_assessment"; "perimeter"; "folder"];
    ["compliance_assessment"; "perimeter"; "folder"] ].

(** The [for path in paths] loop of [get_folder]. *)
Fixpoint first_folder (py : Attributes) (st : Store) (obj : PyValue)
    (ps : list (list string)) : PyValue :=
  match ps with
  | [] => PyNone
  | path :: rest =>
      match _navigate_structure py st obj path with
      | PyNone => first_folder py st obj rest
      | folder => folder
      end
  end.

(** [Folder.get_folder] *)
Definition get_folder (py : Attributes) (st : Store) (obj : PyValue)
  : PyValue :=
  match obj with
  | PyFolder _ => obj
  | _ => first_folder py st obj paths
  end.

(** [f.parent_folder] on an arbitrary value. *)
Definition parent_folder_of (st : Store) (f : PyValue) : outcome PyValue :=
  match f with
  | PyFolder id =>
      Ret (match parent_of st id with
           | Some parent => PyFolder parent
           | None => PyNone
           end)
  | PyObject attrs =>
      match entry "parent_folder" attrs with
      | Some v => Ret v
      | None => Raise AttributeError
      end
  | PyDict _ | PyNone => Raise AttributeError
  end.

(** [f in ra.perimeter_folders.all()] on an arbitrary value. *)
Definition in_perimeter (ra : RoleAssignment) (f : PyValue) : bool :=
  match f with
  | PyFolder id => bool_decide (id ∈ perimeter_folders ra)
  | _ => false
  end.

(** The [while f is not None] loop of [is_access_allowed] when [folder] is
    whatever [get_folder] found. *)
Fixpoint perimeter_walk_value (st : Store) (fuel : nat) (ra : RoleAssignment)
    (perm : Permission) (f : PyValue) : outcome bool :=
  match f with
  | PyNone => Ret false
  | _ =>
      if in_perimeter ra f && bool_decide (perm ∈ permissions (role ra))
      then Ret true
      else match fuel with
           | 0 => Timeout
           | S fuel' =>
               next ← parent_folder_of st f;
               perimeter_walk_value st fuel' ra perm next
           end
  end.

(** The [for ra in ...] loop of [is_access_allowed] on such a [folder]. *)
Fixpoint access_loop_value (st : Store) (fuel : nat)
    (add_tag_permission perm : Permission) (folder : PyValue)
    (ras : list (instance RoleAssignment)) : outcome bool :=
  match ras with
  | [] => Ret false
  | ra :: rest =>
      if bool_decide (perm = add_tag_permission)
         && bool_decide (perm ∈ permissions (role ra.2))
      then Ret true
      else
        granted ← perimeter_walk_value st fuel ra.2 perm folder;
        if granted : bool then Ret true
        else access_loop_value st fuel add_tag_permission perm folder rest
  end.

(** [RoleAssignment.is_access_allowed] on such a [folder]. *)
Definition is_access_allowed_value (st : Store) (fuel : nat)
    (a_user : Principal) (perm : Permission) (folder : PyValue)
  : outcome bool :=
  add_tag_permission ← Permission_get st "add_filteringlabel";
  access_loop_value st fuel add_tag_permission perm folder
                    (get_role_assignments st a_user).

(** [RoleAssignment.is_object_readable]; [table] is [object_type.objects]
    and [class_name] is [object_type.__name__.lower()]. *)
Definition is_object_readable (py : Attributes) (st : Store) (fuel : nat)
    (a_user : Principal) (class_name : string) (table : gmap uuid PyValue)
    (id : uuid) : outcome bool :=
  match table !! id with
  | None => Ret false
  | Some obj =>
      permission ← Permission_get st ("view_" +:+ class_name);
      is_access_allowed_value st fuel a_user permission (get_folder py st obj)
  end.

(** [None] or a folder, as a value. *)
Definition of_option (o : option uuid) : PyValue :=
  match o with
  | Some f => PyFolder f
  | None => PyNone
  end.

(** The store a successful provisioning of [folder] leaves, with the keys
    [create] draws for the four groups and the four assignments. *)
Definition provisioned (UserGroupCodename : Codename → string)
    (folder root : uuid) (r1 r2 r3 r4 : Role) (st : Store) : Store :=
  let ug0 := UserGroup_objects st in
  let g1 := fresh (dom ug0) in
  let ug1 := <[g1 := builtin_group UserGroupCodename READER folder]> ug0 in
  let g2 := fresh (dom ug1) in
  let ug2 := <[g2 := builtin_group UserGroupCodename APPROVER folder]> ug1 in
  let g3 := fresh (dom ug2) in
  let ug3 := <[g3 := builtin_group UserGroupCodename ANALYST folder]> ug2 in
  let g4 := fresh (dom ug3) in
  let ug4 :=
    <[g4 := builtin_group UserGroupCodename DOMAIN_MANAGER folder]> ug3 in
  let ra0 := RoleAssignment_objects st in
  let a1 := fresh (dom ra0) in
  let ra1 := <[a1 := builtin_assignment g1 r1 root folder]> ra0 in
  let a2 := fresh (dom ra1) in
  let ra2 := <[a2 := builtin_assignment g2 r2 root folder]> ra1 in
  let a3 := fresh (dom ra2) in
  let ra3 := <[a3 := builtin_assignment g3 r3 root folder]> ra2 in
  let a4 := fresh (dom ra3) in
  let ra4 := <[a4 := builtin_assignment g4 r4 root folder]> ra3 in
  mkStore (Folder_objects st) (Permission_objects st) (Role_objects st)
          ug4 (User_user_groups st) ra4.

(** [st'] has the folders, tokens, roles and memberships of [st], and every
    group and assignment of [st], unchanged. *)
Definition extends (st st' : Store) : Prop :=
  Folder_objects st' = Folder_objects st
  ∧ Permission_objects st' = Permission_objects st
  ∧ Role_objects st' = Role_objects st
  ∧ User_user_groups st' = User_user_groups st
  ∧ UserGroup_objects st ⊆ UserGroup_objects st'
  ∧ RoleAssignment_objects st ⊆ RoleAssignment_objects st'.

(** The sample deployment without its root folder. *)
Module SampleRootless.
Definition store : Store :=
  mkStore (delete 1%N Sample.folders) Sample.catalog
          (Role_objects Sample.store) (UserGroup_objects Sample.store)
          (User_user_groups Sample.store)
          (RoleAssignment_objects Sample.store).
End SampleRootless.

(** ** Users: local login and [User.save] *)

(** A value of the JSON field [GlobalSettings.value]. *)
Inductive Json :=
| JNull
| JBool (b : bool)
| JNumber (n : Z)
| JString (s : string)
| JArray (items : list Json)
| JObject (members : list (string * Json)).

(** Python's truth value of a JSON value, as [not v] tests it. *)
Definition truthy (v : Json) : bool :=
  match v with
  | JNull => false
  | JBool b => b
  | JNumber n => negb (n =? 0)%Z
  | JString s => negb (String.eqb s "")
  | JArray items => negb (bool_decide (items = []))
  | JObject members => negb (bool_decide (members = []))
  end.

(** The password column: an encoded password, or the unusable marker that
    [set_unusable_password] stores. *)
Inductive Password :=
| Usable (encoded : string)
| Unusable.

(** The columns of [User] that [save] and [is_local] read or write. *)
Record UserRow := mkUser {
  email : string;
  password : Password;
  keep_local_login : bool;
  is_active : bool;
  is_superuser : bool;
}.

Definition set_is_active (b : bool) (self : UserRow) : UserRow :=
  mkUser (email self) (password self) (keep_local_login self) b
         (is_superuser self).

Definition set_unusable_password (self : UserRow) : UserRow :=
  mkUser (email self) Unusable (keep_local_login self) (is_active self)
         (is_superuser self).

Module User.

(** [User.is_local]. [sso] is the outcome of
    [GlobalSettings.objects.get(name=GlobalSettings.Names.SSO)]: the value
    of the row, or [None] when the query raises [DoesNotExist]. *)
Definition is_local (sso : option (gmap string Json)) (self : UserRow)
  : bool :=
  let sso_settings :=
    match sso with
    | Some value => value
    | None => ∅
    end in
  is_active self
  && (keep_local_login self
      || negb (truthy (default (JBool false) (sso_settings !! "is_enabled")))
      || negb (truthy (default (JBool false) (sso_settings !! "force_sso")))).

(** [User.save]: the instance after the two adjustments, and the table
    after [super().save()] has written it under its primary key. *)
Definition save (sso : option (gmap string Json)) (pk : uuid)
    (self : UserRow) (User_objects : gmap uuid UserRow)
  : UserRow * gmap uuid UserRow :=
  let self :=
    if is_superuser self && negb (is_active self)
    then set_is_active true self
    else self in
  let self :=
    if negb (is_local sso self)
    then set_unusable_password self
    else self in
  (self, <[pk := self]> User_objects).

End User.

(** SSO switched on and forced, as the settings row stores it. *)
Definition forced_sso : gmap string Json :=
  {[ "is_enabled" := JBool true; "force_sso" := JBool true ]}.


(** The sample deployment with a second assignment for user [7]: besides
    reading domain [2], not recursively, the user edits it recursively
    through a role that holds no view token of a kind. *)
Module SampleEditor.
Definition editor : Role :=
  mkRole 13%N "editor"
         (list_to_set ["view_folder"; "change_asset"; "delete_asset"]) false.

Definition ra_editor : RoleAssignment :=
  mkRoleAssignment {[2%N]} (Some 7%N) None editor true false 1%N.

Definition store : Store :=
  mkStore Sample.folders Sample.catalog
          (<[13%N := editor]> (Role_objects Sample.store))
          (UserGroup_objects Sample.store)
          (User_user_groups Sample.store)
          (<[102%N := ra_editor]> (RoleAssignment_objects Sample.store)).
End SampleEditor.

(** * Properties *)

(** ** Outcomes *)

Lemma bind_Ret_inv {A B} (m : outcome A) (k : A → outcome B) b :
  (m ≫= k) = Ret b → ∃ a, m = Ret a ∧ k a = Ret b.
Proof. destruct m; simpl; [eauto | done | done]. Qed.

Lemma for_each_Ret_inv {A B} (g : A → outcome B) xs ys :
  for_each g xs = Ret ys → Forall2 (λ x y, g x = Ret y) xs ys.
Proof.
  revert ys. induction xs as [|x xs IH]; intros ys; simpl.
  - intros [= <-]. constructor.
  - intros (y & Hy & H)%bind_Ret_inv.
    apply bind_Ret_inv in H as (ys' & Hys & [= <-]).
    constructor; auto.
Qed.

Lemma for_each_total {A B} (g : A → outcome B) xs :
  (∀ x, x ∈ xs → ∃ y, g x = Ret y) → ∃ ys, for_each g xs = Ret ys.
Proof.
  induction xs as [|x xs IH]; intros H; simpl; [eauto|].
  destruct (H x) as [y ->]; [left|]. simpl.
  destruct IH as [ys ->]; [intros; apply H; by right|]. simpl. eauto.
Qed.

Lemma fold_each_total {A S} (body : S → A → outcome S) xs s :
  (∀ s x, x ∈ xs → ∃ s', body s x = Ret s') →
  ∃ s', fold_each body s xs = Ret s'.
Proof.
  revert s. induction xs as [|x xs IH]; intros s H; simpl; [eauto|].
  destruct (H s x) as [s' ->]; [left|]. simpl.
  apply IH. intros; apply H; by right.
Qed.

(** ** The folder tree *)

Section TreeFacts.
Context (st : Store).
Implicit Types f a c : uuid.

Lemma nth_parent_S_r n f :
  nth_parent st (S n) f = nth_parent st n f ≫= parent_of st.
Proof.
  revert f. induction n as [|n IH]; intros f.
  - simpl. by destruct (parent_of st f).
  - change (nth_parent st (S (S n)) f)
      with (parent_of st f ≫= nth_parent st (S n)).
    destruct (parent_of st f) as [p|] eqn:E; simpl; rewrite E; simpl; [|done].
    apply IH.
Qed.

Lemma nth_parent_add n m f :
  nth_parent st (n + m) f = nth_parent st n f ≫= nth_parent st m.
Proof.
  revert f. induction n as [|n IH]; intros f; simpl; [done|].
  destruct (parent_of st f); simpl; [apply IH | done].
Qed.

Lemma nth_parent_None_mono n m f :
  nth_parent st n f = None → n ≤ m → nth_parent st m f = None.
Proof.
  intros H Hle. replace m with (n + (m - n)) by lia.
  by rewrite nth_parent_add, H.
Qed.

Lemma strict_ancestor_parent f p :
  parent_of st f = Some p → strict_ancestor st p f.
Proof. intros H. exists 0. simpl. by rewrite H. Qed.

Lemma strict_ancestor_trans a b f :
  strict_ancestor st a b → strict_ancestor st b f → strict_ancestor st a f.
Proof.
  intros [k Hk] [j Hj]. exists (j + S k).
  change (S (j + S k)) with (S j + S k).
  by rewrite nth_parent_add, Hj.
Qed.

Lemma strict_ancestor_step a p f :
  strict_ancestor st p f → parent_of st p = Some a → strict_ancestor st a f.
Proof.
  intros H Hp. eapply strict_ancestor_trans; [|exact H].
  by apply strict_ancestor_parent.
Qed.

(** Either the parent is the ancestor, or the ancestor is above the parent. *)
Lemma strict_ancestor_inv a f :
  strict_ancestor st a f →
  ∃ p, parent_of st f = Some p ∧ (p = a ∨ strict_ancestor st a p).
Proof.
  intros [k Hk]. simpl in Hk.
  destruct (parent_of st f) as [p|]; [|done]. simpl in Hk.
  exists p. split; [done|]. destruct k as [|k].
  - left. simpl in Hk. congruence.
  - right. by exists k.
Qed.

(** Peeling the last step instead of the first. *)
Lemma strict_ancestor_inv_top a f :
  strict_ancestor st a f →
  ∃ c, parent_of st c = Some a ∧ (c = f ∨ strict_ancestor st c f).
Proof.
  intros [k Hk]. rewrite nth_parent_S_r in Hk.
  destruct (nth_parent st k f) as [c|] eqn:E; [|done]. simpl in Hk.
  exists c. split; [done|]. destruct k as [|k].
  - left. simpl in E. congruence.
  - right. by exists k.
Qed.

Lemma parent_of_dom f p :
  parent_of st f = Some p → f ∈ dom (Folder_objects st).
Proof.
  unfold parent_of. intros H. apply elem_of_dom.
  destruct (Folder_objects st !! f); [eauto | done].
Qed.

Lemma elem_of_folder_set c f :
  c ∈ folder_set st f ↔ parent_of st c = Some f.
Proof.
  unfold folder_set, parent_of. rewrite list_elem_of_fmap. split.
  - intros ([k row] & -> & [Hp Hin]%list_elem_of_filter).
    apply elem_of_map_to_list in Hin. simpl in *. by rewrite Hin.
  - intros H. destruct (Folder_objects st !! c) as [row|] eqn:E; [|done].
    exists (c, row). split; [done|]. apply list_elem_of_filter.
    split; [done|]. by apply elem_of_map_to_list.
Qed.

(** Pigeonhole: along an acyclic chain the folders met are pairwise
    distinct rows of the table. *)
Lemma chain_bound (Hacyclic : acyclic st) n (visited : gset uuid) f :
  visited ⊆ dom (Folder_objects st) →
  (∀ v, v ∈ visited → strict_ancestor st f v) →
  size (dom (Folder_objects st)) ≤ n + size visited →
  nth_parent st (S n) f = None.
Proof.
  revert visited f. induction n as [|n IH]; intros visited f Hsub Hvis Hsz.
  - simpl. destruct (parent_of st f) as [p|] eqn:E; [|done]. exfalso.
    apply (Hacyclic f), Hvis.
    apply (set_subseteq_size_equiv _ _ Hsub); [lia|].
    by eapply parent_of_dom.
  - change (nth_parent st (S (S n)) f)
      with (parent_of st f ≫= nth_parent st (S n)).
    destruct (parent_of st f) as [p|] eqn:E; [|done]. simpl.
    assert (f ∉ visited) as Hfresh.
    { intros Hin. by apply (Hacyclic f), Hvis. }
    apply (IH ({[f]} ∪ visited)).
    + apply union_least; [|done].
      apply singleton_subseteq_l. by eapply parent_of_dom.
    + intros v [->%elem_of_singleton|Hv]%elem_of_union.
      * by apply strict_ancestor_parent.
      * eapply strict_ancestor_step; [by apply Hvis | done].
    + rewrite size_union, size_singleton by set_solver. lia.
Qed.

(** Under the tree invariant every parent chain ends within as many
    steps as the table has rows. *)
Lemma chain_ends (Hacyclic : acyclic st) fuel f :
  size (Folder_objects st) < fuel → nth_parent st fuel f = None.
Proof.
  intros Hfuel.
  apply (nth_parent_None_mono (S (size (Folder_objects st)))); [|lia].
  apply (chain_bound Hacyclic _ ∅); [set_solver | set_solver |].
  rewrite size_dom. lia.
Qed.

Lemma get_parent_folders_total fuel f :
  nth_parent st (S fuel) f = None →
  ∃ l, get_parent_folders st fuel f = Ret l.
Proof.
  revert f. induction fuel as [|fuel IH]; intros f H; simpl in *.
  - destruct (parent_of st f); [done | eauto].
  - destruct (parent_of st f) as [p|]; [|eauto]. simpl in H.
    destruct (IH p H) as [l ->]. simpl. eauto.
Qed.

Lemma get_parent_folders_spec fuel f l a :
  get_parent_folders st fuel f = Ret l →
  a ∈ l ↔ strict_ancestor st a f.
Proof.
  revert f l. induction fuel as [|fuel IH]; intros f l; simpl.
  - destruct (parent_of st f) as [p|] eqn:E; [done|]. intros [= <-].
    split; [by intros ?%elem_of_nil|].
    intros (p & Hp & _)%strict_ancestor_inv. congruence.
  - destruct (parent_of st f) as [p|] eqn:E.
    + intros (rest & Hrest & [= <-])%bind_Ret_inv.
      rewrite elem_of_cons, (IH _ _ Hrest). split.
      * intros [->|H]; [by apply strict_ancestor_parent|].
        eapply strict_ancestor_trans; [exact H|].
        by apply strict_ancestor_parent.
      * intros (p' & Hp' & H)%strict_ancestor_inv.
        assert (p' = p) as -> by congruence.
        destruct H as [->|H]; [by left | by right].
    + intros [= <-]. split; [by intros ?%elem_of_nil|].
      intros (p & Hp & _)%strict_ancestor_inv. congruence.
Qed.
End TreeFacts.

(** ** Descendants *)

Section SubFolders.
Context (st : Store).

Lemma sub_folders_in_unfold fuel folder l :
  sub_folders_in st (S fuel) folder = Ret l →
  ∃ subs,
    Forall2 (λ c sub, ∃ below, sub_folders_in st fuel c = Ret below
                               ∧ sub = c :: below)
            (folder_set st folder) subs
    ∧ l = mjoin subs.
Proof.
  simpl. intros (subs & Hsubs & [= <-])%bind_Ret_inv.
  exists subs. split; [|done].
  apply for_each_Ret_inv in Hsubs.
  eapply Forall2_impl; [exact Hsubs|]. simpl.
  intros c sub (below & ? & [= <-])%bind_Ret_inv. eauto.
Qed.

(** What the depth-first generator yields below [folder] is exactly the
    set of its strict descendants. *)
Lemma sub_folders_in_spec fuel folder l x :
  sub_folders_in st fuel folder = Ret l →
  x ∈ l ↔ strict_ancestor st folder x.
Proof.
  intros Hl. split.
  - revert folder l Hl.
    induction fuel as [|fuel IH]; intros folder l Hl; [done|].
    apply sub_folders_in_unfold in Hl as (subs & Hsubs & ->).
    intros (sub & Hx & Hsub)%list_elem_of_join.
    apply list_elem_of_lookup in Hsub as [i Hi].
    destruct (Forall2_lookup_r _ _ _ _ _ Hsubs Hi)
      as (c & Hc & below & Hbelow & ->).
    assert (parent_of st c = Some folder) as Hpc.
    { apply elem_of_folder_set. by eapply list_elem_of_lookup_2. }
    apply elem_of_cons in Hx as [->|Hx].
    + by apply strict_ancestor_parent.
    + eapply strict_ancestor_step; [|exact Hpc]. by eapply IH.
  - intros [k Hk]. revert fuel folder l Hl Hk.
    induction k as [|k IH]; intros fuel folder l Hl Hk.
    + destruct fuel as [|fuel]; [done|].
      apply sub_folders_in_unfold in Hl as (subs & Hsubs & ->).
      simpl in Hk. destruct (parent_of st x) as [p|] eqn:E; [|done].
      simpl in Hk. injection Hk as ->.
      apply elem_of_folder_set, list_elem_of_lookup in E as [i Hi].
      destruct (Forall2_lookup_l _ _ _ _ _ Hsubs Hi)
        as (sub & Hsub & below & _ & ->).
      apply list_elem_of_join. exists (x :: below).
      split; [left | by eapply list_elem_of_lookup_2].
    + destruct fuel as [|fuel]; [done|].
      apply sub_folders_in_unfold in Hl as (subs & Hsubs & ->).
      rewrite nth_parent_S_r in Hk.
      destruct (nth_parent st (S k) x) as [c|] eqn:Ec; [|done].
      simpl in Hk.
      apply elem_of_folder_set, list_elem_of_lookup in Hk as [i Hi].
      destruct (Forall2_lookup_l _ _ _ _ _ Hsubs Hi)
        as (sub & Hsub & below & Hbelow & ->).
      apply list_elem_of_join. exists (c :: below).
      split; [right; by eapply IH | by eapply list_elem_of_lookup_2].
Qed.

Lemma sub_folders_in_descend (Hacyclic : acyclic st) fuel
    (visited : gset uuid) c :
  c ∈ dom (Folder_objects st) →
  visited ⊆ dom (Folder_objects st) →
  (∀ v, v ∈ visited → strict_ancestor st v c) →
  size (dom (Folder_objects st)) ≤ fuel + size visited →
  ∃ l, sub_folders_in st fuel c = Ret l.
Proof.
  revert visited c.
  induction fuel as [|fuel IH]; intros visited c Hc Hsub Hvis Hsz.
  - exfalso. apply (Hacyclic c), Hvis.
    by apply (set_subseteq_size_equiv _ _ Hsub); [lia|].
  - assert (c ∉ visited) as Hfresh.
    { intros Hin. by apply (Hacyclic c), Hvis. }
    simpl.
    destruct (for_each_total
                (λ sub_folder, below ← sub_folders_in st fuel sub_folder;
                               Ret (sub_folder :: below))
                (folder_set st c)) as [subs ->]; [|simpl; eauto].
    intros d Hd%elem_of_folder_set.
    destruct (IH ({[c]} ∪ visited) d) as [below ->]; [| | | |simpl; eauto].
    + by eapply parent_of_dom.
    + apply union_least; [by apply singleton_subseteq_l | done].
    + intros v [->%elem_of_singleton|Hv]%elem_of_union.
      * by apply strict_ancestor_parent.
      * eapply strict_ancestor_trans; [by apply Hvis|].
        by apply strict_ancestor_parent.
    + rewrite size_union, size_singleton by set_solver. lia.
Qed.

(** Under the tree invariant the descent ends. *)
Lemma get_sub_folders_total (Hacyclic : acyclic st) fuel folder :
  size (Folder_objects st) < fuel →
  ∃ l, get_sub_folders st fuel folder = Ret l.
Proof.
  intros Hfuel. unfold get_sub_folders.
  destruct fuel as [|fuel]; [lia|]. simpl.
  destruct (for_each_total
              (λ sub_folder, below ← sub_folders_in st fuel sub_folder;
                             Ret (sub_folder :: below))
              (folder_set st folder)) as [subs ->]; [|simpl; eauto].
  intros d Hd%elem_of_folder_set.
  destruct (sub_folders_in_descend Hacyclic fuel ∅ d) as [below ->];
    [| | | |simpl; eauto].
  - by eapply parent_of_dom.
  - set_solver.
  - set_solver.
  - rewrite size_dom, size_empty. lia.
Qed.

Lemma get_sub_folders_spec fuel folder l x :
  get_sub_folders st fuel folder = Ret l →
  x ∈ l ↔ strict_ancestor st folder x.
Proof. apply sub_folders_in_spec. Qed.
End SubFolders.

(** ** Role assignments *)

Section AssignmentFacts.
Context (st : Store).

Lemma elem_of_roleassignment_set principal k r :
  (k, r) ∈ roleassignment_set st principal ↔
  RoleAssignment_objects st !! k = Some r
  ∧ match principal with
    | IsUser u => user r = Some u
    | IsUserGroup g => user_group r = Some g
    end.
Proof.
  unfold roleassignment_set.
  destruct principal; rewrite list_elem_of_filter, elem_of_map_to_list;
    simpl; tauto.
Qed.

Lemma foldl_app_bind {A B} (F : B → list A) (gs : list B) (acc : list A) :
  foldl (λ assignments g, assignments ++ F g) acc gs = acc ++ (gs ≫= F).
Proof.
  revert acc. induction gs as [|g gs IH]; intros acc; simpl.
  - by rewrite app_nil_r.
  - by rewrite IH, app_assoc.
Qed.

(** The list is the direct assignments, then the groups', then the direct
    assignments once more. *)
Lemma get_role_assignments_eq principal :
  get_role_assignments st principal
  = roleassignment_set st principal
    ++ group_assignments st principal
    ++ roleassignment_set st principal.
Proof.
  unfold get_role_assignments, group_assignments.
  destruct (user_groups st principal) as [groups|].
  - by rewrite foldl_app_bind, app_assoc.
  - done.
Qed.

Lemma elem_of_get_role_assignments principal ra :
  ra ∈ get_role_assignments st principal ↔ assigned st principal ra.
Proof.
  rewrite get_role_assignments_eq, !elem_of_app. unfold assigned. tauto.
Qed.
End AssignmentFacts.

(** ** The access decision *)

Section AccessFacts.
Context (st : Store).

Lemma perimeter_walk_spec fuel ra perm o b :
  perimeter_walk st fuel ra perm o = Ret b →
  b = true ↔
  perm ∈ permissions (role ra)
  ∧ ∃ f a, o = Some f ∧ a ∈ perimeter_folders ra ∧ on_chain st a f.
Proof.
  revert o. induction fuel as [|fuel IH]; intros [f|]; simpl.
  - case_bool_decide as Hf; simpl; [case_bool_decide as Hp; simpl|]; [|done..].
    intros [= <-]. split; [|done]. intros _. split; [done|].
    exists f, f. by repeat split; [|left].
  - intros [= <-]. split; [done|]. by intros (_ & ? & ? & ? & _).
  - destruct (bool_decide (f ∈ perimeter_folders ra)
              && bool_decide (perm ∈ permissions (role ra))) eqn:Htest.
    + apply andb_prop in Htest as [Hf%bool_decide_eq_true Hp%bool_decide_eq_true].
      intros [= <-]. split; [|done]. intros _. split; [done|].
      exists f, f. by repeat split; [|left].
    + intros Hwalk. rewrite (IH _ Hwalk). split.
      * intros (Hp & f' & a & Hf' & Ha & Hch). split; [done|].
        exists f, a. repeat split; [done|]. right.
        destruct Hch as [->|Hch]; [by apply strict_ancestor_parent|].
        eapply strict_ancestor_trans; [exact Hch|].
        by apply strict_ancestor_parent.
      * intros (Hp & f' & a & [= <-] & Ha & Hch). split; [done|].
        destruct Hch as [->|Hch].
        { apply andb_false_iff in Htest
            as [H%bool_decide_eq_false|H%bool_decide_eq_false]; done. }
        apply strict_ancestor_inv in Hch as (p & Hp' & Hch).
        exists p, a. repeat split; [done..|].
        destruct Hch as [->|?]; [by left | by right].
  - intros [= <-]. split; [done|]. by intros (_ & ? & ? & ? & _).
Qed.

Lemma perimeter_walk_total fuel ra perm o :
  o ≫= nth_parent st fuel = None →
  ∃ b, perimeter_walk st fuel ra perm o = Ret b.
Proof.
  revert o. induction fuel as [|fuel IH]; intros [f|] H; simpl in *;
    try done; eauto.
  destruct (_ && _); [eauto|]. by apply IH.
Qed.

(** Whatever the loop returns, it returns [true] exactly when some
    assignment of the list grants. *)
Lemma access_loop_spec fuel add_tag_permission perm folder ras b :
  access_loop st fuel add_tag_permission perm folder ras = Ret b →
  b = true ↔
  ∃ ra, ra ∈ ras ∧ grants st add_tag_permission perm folder ra.2.
Proof.
  revert b. induction ras as [|ra ras IH]; intros b; simpl.
  - intros [= <-]. split; [done|]. by intros (? & ?%elem_of_nil & _).
  - destruct (bool_decide (perm = add_tag_permission)
              && bool_decide (perm ∈ permissions (role ra.2))) eqn:Htest.
    + apply andb_prop in Htest as [Ht%bool_decide_eq_true Hp%bool_decide_eq_true].
      intros [= <-]. split; [|done]. intros _.
      exists ra. split; [left|]. split; [done | by left].
    + intros (granted & Hwalk & Hrest)%bind_Ret_inv.
      pose proof (perimeter_walk_spec _ _ _ _ _ Hwalk) as Hw.
      destruct granted.
      * injection Hrest as <-. split; [|done]. intros _.
        destruct Hw as [(Hp & f & a & [= <-] & Ha & Hch) _]; [done|].
        exists ra. split; [left|]. split; [done|]. right. eauto.
      * rewrite (IH _ Hrest). split.
        { intros (ra' & Hin & Hg). exists ra'. split; [by right | done]. }
        intros (ra' & [->|Hin]%elem_of_cons & Hg); [|eauto].
        exfalso. destruct Hg as [Hp [->|(a & Ha & Hch)]].
        -- apply andb_false_iff in Htest
             as [H%bool_decide_eq_false|H%bool_decide_eq_false]; done.
        -- assert (false = true); [|done]. apply Hw. split; [done|]. eauto.
Qed.

Lemma access_loop_total fuel add_tag_permission perm folder ras :
  nth_parent st fuel folder = None →
  ∃ b, access_loop st fuel add_tag_permission perm folder ras = Ret b.
Proof.
  intros Hend. induction ras as [|ra ras [b IH]]; simpl; [eauto|].
  destruct (_ && _); [eauto|].
  destruct (perimeter_walk_total fuel ra.2 perm (Some folder)) as [g ->];
    [done|]. simpl. destruct g; eauto.
Qed.

(** The decision is a function of the set of assignments listed. *)
Lemma access_loop_set fuel add_tag_permission perm folder ras1 ras2 :
  nth_parent st fuel folder = None →
  (∀ ra, ra ∈ ras1 ↔ ra ∈ ras2) →
  access_loop st fuel add_tag_permission perm folder ras1
  = access_loop st fuel add_tag_permission perm folder ras2.
Proof.
  intros Hend Hset.
  destruct (access_loop_total fuel add_tag_permission perm folder ras1 Hend)
    as [b1 H1].
  destruct (access_loop_total fuel add_tag_permission perm folder ras2 Hend)
    as [b2 H2].
  rewrite H1, H2. f_equal.
  apply access_loop_spec in H1, H2.
  assert (b1 = true ↔ b2 = true) as Hiff.
  { rewrite H1, H2. by setoid_rewrite Hset. }
  destruct b1, b2; intuition congruence.
Qed.

Lemma is_access_allowed_spec fuel user perm folder b :
  is_access_allowed st fuel user perm folder = Ret b →
  b = true ↔
  ∃ ra, assigned st user ra ∧ grants st "add_filteringlabel" perm folder ra.2.
Proof.
  unfold is_access_allowed, Permission_get.
  case_decide; [|done]. simpl. intros Hloop%access_loop_spec.
  rewrite Hloop. by setoid_rewrite elem_of_get_role_assignments.
Qed.

Lemma is_access_allowed_total (Hacyclic : acyclic st) fuel user perm folder :
  size (Folder_objects st) < fuel →
  "add_filteringlabel" ∈ Permission_objects st →
  ∃ b, is_access_allowed st fuel user perm folder = Ret b.
Proof.
  intros Hfuel Hcat. unfold is_access_allowed, Permission_get.
  rewrite decide_True by done. simpl.
  apply access_loop_total. by apply chain_ends.
Qed.
End AccessFacts.

(** ** The flag [is_recursive] and the sample tree *)

Section FlagFacts.
Context (st : Store).

Lemma parents_precede_acyclic : parents_precede st = true → acyclic st.
Proof.
  intros Hprec.
  assert (∀ f p, parent_of st f = Some p → (p < f)%N) as Hstep.
  { intros f p Hp. unfold parent_of in Hp.
    destruct (Folder_objects st !! f) as [row|] eqn:E; [|done].
    simpl in Hp. unfold parents_precede in Hprec.
    rewrite forallb_forall in Hprec.
    specialize (Hprec (f, row)). simpl in Hprec. rewrite Hp in Hprec.
    apply N.ltb_lt, Hprec, list_elem_of_In. by apply elem_of_map_to_list. }
  assert (∀ k f a, nth_parent st (S k) f = Some a → (a < f)%N) as Hchain.
  { induction k as [|k IH]; intros f a; simpl.
    - destruct (parent_of st f) as [p|] eqn:E; [|done]. simpl.
      intros [= <-]. by apply Hstep.
    - destruct (parent_of st f) as [p|] eqn:E; [|done]. simpl.
      intros H. apply (IH p) in H. apply Hstep in E. lia. }
  intros f [k Hk]. apply Hchain in Hk. lia.
Qed.

Lemma retag_perimeter id b k r :
  perimeter_folders (retag id b k r) = perimeter_folders r.
Proof. unfold retag. by case_decide. Qed.

Lemma retag_role id b k r : role (retag id b k r) = role r.
Proof. unfold retag. by case_decide. Qed.

Lemma roleassignment_set_flag id b principal k r' :
  (k, r') ∈ roleassignment_set (set_is_recursive id b st) principal ↔
  ∃ r, (k, r) ∈ roleassignment_set st principal ∧ r' = retag id b k r.
Proof.
  rewrite elem_of_roleassignment_set. simpl. rewrite lookup_alter.
  setoid_rewrite elem_of_roleassignment_set. unfold retag.
  destruct (decide (id = k)) as [->|Hne].
  - destruct (RoleAssignment_objects st !! k) as [r|]; simpl.
    + split.
      * intros [[= <-] Hp]. exists r. by destruct principal.
      * intros (r0 & [[= <-] Hp] & ->). by destruct principal.
    + split; [by intros [? _] | by intros (? & [? _] & _)].
  - split.
    + intros [Hk Hp]. by exists r'.
    + by intros (r0 & [Hk Hp] & ->).
Qed.

Lemma group_assignments_flag id b principal k r' :
  (k, r') ∈ group_assignments (set_is_recursive id b st) principal ↔
  ∃ r, (k, r) ∈ group_assignments st principal ∧ r' = retag id b k r.
Proof.
  unfold group_assignments.
  change (user_groups (set_is_recursive id b st) principal)
    with (user_groups st principal).
  destruct (user_groups st principal) as [groups|].
  - setoid_rewrite list_elem_of_bind. split.
    + intros (g & (r & Hr & ->)%roleassignment_set_flag & Hg). eauto.
    + intros (r & (g & Hr & Hg) & ->). exists g. split; [|done].
      apply roleassignment_set_flag. eauto.
  - split; [by intros ?%elem_of_nil | by intros (? & ?%elem_of_nil & _)].
Qed.

Lemma assigned_flag id b principal k r' :
  assigned (set_is_recursive id b st) principal (k, r') ↔
  ∃ r, assigned st principal (k, r) ∧ r' = retag id b k r.
Proof.
  unfold assigned.
  rewrite roleassignment_set_flag, group_assignments_flag. split.
  - intros [(r & ? & ?)|(r & ? & ?)]; exists r; auto.
  - intros (r & [?|?] & ?); [left | right]; exists r; auto.
Qed.

Lemma grants_flag id b add_tag_permission perm folder k r :
  grants (set_is_recursive id b st) add_tag_permission perm folder
         (retag id b k r)
  ↔ grants st add_tag_permission perm folder r.
Proof. unfold grants. by rewrite retag_perimeter, retag_role. Qed.

(** The evaluator never reads [is_recursive]. *)
Lemma is_access_allowed_flag (Hacyclic : acyclic st) id b fuel user perm
    folder :
  size (Folder_objects st) < fuel →
  is_access_allowed (set_is_recursive id b st) fuel user perm folder
  = is_access_allowed st fuel user perm folder.
Proof.
  intros Hfuel.
  destruct (decide ("add_filteringlabel" ∈ Permission_objects st)) as [Hc|Hc].
  - destruct (is_access_allowed_total st Hacyclic fuel user perm folder)
      as [b1 H1]; [done..|].
    destruct (is_access_allowed_total (set_is_recursive id b st) Hacyclic
                fuel user perm folder) as [b2 H2]; [done..|].
    rewrite H1, H2. f_equal.
    apply is_access_allowed_spec in H1, H2.
    assert (b2 = true ↔ b1 = true) as Hiff.
    { rewrite H1, H2. split.
      - intros ([k r'] & (r & Hr & ->)%assigned_flag & Hg).
        exists (k, r). split; [done|]. by eapply grants_flag.
      - intros ([k r] & Hr & Hg). exists (k, retag id b k r).
        split; [apply assigned_flag; eauto | by apply grants_flag]. }
    destruct b1, b2; intuition congruence.
  - unfold is_access_allowed, Permission_get. simpl.
    by rewrite !decide_False.
Qed.
End FlagFacts.

(** ** Termination of the ancestor walk *)

Lemma chain_top (st : Store) n f :
  nth_parent st n f = None →
  ∃ k top, k < n ∧ nth_parent st k f = Some top ∧ parent_of st top = None.
Proof.
  induction n as [|n IH]; [done|].
  rewrite nth_parent_S_r.
  destruct (nth_parent st n f) as [top|] eqn:E; simpl.
  - intros Htop. exists n, top. auto.
  - intros _. destruct IH as (k & top & ? & ? & ?); [done|].
    exists k, top. auto with lia.
Qed.

(** C10: under the tree invariant the ancestor walk ends. From every
    folder, a folder without parent is reached in at most as many steps as
    the folder table has rows; with that much fuel and one unit more, the
    generator [get_parent_folders] yields its whole (finite) sequence, which
    is the strict ancestors of the folder, and the inner [while] loop of
    [is_access_allowed] returns, for every assignment and permission. *)
Theorem ancestor_walk_terminates (st : Store) (f : uuid) :
  acyclic st →
  (∃ k top, k ≤ size (Folder_objects st)
            ∧ nth_parent st k f = Some top ∧ parent_of st top = None)
  ∧ ∀ fuel, size (Folder_objects st) < fuel →
      (∃ l, get_parent_folders st fuel f = Ret l
            ∧ ∀ a, a ∈ l ↔ strict_ancestor st a f)
      ∧ (∀ ra perm, ∃ b, perimeter_walk st fuel ra perm (Some f) = Ret b).
Proof.
  intros Hacyclic. split.
  - destruct (chain_top st (S (size (Folder_objects st))) f)
      as (k & top & ? & ? & ?); [apply chain_ends; [done | lia]|].
    exists k, top. auto with lia.
  - intros fuel Hfuel. split.
    + destruct (get_parent_folders_total st fuel f) as [l Hl].
      { apply chain_ends; [done | lia]. }
      exists l. split; [done|]. intros a. by eapply get_parent_folders_spec.
    + intros ra perm. apply perimeter_walk_total. simpl.
      by apply chain_ends.
Qed.

Lemma ancestor_walk_terminates_witness :
  (∃ k top, k ≤ size (Folder_objects Sample.store)
            ∧ nth_parent Sample.store k 3%N = Some top
            ∧ parent_of Sample.store top = None)
  ∧ ∀ fuel, size (Folder_objects Sample.store) < fuel →
      (∃ l, get_parent_folders Sample.store fuel 3%N = Ret l
            ∧ ∀ a, a ∈ l ↔ strict_ancestor Sample.store a 3%N)
      ∧ (∀ ra perm,
           ∃ b, perimeter_walk Sample.store fuel ra perm (Some 3%N) = Ret b).
Proof.
  apply (ancestor_walk_terminates Sample.store 3%N).
  apply parents_precede_acyclic. vm_compute. reflexivity.
Defined.

(** ** The single decision *)

(** C1: an assignment of the principal whose role holds the token (any
    token, the tagging one included) and whose perimeter holds the folder
    or one of its ancestors makes [is_access_allowed] return [True]; the
    answer stays [True] when the [is_recursive] flag of that assignment is
    set to either value, and more generally setting the flag of any
    assignment changes no result of the evaluator. *)
Theorem is_access_allowed_on_subtree (st : Store) (fuel : nat)
    (P : Principal) (T : Permission) (f a : uuid)
    (ra : instance RoleAssignment) :
  acyclic st →
  size (Folder_objects st) < fuel →
  "add_filteringlabel" ∈ Permission_objects st →
  assigned st P ra →
  T ∈ permissions (role ra.2) →
  a ∈ perimeter_folders ra.2 →
  on_chain st a f →
  is_access_allowed st fuel P T f = Ret true
  ∧ (∀ b, is_access_allowed (set_is_recursive ra.1 b st) fuel P T f = Ret true)
  ∧ (∀ id b P' T' f',
       is_access_allowed (set_is_recursive id b st) fuel P' T' f'
       = is_access_allowed st fuel P' T' f').
Proof.
  intros Hacyclic Hfuel Hcat Hra HT Ha Hch.
  assert (is_access_allowed st fuel P T f = Ret true) as Hgrant.
  { destruct (is_access_allowed_total st Hacyclic fuel P T f) as [b Hb];
      [done..|].
    rewrite Hb. f_equal. eapply is_access_allowed_spec; [exact Hb|].
    exists ra. split; [done|]. split; [done|]. right. eauto. }
  split; [done|]. split.
  - intros b. by rewrite is_access_allowed_flag.
  - intros. by apply is_access_allowed_flag.
Qed.

Lemma is_access_allowed_on_subtree_witness :
  is_access_allowed Sample.store 6 (IsUser 7%N) "view_asset" 3%N = Ret true
  ∧ (∀ b, is_access_allowed (set_is_recursive 100%N b Sample.store) 6
            (IsUser 7%N) "view_asset" 3%N = Ret true)
  ∧ (∀ id b P' T' f',
       is_access_allowed (set_is_recursive id b Sample.store) 6 P' T' f'
       = is_access_allowed Sample.store 6 P' T' f').
Proof.
  apply (is_access_allowed_on_subtree Sample.store 6 (IsUser 7%N)
           "view_asset" 3%N 2%N (100%N, Sample.ra_reader)).
  - apply parents_precede_acyclic. vm_compute. reflexivity.
  - vm_compute. lia.
  - vm_compute. reflexivity.
  - left. apply elem_of_roleassignment_set. split; vm_compute; reflexivity.
  - vm_compute. reflexivity.
  - vm_compute. reflexivity.
  - right. exists 0. vm_compute. reflexivity.
Defined.

(** C5: a principal one of whose assignments holds the tagging token is
    allowed that token on every folder, whatever the perimeters; for every
    other token a positive answer needs an assignment holding the token
    whose perimeter meets the chain from the folder to the root. *)
Theorem add_tag_escape_hatch (st : Store) (fuel : nat) (P : Principal)
    (f : uuid) (ra : instance RoleAssignment) :
  acyclic st →
  size (Folder_objects st) < fuel →
  "add_filteringlabel" ∈ Permission_objects st →
  assigned st P ra →
  "add_filteringlabel" ∈ permissions (role ra.2) →
  is_access_allowed st fuel P "add_filteringlabel" f = Ret true
  ∧ ∀ fuel' P' T f',
      T ≠ "add_filteringlabel" →
      is_access_allowed st fuel' P' T f' = Ret true →
      ∃ ra' a, assigned st P' ra' ∧ T ∈ permissions (role ra'.2)
               ∧ a ∈ perimeter_folders ra'.2 ∧ on_chain st a f'.
Proof.
  intros Hacyclic Hfuel Hcat Hra Htag. split.
  - destruct (is_access_allowed_total st Hacyclic fuel P
                "add_filteringlabel" f) as [b Hb]; [done..|].
    rewrite Hb. f_equal. eapply is_access_allowed_spec; [exact Hb|].
    exists ra. split; [done|]. split; [done | by left].
  - intros fuel' P' T f' HT Hallowed.
    apply is_access_allowed_spec in Hallowed as [Hallowed _].
    destruct Hallowed as (ra' & Hra' & Hperm & [?|(a & Ha & Hch)]);
      [done.. |]. eauto 6.
Qed.

Lemma add_tag_escape_hatch_witness :
  is_access_allowed Sample.store 6 (IsUser 9%N) "add_filteringlabel" 5%N
  = Ret true
  ∧ ∀ fuel' P' T f',
      T ≠ "add_filteringlabel" →
      is_access_allowed Sample.store fuel' P' T f' = Ret true →
      ∃ ra' a, assigned Sample.store P' ra' ∧ T ∈ permissions (role ra'.2)
               ∧ a ∈ perimeter_folders ra'.2 ∧ on_chain Sample.store a f'.
Proof.
  apply (add_tag_escape_hatch Sample.store 6 (IsUser 9%N) 5%N
           (101%N, Sample.ra_analyst)).
  - apply parents_precede_acyclic. vm_compute. reflexivity.
  - vm_compute. lia.
  - vm_compute. reflexivity.
  - right. unfold group_assignments. apply list_elem_of_bind.
    exists 8%N. split; [|vm_compute; left].
    apply elem_of_roleassignment_set. split; vm_compute; reflexivity.
  - vm_compute. reflexivity.
Defined.

(** ** The list of assignments *)

(** C4 (the code departs from it): every direct assignment of a principal
    occurs twice in the list [get_role_assignments] returns, which is
    therefore not duplicate-free as soon as the principal has one. *)
Theorem get_role_assignments_lists_direct_twice (st : Store) (P : Principal)
    (ra : instance RoleAssignment) :
  ra ∈ roleassignment_set st P →
  ¬ NoDup (get_role_assignments st P).
Proof.
  intros Hra Hnodup. rewrite get_role_assignments_eq, app_assoc in Hnodup.
  apply NoDup_app in Hnodup as (_ & Hdisj & _).
  apply (Hdisj ra); [|done]. apply elem_of_app. by left.
Qed.

Lemma get_role_assignments_lists_direct_twice_witness :
  (get_role_assignments Sample.store (IsUser 7%N)).*1 = [100%N; 100%N]
  ∧ ¬ NoDup (get_role_assignments Sample.store (IsUser 7%N)).
Proof.
  split; [vm_compute; reflexivity|].
  apply (get_role_assignments_lists_direct_twice Sample.store (IsUser 7%N)
           (100%N, Sample.ra_reader)).
  apply elem_of_roleassignment_set. split; vm_compute; reflexivity.
Defined.

(** ** The permission mapping *)

Section PermissionMapping.
Context (Permission_str : Permission → string).

Lemma permissions_inner_lookup (ps : list Permission)
    (acc : gmap string (gmap string string)) c :
  foldl (λ perms p, {[ p := {[ "str" := Permission_str p ]} ]} ∪ perms)
        acc ps !! c
  = if decide (c ∈ ps) then Some {[ "str" := Permission_str c ]}
    else acc !! c.
Proof.
  revert acc. induction ps as [|p ps IH]; intros acc.
  - cbn [foldl]. by rewrite decide_False by apply not_elem_of_nil.
  - cbn [foldl]. rewrite IH, <-insert_union_singleton_l.
    destruct (decide (c ∈ ps)) as [Hin|Hnin].
    + by rewrite decide_True by (by right).
    + destruct (decide (c = p)) as [->|Hne].
      * rewrite decide_True by left. by rewrite lookup_insert_eq.
      * rewrite decide_False by (by intros [?|?]%elem_of_cons).
        by rewrite lookup_insert_ne.
Qed.

Lemma permissions_of_acc_lookup (ras : list (instance RoleAssignment))
    (acc : gmap string (gmap string string)) c :
  foldl (λ perms ra,
           foldl (λ perms p,
                    {[ p := {[ "str" := Permission_str p ]} ]} ∪ perms)
                 perms (elements (permissions (role ra.2))))
        acc ras !! c
  = if decide (Exists (λ ra, c ∈ permissions (role ra.2)) ras)
    then Some {[ "str" := Permission_str c ]}
    else acc !! c.
Proof.
  revert acc. induction ras as [|ra ras IH]; intros acc.
  - cbn [foldl]. by rewrite decide_False by (by intros ?%Exists_nil).
  - cbn [foldl]. rewrite IH, permissions_inner_lookup.
    destruct (decide (Exists _ ras)) as [Hex|Hnex].
    + by rewrite decide_True by (by right).
    + destruct (decide (c ∈ elements _)) as [Hin|Hnin].
      * rewrite decide_True; [done|]. left. by apply elem_of_elements.
      * rewrite decide_False; [done|].
        intros [?%elem_of_elements|?]%Exists_cons; done.
Qed.

(** An entry of the mapping exists exactly for the tokens of the roles of
    the listed assignments, and holds the token's [str]. *)
Lemma permissions_of_lookup ras c :
  permissions_of Permission_str ras !! c
  = if decide (Exists (λ ra, c ∈ permissions (role ra.2)) ras)
    then Some {[ "str" := Permission_str c ]}
    else None.
Proof. unfold permissions_of. by rewrite permissions_of_acc_lookup. Qed.

Lemma permissions_of_set ras1 ras2 :
  (∀ ra, ra ∈ ras1 ↔ ra ∈ ras2) →
  permissions_of Permission_str ras1 = permissions_of Permission_str ras2.
Proof.
  intros Hset. apply map_eq. intros c. rewrite !permissions_of_lookup.
  assert (Exists (λ ra, c ∈ permissions (role ra.2)) ras1
          ↔ Exists (λ ra : N * RoleAssignment, c ∈ permissions (role ra.2)) ras2)
    as Hiff.
  { rewrite !Exists_exists. by setoid_rewrite Hset. }
  destruct (decide (Exists _ ras1)), (decide (Exists _ ras2)); tauto.
Qed.
End PermissionMapping.

Lemma listed_twice_same_set (st : Store) (P : Principal) ra :
  ra ∈ get_role_assignments st P ↔
  ra ∈ roleassignment_set st P ++ group_assignments st P.
Proof. rewrite elem_of_get_role_assignments, elem_of_app. done. Qed.

(** C9: access decisions and the permission mapping depend on the set of
    assignments listed, not on how often each is listed. Two lists with
    the same members give the same decision and the same mapping; so
    [is_access_allowed] and [get_permissions] answer as they would on the
    list that names the direct assignments once. *)
Theorem decisions_ignore_multiplicity (st : Store)
    (Permission_str : Permission → string) (fuel : nat) :
  acyclic st →
  size (Folder_objects st) < fuel →
  (∀ add_tag_permission perm folder ras1 ras2,
     (∀ ra, ra ∈ ras1 ↔ ra ∈ ras2) →
     access_loop st fuel add_tag_permission perm folder ras1
     = access_loop st fuel add_tag_permission perm folder ras2
     ∧ permissions_of Permission_str ras1
       = permissions_of Permission_str ras2)
  ∧ (∀ P perm folder,
       is_access_allowed st fuel P perm folder
       = (add_tag_permission ← Permission_get st "add_filteringlabel";
          access_loop st fuel add_tag_permission perm folder
            (roleassignment_set st P ++ group_assignments st P)))
  ∧ (∀ P,
       get_permissions st Permission_str P
       = permissions_of Permission_str
           (roleassignment_set st P ++ group_assignments st P)).
Proof.
  intros Hacyclic Hfuel. split; [|split].
  - intros add_tag_permission perm folder ras1 ras2 Hset. split.
    + apply access_loop_set; [by apply chain_ends | done].
    + by apply permissions_of_set.
  - intros P perm folder. unfold is_access_allowed.
    destruct (Permission_get st "add_filteringlabel"); simpl; [|done..].
    apply access_loop_set; [by apply chain_ends|].
    apply listed_twice_same_set.
  - intros P. unfold get_permissions. apply permissions_of_set.
    apply listed_twice_same_set.
Qed.

Lemma decisions_ignore_multiplicity_witness :
  (∀ add_tag_permission perm folder ras1 ras2,
     (∀ ra, ra ∈ ras1 ↔ ra ∈ ras2) →
     access_loop Sample.store 6 add_tag_permission perm folder ras1
     = access_loop Sample.store 6 add_tag_permission perm folder ras2
     ∧ permissions_of id ras1 = permissions_of id ras2)
  ∧ (∀ P perm folder,
       is_access_allowed Sample.store 6 P perm folder
       = (add_tag_permission ← Permission_get Sample.store "add_filteringlabel";
          access_loop Sample.store 6 add_tag_permission perm folder
            (roleassignment_set Sample.store P
             ++ group_assignments Sample.store P)))
  ∧ (∀ P,
       get_permissions Sample.store id P
       = permissions_of id
           (roleassignment_set Sample.store P
            ++ group_assignments Sample.store P)).
Proof.
  apply (decisions_ignore_multiplicity Sample.store id 6).
  - apply parents_precede_acyclic. vm_compute. reflexivity.
  - vm_compute. lia.
Defined.

(** ** Loops that accumulate a set *)

Lemma filter_each_pure {A} (g : A → outcome bool) (keep : A → bool) xs :
  (∀ x, x ∈ xs → g x = Ret (keep x)) →
  filter_each g xs = Ret (filter (λ x, keep x = true) xs).
Proof.
  induction xs as [|x xs IH]; intros Hg; simpl; [done|].
  rewrite Hg by left. simpl. rewrite IH by (intros; apply Hg; by right).
  simpl. rewrite filter_cons. by destruct (keep x).
Qed.

Lemma fold_each_elem {A} (body : gset uuid → A → outcome (gset uuid))
    (Q : A → uuid → Prop) xs :
  (∀ s a s', a ∈ xs → body s a = Ret s' → ∀ x, x ∈ s' ↔ x ∈ s ∨ Q a x) →
  ∀ s s', fold_each body s xs = Ret s' →
  ∀ x, x ∈ s' ↔ x ∈ s ∨ ∃ a, a ∈ xs ∧ Q a x.
Proof.
  induction xs as [|a xs IH]; intros Hbody s s'; simpl.
  - intros [= <-] x. split; [auto|]. intros [?|(? & ?%elem_of_nil & _)]; done.
  - intros (s1 & H1 & Hrest)%bind_Ret_inv x.
    rewrite (IH (λ s a s' Ha, Hbody s a s' (list_elem_of_further _ _ _ Ha))
               _ _ Hrest x).
    rewrite (Hbody _ _ _ (list_elem_of_here _ _) H1 x). split.
    + intros [[?|?]|(a' & ? & ?)]; [by left | right; exists a | right; exists a'].
      * split; [left | done].
      * split; [by right | done].
    + intros [?|(a' & [->|?]%elem_of_cons & ?)]; [auto | auto | right; eauto].
Qed.

(** ** Accessible folders *)

Section AccessibleFolders.
Context (st : Store).

Lemma add_with_sub_folders_spec fuel (folders_set : gset uuid) f s' :
  (subs ← get_sub_folders st fuel f;
   Ret (({[f]} ∪ folders_set) ∪ list_to_set subs)) = Ret s' →
  ∀ x, x ∈ s' ↔ x ∈ folders_set ∨ on_chain st f x.
Proof.
  intros (subs & Hsubs & [= <-])%bind_Ret_inv x.
  rewrite !elem_of_union, elem_of_singleton, elem_of_list_to_set.
  rewrite (get_sub_folders_spec _ _ _ _ x Hsubs). unfold on_chain.
  intuition congruence.
Qed.

Lemma add_perimeter_spec fuel (folders_set : gset uuid) ra s' :
  add_perimeter st fuel folders_set ra = Ret s' →
  ∀ x, x ∈ s' ↔
       x ∈ folders_set ∨ ∃ f, f ∈ perimeter_folders ra.2 ∧ on_chain st f x.
Proof.
  intros H x. unfold add_perimeter in H.
  rewrite (fold_each_elem _ (λ f x, on_chain st f x) _
             ltac:(intros s f s1 _; apply add_with_sub_folders_spec)
             _ _ H x).
  by setoid_rewrite elem_of_elements.
Qed.

Lemma add_perimeter_total (Hacyclic : acyclic st) fuel
    (folders_set : gset uuid) ra :
  size (Folder_objects st) < fuel →
  ∃ s', add_perimeter st fuel folders_set ra = Ret s'.
Proof.
  intros Hfuel. apply fold_each_total. intros s f _.
  destruct (get_sub_folders_total st Hacyclic fuel f Hfuel) as [subs ->].
  simpl. eauto.
Qed.
End AccessibleFolders.

(** C6: [get_accessible_folders] returns, without repetition, exactly the
    folders the specification describes: the candidates (perimeter folders
    of the assignments whose role holds both [view_folder] and the
    requested token, each with all its descendants, whatever
    [is_recursive]) that lie in [{folder} ∪ descendants(folder)] and have
    the requested content type when one is given. *)
Theorem get_accessible_folders_refines_spec (st : Store) (fuel : nat)
    (folder : uuid) (user : Principal) (contentType : option ContentType)
    (codename : string) :
  acyclic st →
  size (Folder_objects st) < fuel →
  "view_folder" ∈ Permission_objects st →
  codename ∈ Permission_objects st →
  ∃ l, get_accessible_folders st fuel folder user contentType codename = Ret l
       ∧ NoDup l
       ∧ ∀ x, x ∈ l ↔
              accessibleFolders_spec st folder user contentType codename x.
Proof.
  intros Hacyclic Hfuel Hview Hcode.
  unfold get_accessible_folders, Permission_get.
  rewrite (decide_True _ _ Hcode). simpl.
  rewrite (filter_each_pure _
             (λ x, bool_decide ("view_folder" ∈ permissions (role x.2))
                   && bool_decide (codename ∈ permissions (role x.2))));
    [|intros; by rewrite (decide_True _ _ Hview)].
  simpl.
  set (ras := filter _ (get_role_assignments st user)).
  destruct (fold_each_total (add_perimeter st fuel) ras ∅)
    as [folders_set Hset].
  { intros s ra _. by apply add_perimeter_total. }
  rewrite Hset. simpl.
  destruct (get_sub_folders_total st Hacyclic fuel folder Hfuel) as [subs Hsubs].
  rewrite Hsubs. simpl. eexists. split; [done|]. split.
  { apply NoDup_filter, NoDup_elements. }
  intros x. rewrite list_elem_of_filter, elem_of_elements.
  rewrite andb_true_iff, bool_decide_eq_true.
  rewrite elem_of_union, elem_of_singleton, elem_of_list_to_set.
  rewrite (get_sub_folders_spec _ _ _ _ x Hsubs).
  rewrite (fold_each_elem _
             (λ (ra : N * RoleAssignment) x,
                ∃ f, f ∈ perimeter_folders ra.2 ∧ on_chain st f x)
             ras
             ltac:(intros s ra s1 _; apply add_perimeter_spec)
             _ _ Hset x).
  unfold accessibleFolders_spec, on_chain. split.
  - intros [[Hct Hscope] [?%elem_of_empty|(ra & Hra & f & Hf & Hch)]]; [done|].
    apply list_elem_of_filter in Hra as [Hroles Hra].
    apply andb_true_iff in Hroles
      as [Hv%bool_decide_eq_true Hc%bool_decide_eq_true].
    apply elem_of_get_role_assignments in Hra.
    split; [by exists ra, f|]. split; [intuition congruence|].
    destruct contentType; [by apply bool_decide_eq_true in Hct | done].
  - intros ((ra & f & Hra & Hv & Hc & Hf & Hch) & Hscope & Hct). split.
    + split; [|intuition congruence].
      destruct contentType; [by apply bool_decide_eq_true | done].
    + right. exists ra. split; [|by exists f].
      apply list_elem_of_filter. split.
      * apply andb_true_iff. by rewrite !bool_decide_eq_true.
      * by apply elem_of_get_role_assignments.
Qed.

Lemma get_accessible_folders_refines_spec_witness :
  ∃ l, get_accessible_folders Sample.store 6 1%N (IsUser 7%N) (Some DOMAIN)
                              "view_folder" = Ret l
       ∧ NoDup l
       ∧ ∀ x, x ∈ l ↔
              accessibleFolders_spec Sample.store 1%N (IsUser 7%N)
                                     (Some DOMAIN) "view_folder" x.
Proof.
  apply (get_accessible_folders_refines_spec Sample.store 6 1%N (IsUser 7%N)
           (Some DOMAIN) "view_folder").
  - apply parents_precede_acyclic. vm_compute. reflexivity.
  - vm_compute. lia.
  - vm_compute. reflexivity.
  - vm_compute. reflexivity.
Defined.

(** ** Accessible objects: the grants recorded per folder *)

Section Grants.
Context (st : Store).

Lemma strict_ancestor_alt a f :
  strict_ancestor st a f ↔ ∃ p, parent_of st f = Some p ∧ on_chain st a p.
Proof.
  split.
  - intros (p & Hp & H)%strict_ancestor_inv. exists p. split; [done|].
    destruct H as [->|?]; [by left | by right].
  - intros (p & Hp & [->|H]); [by apply strict_ancestor_parent|].
    eapply strict_ancestor_trans; [exact H|].
    by apply strict_ancestor_parent.
Qed.

Lemma record_grant_folders_lookup (rf : gmap uuid (gset Permission))
    (p : Permission) fs f q :
  q ∈ foldl (λ rf f, <[f := {[p]} ∪ rf !!! f]> rf) rf fs !!! f ↔
  q ∈ rf !!! f ∨ (q = p ∧ f ∈ fs).
Proof.
  revert rf. induction fs as [|f0 fs IH]; intros rf; cbn [foldl].
  - split; [auto|]. by intros [?|[_ ?%elem_of_nil]].
  - rewrite IH, elem_of_cons. destruct (decide (f0 = f)) as [->|Hne].
    + rewrite lookup_total_insert_eq, elem_of_union, elem_of_singleton.
      tauto.
    + rewrite lookup_total_insert_ne by done. intuition congruence.
Qed.

Lemma record_grants_lookup (rf : gmap uuid (gset Permission)) ps fs f q :
  q ∈ record_grants rf ps fs !!! f ↔ q ∈ rf !!! f ∨ (q ∈ ps ∧ f ∈ fs).
Proof.
  unfold record_grants. revert rf.
  induction ps as [|p ps IH]; intros rf; cbn [foldl].
  - split; [auto|]. by intros [?|[?%elem_of_nil _]].
  - rewrite IH, record_grant_folders_lookup, elem_of_cons. tauto.
Qed.

Lemma expanded_perimeter_spec fuel ra E :
  expanded_perimeter st fuel ra = Ret E →
  ∀ f, f ∈ E ↔ in_expanded_perimeter st ra f.
Proof.
  unfold expanded_perimeter, in_expanded_perimeter.
  destruct (is_recursive ra).
  - intros (subs & Hsubs%for_each_Ret_inv & [= <-])%bind_Ret_inv f.
    rewrite elem_of_union, elem_of_union_list. split.
    + intros [Hf|(X & (l & -> & Hl)%list_elem_of_fmap & Hf)].
      * exists f. auto.
      * apply list_elem_of_lookup in Hl as [i Hi].
        destruct (Forall2_lookup_r _ _ _ _ _ Hsubs Hi) as (a & Ha & Hal).
        exists a. split.
        { eapply elem_of_elements, list_elem_of_lookup_2, Ha. }
        right. split; [done|].
        eapply get_sub_folders_spec; [exact Hal|].
        by apply elem_of_list_to_set in Hf.
    + intros (a & Ha & [->|[_ Hdesc]]); [by left|]. right.
      apply elem_of_elements, list_elem_of_lookup in Ha as [i Hi].
      destruct (Forall2_lookup_l _ _ _ _ _ Hsubs Hi) as (l & Hl & Hal).
      exists (list_to_set l). split.
      * apply list_elem_of_fmap. exists l.
        split; [done | by eapply list_elem_of_lookup_2].
      * apply elem_of_list_to_set. by eapply get_sub_folders_spec.
  - intros [= <-] f. split.
    + intros Hf. exists f. auto.
    + by intros (a & Ha & [->|[? _]]).
Qed.

Lemma expanded_perimeter_total (Hacyclic : acyclic st) fuel ra :
  size (Folder_objects st) < fuel →
  ∃ E, expanded_perimeter st fuel ra = Ret E.
Proof.
  intros Hfuel. unfold expanded_perimeter.
  destruct (is_recursive ra); [|eauto].
  destruct (for_each_total (get_sub_folders st fuel)
              (elements (perimeter_folders ra))) as [subs ->].
  - intros f _. by apply get_sub_folders_total.
  - simpl. eauto.
Qed.

Lemma grant_fold_spec fuel (perimeter : gset uuid) (perms : gset Permission)
    ras (acc rf : gmap uuid (gset Permission)) :
  fold_each (grant_step st fuel perimeter perms) acc ras = Ret rf →
  ∀ f p, p ∈ rf !!! f ↔
         p ∈ acc !!! f
         ∨ ∃ ra, ra ∈ ras ∧ p ∈ perms ∧ p ∈ permissions (role ra.2)
                 ∧ f ∈ perimeter ∧ in_expanded_perimeter st ra.2 f.
Proof.
  revert acc. induction ras as [|ra ras IH]; intros acc; simpl.
  - intros [= <-] f p. split; [auto|].
    by intros [?|(? & ?%elem_of_nil & _)].
  - intros (acc' & Hstep & Hrest)%bind_Ret_inv f p.
    rewrite (IH _ Hrest). unfold grant_step in Hstep.
    apply bind_Ret_inv in Hstep as (E & HE & [= <-]).
    rewrite record_grants_lookup, !elem_of_elements, !elem_of_intersection.
    rewrite (expanded_perimeter_spec _ _ _ HE). split.
    + intros [[?|?]|(ra' & ? & ?)]; [by left | right; exists ra |
                                      right; exists ra'].
      * split; [left | tauto].
      * split; [by right | done].
    + intros [?|(ra' & [->|?]%elem_of_cons & ?)];
        [by left; left | left; right; tauto | right; eauto].
Qed.

Lemma grant_loop_total (Hacyclic : acyclic st) fuel perimeter perms ras :
  size (Folder_objects st) < fuel →
  ∃ rf, grant_loop st fuel perimeter perms ras = Ret rf.
Proof.
  intros Hfuel. apply fold_each_total. intros rf ra _. unfold grant_step.
  destruct (expanded_perimeter_total Hacyclic fuel ra.2 Hfuel) as [E ->].
  simpl. eauto.
Qed.
End Grants.

(** ** Accessible objects: the ids collected *)

Section Collect.
Context (st : Store) (object_type : ObjectType).
Context (permission_view permission_change permission_delete : Permission).
Context (result_folders : gmap uuid (gset Permission)).

Lemma collect_fold_spec fs acc res :
  fold_each (collect_step object_type permission_view permission_change
                          permission_delete result_folders) acc fs
  = Ret res →
  ∀ o,
    (o ∈ res.1.1 ↔
     o ∈ acc.1.1 ∨ ∃ f, f ∈ fs ∧ permission_view ∈ result_folders !!! f
                        ∧ located object_type f o)
    ∧ (o ∈ res.1.2 ↔
       o ∈ acc.1.2 ∨ ∃ f, f ∈ fs ∧ permission_change ∈ result_folders !!! f
                          ∧ located object_type f o)
    ∧ (o ∈ res.2 ↔
       o ∈ acc.2 ∨ ∃ f, f ∈ fs ∧ permission_delete ∈ result_folders !!! f
                        ∧ located object_type f o).
Proof.
  revert acc. induction fs as [|f fs IH]; intros acc; simpl.
  - intros [= <-] o.
    repeat split; auto; by intros [?|(? & ?%elem_of_nil & _)].
  - intros (acc' & Hstep & Hrest)%bind_Ret_inv o.
    destruct (IH _ Hrest o) as (Hv & Hc & Hd). rewrite Hv, Hc, Hd.
    clear IH Hrest Hv Hc Hd.
    destruct acc as [[rv rc] rd]. unfold collect_step in Hstep.
    apply bind_Ret_inv in Hstep as (ids & Hids & [= <-]). simpl.
    assert (∀ (p : Permission) (r : gset uuid),
      o ∈ (if bool_decide (p ∈ result_folders !!! f) then r ∪ ids else r)
        ∨ (∃ f', f' ∈ fs ∧ p ∈ result_folders !!! f'
                 ∧ located object_type f' o)
      ↔ o ∈ r ∨ ∃ f', f' ∈ f :: fs ∧ p ∈ result_folders !!! f'
                      ∧ located object_type f' o) as Hone.
    { intros p r. unfold located. case_bool_decide as Hp.
      - rewrite elem_of_union. split.
        + intros [[?|?]|(f' & ? & ?)]; [by left | right; exists f |
                                        right; exists f'].
          * split; [left | eauto].
          * split; [by right | done].
        + intros [?|(f' & [->|?]%elem_of_cons & ? & ids' & Hids' & ?)].
          * by left; left.
          * left; right. congruence.
          * right. exists f'. eauto.
      - split.
        + intros [?|(f' & ? & ?)]; [by left | right; exists f'].
          split; [by right | done].
        + intros [?|(f' & [->|?]%elem_of_cons & ? & ?)];
            [by left | done | right; eauto]. }
    repeat split; apply Hone.
Qed.

Lemma collect_loop_spec v c d :
  collect_loop object_type permission_view permission_change
               permission_delete result_folders = Ret (v, c, d) →
  ∀ o,
    (o ∈ v ↔ ∃ f, permission_view ∈ result_folders !!! f
                  ∧ located object_type f o)
    ∧ (o ∈ c ↔ ∃ f, permission_change ∈ result_folders !!! f
                    ∧ located object_type f o)
    ∧ (o ∈ d ↔ ∃ f, permission_delete ∈ result_folders !!! f
                    ∧ located object_type f o).
Proof.
  intros H o. destruct (collect_fold_spec _ _ _ H o) as (Hv & Hc & Hd).
  simpl in *. rewrite Hv, Hc, Hd.
  assert (∀ (p : Permission) f,
            p ∈ result_folders !!! f → f ∈ elements (dom result_folders))
    as Hdom.
  { intros p f Hp. apply elem_of_elements, elem_of_dom.
    rewrite lookup_total_alt in Hp.
    destruct (result_folders !! f); [eauto | by apply elem_of_empty in Hp]. }
  repeat split;
    (intros [?%elem_of_empty|(f & _ & ? & ?)]; [done | eauto]) ||
    (intros (f & ? & ?); right; exists f; eauto).
Qed.

Lemma objects_ids_in_total f :
  supported object_type = true → ∃ ids, objects_ids_in object_type f = Ret ids.
Proof.
  unfold supported, objects_ids_in.
  destruct (has_folder _), (has_risk_assessment _), (has_entity _),
    (has_provider_entity _), (has_parent_folder _); simpl; eauto; done.
Qed.

Lemma collect_loop_total :
  supported object_type = true →
  ∃ res, collect_loop object_type permission_view permission_change
                      permission_delete result_folders = Ret res.
Proof.
  intros Hsup. apply fold_each_total. intros [[rv rc] rd] f _.
  unfold collect_step.
  destruct (objects_ids_in_total f Hsup) as [ids ->]. simpl. eauto.
Qed.
End Collect.

(** ** Accessible objects: the publication overlay *)

Section Overlay.
Context (st : Store) (object_type : ObjectType).

Lemma published_walk_spec fuel o (rv rv' : gset uuid) :
  published_walk st fuel object_type o rv = Ret rv' →
  ∀ x, x ∈ rv' ↔
       x ∈ rv ∨ ∃ f a, o = Some f ∧ on_chain st a f
                       ∧ published_in object_type a x.
Proof.
  revert o rv. induction fuel as [|fuel IH]; intros [f|] rv; simpl;
    try done.
  - intros [= <-] x. split; [auto|]. by intros [?|(? & ? & ? & _)].
  - intros Hwalk x. rewrite (IH _ _ Hwalk x), elem_of_union.
    unfold published_in. split.
    + intros [[?|?]|(p & a & Hp & Hch & ?)]; [by left | |].
      * right. exists f, f. by repeat split; [left|].
      * right. exists f, a. repeat split; [|done]. right.
        apply strict_ancestor_alt. eauto.
    + intros [?|(f' & a & [= <-] & [->|Hch] & ?)];
        [by left; left | by left; right |].
      apply strict_ancestor_alt in Hch as (p & Hp & Hch).
      right. exists p, a. auto.
  - intros [= <-] x. split; [auto|]. by intros [?|(? & ? & ? & _)].
Qed.

Lemma published_walk_total fuel o (rv : gset uuid) :
  o ≫= nth_parent st fuel = None →
  ∃ rv', published_walk st fuel object_type o rv = Ret rv'.
Proof.
  revert o rv. induction fuel as [|fuel IH]; intros [f|] rv H; simpl in *;
    try done; eauto.
Qed.

Lemma overlay_step_spec fuel (rv rv' : gset uuid) my_folder :
  overlay_step st fuel object_type rv my_folder = Ret rv' →
  ∀ x, x ∈ rv' ↔
       x ∈ rv ∨ (content_type_of st my_folder ≠ Some ENCLAVE
                 ∧ ∃ a, strict_ancestor st a my_folder
                        ∧ published_in object_type a x).
Proof.
  unfold overlay_step. case_bool_decide as Hct.
  - intros Hwalk x. rewrite (published_walk_spec _ _ _ _ Hwalk x). split.
    + intros [?|(p & a & Hp & Hch & ?)]; [by left|]. right.
      split; [done|]. exists a. split; [|done].
      apply strict_ancestor_alt. eauto.
    + intros [?|(_ & a & (p & Hp & Hch)%strict_ancestor_alt & ?)];
        [by left|]. right. exists p, a. auto.
  - intros [= <-] x. split; [auto|]. by intros [?|[? _]].
Qed.

Lemma publication_overlay_spec fuel permission_view
    (result_folders : gmap uuid (gset Permission)) (rv rv' : gset uuid) :
  publication_overlay st fuel object_type permission_view result_folders rv
  = Ret rv' →
  ∀ x, x ∈ rv' ↔
       x ∈ rv
       ∨ (has_is_published object_type = true
          ∧ has_folder object_type = true
          ∧ ∃ f a, permission_view ∈ result_folders !!! f
                   ∧ content_type_of st f ≠ Some ENCLAVE
                   ∧ strict_ancestor st a f
                   ∧ published_in object_type a x).
Proof.
  unfold publication_overlay.
  destruct (has_is_published object_type), (has_folder object_type); simpl;
    try (intros [= <-] x; split; [auto|]; by intros [?|(? & ? & _)]).
  intros Hfold x.
  rewrite (fold_each_elem _
             (λ f x, content_type_of st f ≠ Some ENCLAVE
                     ∧ ∃ a, strict_ancestor st a f
                            ∧ published_in object_type a x)
             _ ltac:(intros s f s1 _; apply overlay_step_spec)
             _ _ Hfold x).
  split.
  - intros [?|(f & [Hf _]%list_elem_of_filter & Hct & a & ? & ?)];
      [by left|]. right. repeat split. eauto 8.
  - intros [?|(_ & _ & f & a & Hf & Hct & ? & ?)]; [by left|]. right.
    exists f. split; [|eauto]. apply list_elem_of_filter. split; [done|].
    apply elem_of_elements, elem_of_dom. rewrite lookup_total_alt in Hf.
    destruct (result_folders !! f); [eauto | by apply elem_of_empty in Hf].
Qed.

Lemma publication_overlay_total (Hacyclic : acyclic st) fuel permission_view
    (result_folders : gmap uuid (gset Permission)) (rv : gset uuid) :
  size (Folder_objects st) < fuel →
  ∃ rv', publication_overlay st fuel object_type permission_view
                             result_folders rv = Ret rv'.
Proof.
  intros Hfuel. unfold publication_overlay.
  destruct (_ && _); [|eauto].
  apply fold_each_total. intros s f _. unfold overlay_step.
  case_bool_decide; [|eauto]. apply published_walk_total.
  change (nth_parent st (S fuel) f = None).
  apply chain_ends; [done | lia].
Qed.
End Overlay.

(** ** Accessible objects: the three returned lists *)

Section AccessibleObjects.
Context (st : Store).

Lemma Permission_get_Ret codename p :
  Permission_get st codename = Ret p →
  p = codename ∧ codename ∈ Permission_objects st.
Proof. unfold Permission_get. case_decide; [|done]. by intros [= <-]. Qed.

(** Whatever [get_accessible_object_ids] returns is described by the
    local grants, the objects located in the granting folders and, for
    the view list, the published objects above non-enclave folders. *)
Lemma get_accessible_object_ids_spec fuel folder user object_type v c d :
  get_accessible_object_ids st fuel folder user object_type = Ret (v, c, d) →
  let kind := class_name_lower object_type in
  (∀ o, o ∈ v ↔
        (∃ f, local_grant st folder user ("view_" +:+ kind) f
              ∧ located object_type f o)
        ∨ (has_is_published object_type = true
           ∧ has_folder object_type = true
           ∧ ∃ f a, local_grant st folder user ("view_" +:+ kind) f
                    ∧ content_type_of st f ≠ Some ENCLAVE
                    ∧ strict_ancestor st a f
                    ∧ published_in object_type a o))
  ∧ (∀ o, o ∈ c ↔ ∃ f, local_grant st folder user ("change_" +:+ kind) f
                       ∧ located object_type f o)
  ∧ (∀ o, o ∈ d ↔ ∃ f, local_grant st folder user ("delete_" +:+ kind) f
                       ∧ located object_type f o).
Proof.
  intros H kind. unfold get_accessible_object_ids in H. fold kind in H.
  apply bind_Ret_inv in H as (pv & [-> _]%Permission_get_Ret & H).
  apply bind_Ret_inv in H as (pc & [-> _]%Permission_get_Ret & H).
  apply bind_Ret_inv in H as (pd & [-> _]%Permission_get_Ret & H).
  apply bind_Ret_inv in H as (vf & [-> _]%Permission_get_Ret & H).
  apply bind_Ret_inv in H as (subs & Hsubs & H).
  apply bind_Ret_inv in H as (rf & Hrf & H).
  apply bind_Ret_inv in H as ([[rv rc] rd] & Hcollect & H).
  apply bind_Ret_inv in H as (rv' & Hoverlay & [= <- <- <-]).
  assert (∀ p f, p ∈ [("view_" +:+ kind); ("change_" +:+ kind);
                      ("delete_" +:+ kind)] →
                 p ∈ rf !!! f ↔ local_grant st folder user p f) as Hgrant.
  { intros p f Hp. unfold grant_loop in Hrf.
    rewrite (grant_fold_spec _ _ _ _ _ _ _ Hrf f p).
    rewrite lookup_total_empty. unfold local_grant. split.
    - intros [?%elem_of_empty|(ra & Hra & _ & Hperm & Hscope & Hexp)];
        [done|].
      apply list_elem_of_filter in Hra as [Hview Hra].
      apply elem_of_get_role_assignments in Hra.
      exists ra. repeat split; try done.
      apply elem_of_union in Hscope as [->%elem_of_singleton|Hsub].
      + by left.
      + right. eapply get_sub_folders_spec; [exact Hsubs|].
        by apply elem_of_list_to_set in Hsub.
    - intros (ra & Hra & Hview & Hperm & Hscope & Hexp). right.
      exists ra. repeat split; try done.
      + apply list_elem_of_filter. split; [done|].
        by apply elem_of_get_role_assignments.
      + by apply elem_of_list_to_set.
      + apply elem_of_union. destruct Hscope as [->|Hdesc].
        * left. by apply elem_of_singleton.
        * right. apply elem_of_list_to_set.
          by eapply get_sub_folders_spec. }
  pose proof (collect_loop_spec _ _ _ _ _ _ _ _ Hcollect) as Hcol.
  pose proof (publication_overlay_spec _ _ _ _ _ _ _ Hoverlay) as Hov.
  repeat split.
  - rewrite elem_of_elements, Hov. destruct (Hcol o) as (-> & _ & _).
    intros [(f & Hf & ?)|(? & ? & f & a & Hf & ?)].
    + left. exists f. split; [|done]. apply Hgrant; [|done]. left.
    + right. repeat split; try done. exists f, a. split; [|done].
      apply Hgrant; [|done]. left.
  - rewrite elem_of_elements, Hov. destruct (Hcol o) as (-> & _ & _).
    intros [(f & Hf & ?)|(? & ? & f & a & Hf & ?)].
    + left. exists f. split; [|done]. apply Hgrant; [|done]. left.
    + right. repeat split; try done. exists f, a. split; [|done].
      apply Hgrant; [|done]. left.
  - rewrite elem_of_elements. destruct (Hcol o) as (_ & -> & _).
    intros (f & Hf & ?). exists f. split; [|done].
    apply Hgrant; [|done]. right; left.
  - rewrite elem_of_elements. destruct (Hcol o) as (_ & -> & _).
    intros (f & Hf & ?). exists f. split; [|done].
    apply Hgrant; [|done]. right; left.
  - rewrite elem_of_elements. destruct (Hcol o) as (_ & _ & ->).
    intros (f & Hf & ?). exists f. split; [|done].
    apply Hgrant; [|done]. right; right; left.
  - rewrite elem_of_elements. destruct (Hcol o) as (_ & _ & ->).
    intros (f & Hf & ?). exists f. split; [|done].
    apply Hgrant; [|done]. right; right; left.
Qed.

(** Under the tree invariant, with the four tokens in the catalog and a
    supported kind, the enumeration returns. *)
Lemma get_accessible_object_ids_total (Hacyclic : acyclic st) fuel folder
    user object_type :
  size (Folder_objects st) < fuel →
  "view_folder" ∈ Permission_objects st →
  "view_" +:+ class_name_lower object_type ∈ Permission_objects st →
  "change_" +:+ class_name_lower object_type ∈ Permission_objects st →
  "delete_" +:+ class_name_lower object_type ∈ Permission_objects st →
  supported object_type = true →
  ∃ v c d,
    get_accessible_object_ids st fuel folder user object_type = Ret (v, c, d).
Proof.
  intros Hfuel Hvf Hv Hc Hd Hsup.
  unfold get_accessible_object_ids, Permission_get.
  rewrite !decide_True by done. simpl.
  destruct (get_sub_folders_total st Hacyclic fuel folder Hfuel)
    as [subs ->]. simpl.
  match goal with |- context [grant_loop st fuel ?p ?ps ?ras] =>
    destruct (grant_loop_total st Hacyclic fuel p ps ras Hfuel) as [rf ->]
  end. simpl.
  match goal with |- context [collect_loop ?ot ?pv ?pc ?pd rf] =>
    destruct (collect_loop_total ot pv pc pd rf Hsup) as [[[rv rc] rd] ->]
  end. simpl.
  match goal with |- context [publication_overlay st fuel ?ot ?pv rf rv] =>
    destruct (publication_overlay_total st ot Hacyclic fuel pv rf rv Hfuel)
      as [rv' ->]
  end. simpl. eauto.
Qed.
End AccessibleObjects.

(** ** Where an object is located *)

Section Located.
Context (object_type : ObjectType).

Lemma elem_of_ids_where cond o :
  o ∈ ids_where object_type cond ↔
  ∃ r, objects object_type !! o = Some r ∧ cond r = true.
Proof.
  unfold ids_where. rewrite elem_of_dom. unfold is_Some.
  setoid_rewrite map_lookup_filter_Some. simpl. naive_solver.
Qed.

Lemma in_folder_true f o : in_folder f o = true ↔ o = Some f.
Proof. unfold in_folder. apply bool_decide_eq_true. Qed.


End Located.

(** ** Recursion and the bulk enumeration *)





(** ** The publication overlay *)

(** C3: for a kind with a publication flag and a direct folder, every
    published object of an ancestor of a folder that locally grants view
    and is not an enclave is in the view list; every member of the view
    list is either located in a folder that locally grants view or is such
    a published object, so an enclave adds none (its step of the overlay
    leaves the view set as it is); the change and delete lists hold the
    objects located in the folders that locally grant change and delete,
    and nothing else. With fuel above the number of folders the
    enumeration returns. *)
Theorem publication_overlay_view_only (st : Store) (folder : uuid)
    (user : Principal) (object_type : ObjectType) :
  has_is_published object_type = true →
  has_folder object_type = true →
  let kind := class_name_lower object_type in
  (∀ fuel v c d,
     get_accessible_object_ids st fuel folder user object_type
     = Ret (v, c, d) →
     (∀ f a o,
        local_grant st folder user ("view_" +:+ kind) f →
        content_type_of st f ≠ Some ENCLAVE →
        strict_ancestor st a f →
        published_in object_type a o →
        o ∈ v)
     ∧ (∀ o, o ∈ v →
             (∃ f, local_grant st folder user ("view_" +:+ kind) f
                   ∧ located object_type f o)
             ∨ (∃ f a, local_grant st folder user ("view_" +:+ kind) f
                       ∧ content_type_of st f ≠ Some ENCLAVE
                       ∧ strict_ancestor st a f
                       ∧ published_in object_type a o))
     ∧ (∀ o, o ∈ c ↔ ∃ f, local_grant st folder user ("change_" +:+ kind) f
                          ∧ located object_type f o)
     ∧ (∀ o, o ∈ d ↔ ∃ f, local_grant st folder user ("delete_" +:+ kind) f
                          ∧ located object_type f o))
  ∧ (∀ fuel f result_view,
       content_type_of st f = Some ENCLAVE →
       overlay_step st fuel object_type result_view f = Ret result_view)
  ∧ (∀ fuel,
       acyclic st →
       size (Folder_objects st) < fuel →
       "view_folder" ∈ Permission_objects st →
       "view_" +:+ kind ∈ Permission_objects st →
       "change_" +:+ kind ∈ Permission_objects st →
       "delete_" +:+ kind ∈ Permission_objects st →
       ∃ v c d, get_accessible_object_ids st fuel folder user object_type
                = Ret (v, c, d)).
Proof.
  intros Hpub Hfol kind. split; [|split].
  - intros fuel v c d Hres.
    apply get_accessible_object_ids_spec in Hres as (Hv & Hc & Hd).
    fold kind in Hv, Hc, Hd. repeat split; try (by apply Hc || by apply Hd).
    + intros f a o Hf Hct Ha Ho. apply Hv. right. eauto 10.
    + intros o [?|(_ & _ & ?)]%Hv; [by left | by right].
  - intros fuel f rv Hct. unfold overlay_step.
    rewrite bool_decide_eq_false_2; [done|]. by intros [].
  - intros fuel Hacyclic Hfuel Hvf Hv Hc Hd.
    apply get_accessible_object_ids_total; try done.
    unfold supported. by rewrite Hfol.
Qed.

Lemma publication_overlay_view_only_witness :
  (∀ fuel v c d,
     get_accessible_object_ids Sample.store fuel 1%N (IsUser 7%N)
                               SampleKind.asset = Ret (v, c, d) →
     (∀ f a o,
        local_grant Sample.store 1%N (IsUser 7%N) ("view_" +:+ "asset") f →
        content_type_of Sample.store f ≠ Some ENCLAVE →
        strict_ancestor Sample.store a f →
        published_in SampleKind.asset a o →
        o ∈ v)
     ∧ (∀ o, o ∈ v →
             (∃ f, local_grant Sample.store 1%N (IsUser 7%N)
                               ("view_" +:+ "asset") f
                   ∧ located SampleKind.asset f o)
             ∨ (∃ f a, local_grant Sample.store 1%N (IsUser 7%N)
                                   ("view_" +:+ "asset") f
                       ∧ content_type_of Sample.store f ≠ Some ENCLAVE
                       ∧ strict_ancestor Sample.store a f
                       ∧ published_in SampleKind.asset a o))
     ∧ (∀ o, o ∈ c ↔ ∃ f, local_grant Sample.store 1%N (IsUser 7%N)
                                      ("change_" +:+ "asset") f
                          ∧ located SampleKind.asset f o)
     ∧ (∀ o, o ∈ d ↔ ∃ f, local_grant Sample.store 1%N (IsUser 7%N)
                                      ("delete_" +:+ "asset") f
                          ∧ located SampleKind.asset f o))
  ∧ (∀ fuel f result_view,
       content_type_of Sample.store f = Some ENCLAVE →
       overlay_step Sample.store fuel SampleKind.asset result_view f
       = Ret result_view)
  ∧ (∀ fuel,
       acyclic Sample.store →
       size (Folder_objects Sample.store) < fuel →
       "view_folder" ∈ Permission_objects Sample.store →
       "view_" +:+ "asset" ∈ Permission_objects Sample.store →
       "change_" +:+ "asset" ∈ Permission_objects Sample.store →
       "delete_" +:+ "asset" ∈ Permission_objects Sample.store →
       ∃ v c d, get_accessible_object_ids Sample.store fuel 1%N (IsUser 7%N)
                  SampleKind.asset = Ret (v, c, d)).
Proof.
  apply (publication_overlay_view_only Sample.store 1%N (IsUser 7%N)
           SampleKind.asset); reflexivity.
Defined.

(** ** Saving in the root folder *)

Lemma save_objects (st : Store) (object_type : ObjectType) id self ot' :
  save st object_type id self = Ret ot' →
  class_name_lower ot' = class_name_lower object_type
  ∧ has_folder ot' = has_folder object_type
  ∧ has_is_published ot' = has_is_published object_type
  ∧ ∃ r, objects ot' !! id = Some r
         ∧ folder r = folder self
         ∧ (is_published r = true ↔
            is_published self = true
            ∨ (folder self = get_root_folder st
               ∧ has_is_published object_type = true)).
Proof.
  unfold save. destruct (has_folder object_type) eqn:Hf; [|done].
  destruct (folder self) as [f|] eqn:Hself; [|done]. simpl.
  intros [= <-]. simpl. repeat split; try done.
  eexists. rewrite lookup_insert_eq. split; [done|].
  case_bool_decide as Hroot; simpl;
    destruct (has_is_published object_type), (is_published self) eqn:Hp;
    simpl; rewrite ?Hp; split; try done; intuition congruence.
Qed.

(** C8: saving, through the mixin, an object of a publishable kind whose
    folder is the root folder writes it with [is_published] true; after
    the save, the object is in the view list of every enumeration for
    which a folder below the root, not an enclave, locally grants view;
    and on a tree of folders, with the tokens in the catalog, that
    enumeration does return. *)
Theorem root_objects_are_published (st : Store) (object_type : ObjectType)
    (id : uuid) (self : ObjectRow) (root : uuid) :
  has_folder object_type = true →
  has_is_published object_type = true →
  get_root_folder st = Some root →
  folder self = Some root →
  ∃ ot',
    save st object_type id self = Ret ot'
    ∧ (∃ r, objects ot' !! id = Some r
            ∧ folder r = Some root ∧ is_published r = true)
    ∧ (∀ fuel folder user v c d f,
         get_accessible_object_ids st fuel folder user ot' = Ret (v, c, d) →
         local_grant st folder user
                     ("view_" +:+ class_name_lower object_type) f →
         content_type_of st f ≠ Some ENCLAVE →
         strict_ancestor st root f →
         id ∈ v)
    ∧ ∀ fuel folder user,
        acyclic st →
        size (Folder_objects st) < fuel →
        "view_folder" ∈ Permission_objects st →
        "view_" +:+ class_name_lower object_type ∈ Permission_objects st →
        "change_" +:+ class_name_lower object_type ∈ Permission_objects st →
        "delete_" +:+ class_name_lower object_type ∈ Permission_objects st →
        ∃ v c d,
          get_accessible_object_ids st fuel folder user ot' = Ret (v, c, d)
          ∧ ((∃ f, local_grant st folder user
                     ("view_" +:+ class_name_lower object_type) f
                   ∧ content_type_of st f ≠ Some ENCLAVE
                   ∧ strict_ancestor st root f) →
             id ∈ v).
Proof.
  intros Hfol Hpub Hroot Hself.
  destruct (save st object_type id self) as [ot'| |] eqn:Hsave;
    [|unfold save in Hsave; rewrite Hfol, Hself in Hsave; done..].
  exists ot'. split; [done|].
  apply save_objects in Hsave as (Hname & Hfol' & Hpub' & r & Hr & Hrf & Hrp).
  assert (is_published r = true) as Hp.
  { apply Hrp. right. split; congruence. }
  split; [exists r; repeat split; congruence|].
  assert (∀ fuel folder user v c d f,
            get_accessible_object_ids st fuel folder user ot' = Ret (v, c, d) →
            local_grant st folder user
                        ("view_" +:+ class_name_lower object_type) f →
            content_type_of st f ≠ Some ENCLAVE →
            strict_ancestor st root f →
            id ∈ v) as Hvisible.
  { intros fuel folder user v c d f Hres Hgrant Hct Hbelow.
    apply get_accessible_object_ids_spec in Hres as (Hv & _ & _).
    apply Hv. right. rewrite Hname. repeat split; [congruence..|].
    exists f, root. repeat split; try done.
    apply elem_of_ids_where. exists r. split; [done|].
    apply andb_true_iff. split; [|done]. apply in_folder_true. congruence. }
  split; [exact Hvisible|].
  intros fuel folder user Hacyclic Hfuel Hvf Hv Hc Hd.
  destruct (get_accessible_object_ids_total st Hacyclic fuel folder user ot')
    as (v & c & d & Hres); [done | done | by rewrite Hname..| |].
  { unfold supported. by rewrite Hfol', Hfol. }
  exists v, c, d. split; [done|].
  intros (f & Hgrant & Hct & Hbelow). by eapply Hvisible.
Qed.

Lemma root_objects_are_published_witness :
  ∃ ot',
    save Sample.store SampleKind.asset 204%N
         (mkObjectRow (Some 1%N) None None None false) = Ret ot'
    ∧ (∃ r, objects ot' !! 204%N = Some r
            ∧ folder r = Some 1%N ∧ is_published r = true)
    ∧ (∀ fuel folder user v c d f,
         get_accessible_object_ids Sample.store fuel folder user ot'
         = Ret (v, c, d) →
         local_grant Sample.store folder user
                     ("view_" +:+ class_name_lower SampleKind.asset) f →
         content_type_of Sample.store f ≠ Some ENCLAVE →
         strict_ancestor Sample.store 1%N f →
         204%N ∈ v)
    ∧ ∀ fuel folder user,
        acyclic Sample.store →
        size (Folder_objects Sample.store) < fuel →
        "view_folder" ∈ Permission_objects Sample.store →
        "view_" +:+ class_name_lower SampleKind.asset
          ∈ Permission_objects Sample.store →
        "change_" +:+ class_name_lower SampleKind.asset
          ∈ Permission_objects Sample.store →
        "delete_" +:+ class_name_lower SampleKind.asset
          ∈ Permission_objects Sample.store →
        ∃ v c d,
          get_accessible_object_ids Sample.store fuel folder user ot'
          = Ret (v, c, d)
          ∧ ((∃ f, local_grant Sample.store folder user
                     ("view_" +:+ class_name_lower SampleKind.asset) f
                   ∧ content_type_of Sample.store f ≠ Some ENCLAVE
                   ∧ strict_ancestor Sample.store 1%N f) →
             204%N ∈ v).
Proof.
  apply (root_objects_are_published Sample.store SampleKind.asset 204%N
           (mkObjectRow (Some 1%N) None None None false) 1%N).
  - reflexivity.
  - reflexivity.
  - vm_compute. reflexivity.
  - reflexivity.
Defined.

(** ** Provisioning a domain *)

Lemma fresh_lookup_None {A} (m : gmap uuid A) : m !! fresh (dom m) = None.
Proof. apply not_elem_of_dom, is_fresh. Qed.

Lemma cmd_bind_Ret {A B} (m : cmd A) (k : A → cmd B) st st' a :
  m st = (st', Ret a) → (m ≫= k) st = k a st'.
Proof. unfold mbind, cmd_bind. by intros ->. Qed.

Lemma UserGroup_objects_create_eq name folder builtin st :
  UserGroup_objects_create name folder builtin st
  = (set_UserGroup_objects
       (<[fresh (dom (UserGroup_objects st))
          := mkUserGroup name folder builtin]> (UserGroup_objects st)) st,
     Ret (fresh (dom (UserGroup_objects st)))).
Proof. done. Qed.

Lemma create_builtin_ra_eq (RoleCodename : Codename → string) c group folder
    st r root :
  Role_get (Role_objects st) (RoleCodename c) = Ret r →
  get_root_folder st = Some root →
  create_builtin_ra RoleCodename c group folder st
  = (set_RoleAssignment_objects
       (<[fresh (dom (RoleAssignment_objects st))
          := builtin_assignment group r root folder]>
          (RoleAssignment_objects st)) st,
     Ret ()).
Proof.
  intros Hr Hroot. unfold create_builtin_ra.
  erewrite cmd_bind_Ret; [|unfold Role_objects_get; by rewrite Hr].
  erewrite cmd_bind_Ret; [|unfold read; by rewrite Hroot].
  erewrite cmd_bind_Ret; [|done].
  unfold perimeter_folders_add, set_RoleAssignment_objects. simpl.
  rewrite alter_insert_eq. simpl. rewrite union_empty_r_L. done.
Qed.

(** C7, as the code has it: on a folder that is not a domain the
    provisioner changes nothing; on a domain, when the root folder is
    unique and each of the four builtin roles is found, it adds exactly
    four builtin groups of the folder (Reader, Approver, Analyst,
    Domain-Manager) under four new keys and exactly four builtin
    assignments under four new keys, each binding one group to the role of
    the same codename, with perimeter [{folder}] and [is_recursive] true,
    and changes nothing else. *)
Theorem create_default_ug_and_ra_effect
    (UserGroupCodename RoleCodename : Codename → string)
    (folder : instance Folder) (st : Store) :
  (content_type folder.2 ≠ DOMAIN →
   create_default_ug_and_ra UserGroupCodename RoleCodename folder st
   = (st, Ret ()))
  ∧ (∀ root r1 r2 r3 r4,
       content_type folder.2 = DOMAIN →
       get_root_folder st = Some root →
       Role_get (Role_objects st) (RoleCodename READER) = Ret r1 →
       Role_get (Role_objects st) (RoleCodename APPROVER) = Ret r2 →
       Role_get (Role_objects st) (RoleCodename ANALYST) = Ret r3 →
       Role_get (Role_objects st) (RoleCodename DOMAIN_MANAGER) = Ret r4 →
       ∃ g1 g2 g3 g4 a1 a2 a3 a4,
         NoDup [g1; g2; g3; g4]
         ∧ NoDup [a1; a2; a3; a4]
         ∧ (∀ g, g ∈ [g1; g2; g3; g4] → UserGroup_objects st !! g = None)
         ∧ (∀ a, a ∈ [a1; a2; a3; a4] →
                 RoleAssignment_objects st !! a = None)
         ∧ create_default_ug_and_ra UserGroupCodename RoleCodename folder st
           = (mkStore
                (Folder_objects st) (Permission_objects st) (Role_objects st)
                (<[g4 := builtin_group UserGroupCodename DOMAIN_MANAGER folder.1]>
                   (<[g3 := builtin_group UserGroupCodename ANALYST folder.1]>
                      (<[g2 := builtin_group UserGroupCodename APPROVER folder.1]>
                         (<[g1 := builtin_group UserGroupCodename READER folder.1]>
                            (UserGroup_objects st)))))
                (User_user_groups st)
                (<[a4 := builtin_assignment g4 r4 root folder.1]>
                   (<[a3 := builtin_assignment g3 r3 root folder.1]>
                      (<[a2 := builtin_assignment g2 r2 root folder.1]>
                         (<[a1 := builtin_assignment g1 r1 root folder.1]>
                            (RoleAssignment_objects st))))),
              Ret ())).
Proof.
  split.
  - intros Hct. unfold create_default_ug_and_ra. by rewrite decide_False.
  - intros root r1 r2 r3 r4 Hct Hroot H1 H2 H3 H4.
    set (ug0 := UserGroup_objects st).
    set (g1 := fresh (dom ug0)).
    set (ug1 := <[g1 := builtin_group UserGroupCodename READER folder.1]> ug0).
    set (g2 := fresh (dom ug1)).
    set (ug2 := <[g2 := builtin_group UserGroupCodename APPROVER folder.1]> ug1).
    set (g3 := fresh (dom ug2)).
    set (ug3 := <[g3 := builtin_group UserGroupCodename ANALYST folder.1]> ug2).
    set (g4 := fresh (dom ug3)).
    set (ra0 := RoleAssignment_objects st).
    set (a1 := fresh (dom ra0)).
    set (ra1 := <[a1 := builtin_assignment g1 r1 root folder.1]> ra0).
    set (a2 := fresh (dom ra1)).
    set (ra2 := <[a2 := builtin_assignment g2 r2 root folder.1]> ra1).
    set (a3 := fresh (dom ra2)).
    set (ra3 := <[a3 := builtin_assignment g3 r3 root folder.1]> ra2).
    set (a4 := fresh (dom ra3)).
    exists g1, g2, g3, g4, a1, a2, a3, a4.
    pose proof (fresh_lookup_None ug0) as Hg1.
    pose proof (fresh_lookup_None ug1) as Hg2.
    pose proof (fresh_lookup_None ug2) as Hg3.
    pose proof (fresh_lookup_None ug3) as Hg4.
    pose proof (fresh_lookup_None ra0) as Ha1.
    pose proof (fresh_lookup_None ra1) as Ha2.
    pose proof (fresh_lookup_None ra2) as Ha3.
    pose proof (fresh_lookup_None ra3) as Ha4.
    fold g1 in Hg1. fold g2 in Hg2. fold g3 in Hg3. fold g4 in Hg4.
    fold a1 in Ha1. fold a2 in Ha2. fold a3 in Ha3. fold a4 in Ha4.
    split; [|split; [|split; [|split]]].
    + unfold ug3, ug2, ug1 in Hg2, Hg3, Hg4.
      repeat match goal with
             | H : <[_ := _]> _ !! _ = None |- _ =>
                 apply lookup_insert_None in H as [H ?]
             end.
      repeat (apply NoDup_cons; split;
              [rewrite ?elem_of_cons, elem_of_nil; intuition congruence|]).
      apply NoDup_nil_2.
    + unfold ra3, ra2, ra1 in Ha2, Ha3, Ha4.
      repeat match goal with
             | H : <[_ := _]> _ !! _ = None |- _ =>
                 apply lookup_insert_None in H as [H ?]
             end.
      repeat (apply NoDup_cons; split;
              [rewrite ?elem_of_cons, elem_of_nil; intuition congruence|]).
      apply NoDup_nil_2.
    + unfold ug3, ug2, ug1 in Hg2, Hg3, Hg4.
      repeat match goal with
             | H : <[_ := _]> _ !! _ = None |- _ =>
                 apply lookup_insert_None in H as [H ?]
             end.
      intros g. rewrite !elem_of_cons, elem_of_nil. intuition congruence.
    + unfold ra3, ra2, ra1 in Ha2, Ha3, Ha4.
      repeat match goal with
             | H : <[_ := _]> _ !! _ = None |- _ =>
                 apply lookup_insert_None in H as [H ?]
             end.
      intros a. rewrite !elem_of_cons, elem_of_nil. intuition congruence.
    + unfold create_default_ug_and_ra. rewrite decide_True by done.
      do 4 (erewrite cmd_bind_Ret; [|apply UserGroup_objects_create_eq]).
      fold ug0 g1. fold (builtin_group UserGroupCodename READER folder.1).
      fold ug1 g2. fold (builtin_group UserGroupCodename APPROVER folder.1).
      fold ug2 g3. fold (builtin_group UserGroupCodename ANALYST folder.1).
      fold ug3 g4.
      fold (builtin_group UserGroupCodename DOMAIN_MANAGER folder.1).
      erewrite cmd_bind_Ret; [|by apply create_builtin_ra_eq].
      erewrite cmd_bind_Ret; [|by apply create_builtin_ra_eq].
      erewrite cmd_bind_Ret; [|by apply create_builtin_ra_eq].
      erewrite create_builtin_ra_eq by done.
      reflexivity.
Qed.

Lemma create_default_ug_and_ra_effect_witness :
  ∃ g1 g2 g3 g4 a1 a2 a3 a4,
    NoDup [g1; g2; g3; g4]
    ∧ NoDup [a1; a2; a3; a4]
    ∧ (∀ g, g ∈ [g1; g2; g3; g4] →
            UserGroup_objects SampleCodenames.full_store !! g = None)
    ∧ (∀ a, a ∈ [a1; a2; a3; a4] →
            RoleAssignment_objects SampleCodenames.full_store !! a = None)
    ∧ create_default_ug_and_ra SampleCodenames.UserGroupCodename
        SampleCodenames.RoleCodename SampleCodenames.new_domain
        SampleCodenames.full_store
      = (mkStore
           (Folder_objects SampleCodenames.full_store)
           (Permission_objects SampleCodenames.full_store)
           (Role_objects SampleCodenames.full_store)
           (<[g4 := builtin_group SampleCodenames.UserGroupCodename
                      DOMAIN_MANAGER 5%N]>
              (<[g3 := builtin_group SampleCodenames.UserGroupCodename
                         ANALYST 5%N]>
                 (<[g2 := builtin_group SampleCodenames.UserGroupCodename
                            APPROVER 5%N]>
                    (<[g1 := builtin_group SampleCodenames.UserGroupCodename
                               READER 5%N]>
                       (UserGroup_objects SampleCodenames.full_store)))))
           (User_user_groups SampleCodenames.full_store)
           (<[a4 := builtin_assignment g4 SampleCodenames.domain_manager
                      1%N 5%N]>
              (<[a3 := builtin_assignment g3 Sample.analyst 1%N 5%N]>
                 (<[a2 := builtin_assignment g2 SampleCodenames.approver
                            1%N 5%N]>
                    (<[a1 := builtin_assignment g1 Sample.reader 1%N 5%N]>
                       (RoleAssignment_objects SampleCodenames.full_store))))),
         Ret ()).
Proof.
  apply (proj2 (create_default_ug_and_ra_effect
                  SampleCodenames.UserGroupCodename
                  SampleCodenames.RoleCodename SampleCodenames.new_domain
                  SampleCodenames.full_store)
               1%N Sample.reader SampleCodenames.approver Sample.analyst
               SampleCodenames.domain_manager);
    vm_compute; reflexivity.
Defined.

(** C7, the part the code does not keep: with the reader role present and
    the approver role missing, the provisioner raises after it has written
    four groups and one assignment, and they are in the store it leaves. *)
Lemma provisioning_leaves_partial_artifacts :
  (∃ st',
     create_default_ug_and_ra SampleCodenames.UserGroupCodename
       SampleCodenames.RoleCodename SampleCodenames.new_domain Sample.store
     = (st', Raise DoesNotExist)
     ∧ size (UserGroup_objects st')
       = size (UserGroup_objects Sample.store) + 4
     ∧ size (RoleAssignment_objects st')
       = size (RoleAssignment_objects Sample.store) + 1)
  ∧ ¬ all_or_nothing SampleCodenames.UserGroupCodename
                     SampleCodenames.RoleCodename.
Proof.
  set (res := create_default_ug_and_ra SampleCodenames.UserGroupCodename
                SampleCodenames.RoleCodename SampleCodenames.new_domain
                Sample.store).
  assert (res.2 = Raise DoesNotExist
          ∧ size (UserGroup_objects res.1)
            = size (UserGroup_objects Sample.store) + 4
          ∧ size (RoleAssignment_objects res.1)
            = size (RoleAssignment_objects Sample.store) + 1)
    as (Hout & Hug & Hra) by (vm_compute; done).
  assert (res = (res.1, Raise DoesNotExist)) as Hres.
  { rewrite <-Hout. by destruct res. }
  split.
  - exists res.1. done.
  - intros Hatomic. apply Hatomic in Hres. rewrite Hres in Hug. lia.
Qed.

(** * Further properties of the module *)

(** ** The root folder *)

Section RootFolder.
Context (st : Store).

Lemma ROOT_rows_NoDup :
  NoDup (filter (λ kv : N * Folder, content_type kv.2 = ROOT)
                (map_to_list (Folder_objects st))).
Proof. apply NoDup_filter, NoDup_map_to_list. Qed.

Lemma elem_of_ROOT_rows k row :
  (k, row) ∈ filter (λ kv : N * Folder, content_type kv.2 = ROOT)
                    (map_to_list (Folder_objects st))
  ↔ Folder_objects st !! k = Some row ∧ content_type row = ROOT.
Proof. rewrite list_elem_of_filter, elem_of_map_to_list. simpl. tauto. Qed.

Lemma content_type_of_ROOT k :
  content_type_of st k = Some ROOT ↔
  ∃ row, Folder_objects st !! k = Some row ∧ content_type row = ROOT.
Proof.
  unfold content_type_of. destruct (Folder_objects st !! k) as [row|]; simpl.
  - split; [intros [= ?]; eauto | intros (? & [= <-] & ->); done].
  - split; [done | by intros (? & ? & _)].
Qed.

(** X1: [get_root_folder] answers a folder exactly when that folder is the
    one and only folder of content type ROOT; with no such folder, or with
    several, it answers [None]. *)
Theorem get_root_folder_unique (r : uuid) :
  get_root_folder st = Some r ↔
  content_type_of st r = Some ROOT
  ∧ ∀ r', content_type_of st r' = Some ROOT → r' = r.
Proof.
  unfold get_root_folder.
  pose proof ROOT_rows_NoDup as Hnodup.
  pose proof elem_of_ROOT_rows as Hin.
  destruct (filter _ (map_to_list (Folder_objects st))) as [|[k row] rest].
  - split; [done|]. intros [(row & Hrow & Hct)%content_type_of_ROOT _].
    exfalso. eapply not_elem_of_nil, Hin. eauto.
  - destruct rest as [|[k' row'] rest].
    + simpl. split.
      * intros [= <-]. destruct (Hin k row) as [[Hrow Hct] _]; [left|].
        split; [apply content_type_of_ROOT; eauto|].
        intros r' (row' & Hrow' & Hct')%content_type_of_ROOT.
        assert ((r', row') ∈ [(k, row)]) as Hmem by (apply Hin; auto).
        apply list_elem_of_singleton in Hmem. congruence.
      * intros [(row0 & Hrow0 & Hct0)%content_type_of_ROOT Huniq].
        destruct (Hin k row) as [[Hrow Hct] _]; [left|].
        f_equal. apply Huniq, content_type_of_ROOT. eauto.
    + split; [done|]. intros [_ Huniq]. exfalso.
      destruct (Hin k row) as [[Hrow Hct] _]; [left|].
      destruct (Hin k' row') as [[Hrow' Hct'] _]; [right; left|].
      assert (k = r) as -> by (apply Huniq, content_type_of_ROOT; eauto).
      assert (k' = r) as -> by (apply Huniq, content_type_of_ROOT; eauto).
      assert (row' = row) as -> by congruence.
      apply NoDup_cons in Hnodup as [Hnotin _]. apply Hnotin. left.
Qed.
End RootFolder.

(** ** Ancestors and paths *)

Section Paths.
Context (st : Store).

Lemma get_parent_folders_lookup fuel f l i :
  get_parent_folders st fuel f = Ret l → l !! i = nth_parent st (S i) f.
Proof.
  revert f l i. induction fuel as [|fuel IH]; intros f l i; simpl.
  - destruct (parent_of st f) as [p|] eqn:E; [done|]. by intros [= <-].
  - destruct (parent_of st f) as [p|] eqn:E; [|by intros [= <-]].
    intros (rest & Hrest & [= <-])%bind_Ret_inv. simpl.
    destruct i as [|i]; simpl; [done|]. by rewrite (IH _ _ i Hrest).
Qed.

(** The folder followed by its ancestors, indexed by distance. *)
Lemma chain_lookup fuel f l :
  get_parent_folders st fuel f = Ret l →
  ∀ i, (f :: l) !! i = nth_parent st i f.
Proof.
  intros Hl i. destruct i as [|i]; [done|]. simpl.
  by eapply get_parent_folders_lookup.
Qed.

Lemma chain_NoDup (Hacyclic : acyclic st) fuel f l :
  get_parent_folders st fuel f = Ret l → NoDup (f :: l).
Proof.
  intros Hl. apply NoDup_alt. intros i j x Hi Hj.
  rewrite (chain_lookup _ _ _ Hl) in Hi, Hj.
  assert (∀ a b, a < b → nth_parent st a f = Some x →
                 nth_parent st b f = Some x → False) as Hcycle.
  { intros a b Hab Ha Hb. apply (Hacyclic x). exists (b - a - 1).
    replace b with (a + S (b - a - 1)) in Hb by lia.
    by rewrite nth_parent_add, Ha in Hb. }
  destruct (decide (i = j)) as [|Hne]; [done|]. exfalso.
  destruct (decide (i < j)); [eapply (Hcycle i j) | eapply (Hcycle j i)];
    eauto with lia.
Qed.

Lemma full_path_unfold fuel f include_root l :
  get_folder_full_path st fuel f include_root = Ret l →
  ∃ parents,
    get_parent_folders st fuel f = Ret parents
    ∧ l = if include_root then reverse (f :: parents)
          else if decide (1 < length (reverse (f :: parents)))
               then drop 1 (reverse (f :: parents))
               else reverse (f :: parents).
Proof.
  unfold get_folder_full_path.
  intros (parents & Hp & Hl)%bind_Ret_inv. exists parents. split; [done|].
  destruct include_root; by injection Hl as <-.
Qed.

(** X2: the full path with the root. It ends in the folder, starts at a
    folder without parent, every folder of it is the parent of the next,
    no folder occurs twice, and its members are the folder and its
    ancestors; with fuel above the number of folders it is returned. (The
    mixin's method is the same path, taken from the object's folder.) *)
Theorem full_path_with_root (fuel : nat) (f : uuid) :
  acyclic st →
  (∀ l, get_folder_full_path st fuel f true = Ret l →
        last l = Some f
        ∧ (∃ top, head l = Some top ∧ parent_of st top = None)
        ∧ (∀ i x y, l !! i = Some x → l !! S i = Some y →
                    parent_of st y = Some x)
        ∧ NoDup l
        ∧ ∀ x, x ∈ l ↔ on_chain st x f)
  ∧ (size (Folder_objects st) < fuel →
     ∃ l, get_folder_full_path st fuel f true = Ret l)
  ∧ FolderMixin.get_folder_full_path st fuel f true
    = get_folder_full_path st fuel f true.
Proof.
  intros Hacyclic. split; [|split; [|done]].
  - intros l (parents & Hp & ->)%full_path_unfold.
    pose proof (chain_lookup _ _ _ Hp) as Hchain.
    assert (length (f :: parents) = S (length parents)) as Hlen by done.
    split; [by rewrite last_reverse|]. split; [|split; [|split]].
    + rewrite head_reverse, last_lookup, Hchain, Hlen. simpl.
      destruct (nth_parent st (length parents) f) as [top|] eqn:Etop.
      * exists top. split; [done|].
        pose proof (Hchain (S (length parents))) as Hend.
        rewrite nth_parent_S_r, Etop in Hend. simpl in Hend.
        rewrite <-Hend. apply lookup_ge_None_2. simpl. lia.
      * exfalso. rewrite <-Hchain in Etop.
        apply lookup_ge_None_1 in Etop. simpl in Etop. lia.
    + intros i x y Hx Hy.
      apply reverse_lookup_Some in Hx as [Hx Hi], Hy as [Hy HSi].
      rewrite Hchain in Hx, Hy. rewrite Hlen in *.
      replace (S (length parents) - S i) with
        (S (S (length parents) - S (S i))) in Hx by lia.
      rewrite nth_parent_S_r, Hy in Hx. done.
    + eapply NoDup_Permutation_proper; [apply reverse_Permutation|].
      by eapply chain_NoDup.
    + intros x. rewrite elem_of_reverse, elem_of_cons.
      rewrite (get_parent_folders_spec _ _ _ _ x Hp). done.
  - intros Hfuel. unfold get_folder_full_path.
    destruct (get_parent_folders_total st fuel f) as [l ->].
    { apply chain_ends; [done | lia]. }
    simpl. eauto.
Qed.

(** X3: the path without the root. For a folder without parent it is the
    folder alone; for a folder with a parent it is the full path less its
    first folder, so it still ends in the folder and every folder of it
    has a parent. *)
Theorem full_path_without_root (fuel : nat) (f : uuid) (l : list uuid) :
  get_folder_full_path st fuel f false = Ret l →
  (parent_of st f = None → l = [f])
  ∧ (is_Some (parent_of st f) →
     (∃ top, get_folder_full_path st fuel f true = Ret (top :: l))
     ∧ last l = Some f
     ∧ ∀ x, x ∈ l → is_Some (parent_of st x)).
Proof.
  intros (parents & Hp & ->)%full_path_unfold.
  pose proof (chain_lookup _ _ _ Hp) as Hchain.
  pose proof (get_parent_folders_lookup _ _ _ 0 Hp) as Hfirst.
  simpl in Hfirst. split.
  - intros Hnone. rewrite Hnone in Hfirst. simpl in Hfirst.
    destruct parents; [done | discriminate].
  - intros [p Hsome]. rewrite Hsome in Hfirst. simpl in Hfirst.
    destruct parents as [|p' parents]; [discriminate|].
    rewrite decide_True by (rewrite length_reverse; simpl; lia).
    destruct (reverse (f :: p' :: parents)) as [|top rest] eqn:Erev.
    { apply (f_equal length) in Erev. rewrite length_reverse in Erev.
      discriminate. }
    simpl. rewrite drop_0.
    assert (last (top :: rest) = Some f) as Hlast.
    { rewrite <-Erev. by rewrite last_reverse. }
    split; [|split].
    + exists top. unfold get_folder_full_path. rewrite Hp. simpl.
      by rewrite Erev.
    + destruct rest as [|y rest]; [|done].
      apply (f_equal length) in Erev. rewrite length_reverse in Erev.
      discriminate.
    + intros x [i Hi]%list_elem_of_lookup.
      assert ((top :: rest) !! S i = Some x) as Hx by done.
      destruct ((top :: rest) !! i) as [y|] eqn:Hy.
      * rewrite <-Erev in Hx, Hy.
        apply reverse_lookup_Some in Hx as [Hx HSi], Hy as [Hy HI].
        rewrite Hchain in Hx, Hy.
        replace (length (f :: p' :: parents) - S i) with
          (S (length (f :: p' :: parents) - S (S i))) in Hy by lia.
        rewrite nth_parent_S_r, Hx in Hy. simpl in Hy. eauto.
      * apply lookup_ge_None_1 in Hy. apply lookup_lt_Some in Hx. lia.
Qed.
End Paths.

Lemma full_path_with_root_witness :
  (∀ l, get_folder_full_path Sample.store 6 3%N true = Ret l →
        last l = Some 3%N
        ∧ (∃ top, head l = Some top ∧ parent_of Sample.store top = None)
        ∧ (∀ i x y, l !! i = Some x → l !! S i = Some y →
                    parent_of Sample.store y = Some x)
        ∧ NoDup l
        ∧ ∀ x, x ∈ l ↔ on_chain Sample.store x 3%N)
  ∧ (size (Folder_objects Sample.store) < 6 →
     ∃ l, get_folder_full_path Sample.store 6 3%N true = Ret l)
  ∧ FolderMixin.get_folder_full_path Sample.store 6 3%N true
    = get_folder_full_path Sample.store 6 3%N true.
Proof.
  apply (full_path_with_root Sample.store 6 3%N).
  apply parents_precede_acyclic. vm_compute. reflexivity.
Defined.

Lemma full_path_without_root_witness :
  (parent_of Sample.store 3%N = None → [2%N; 3%N] = [3%N])
  ∧ (is_Some (parent_of Sample.store 3%N) →
     (∃ top, get_folder_full_path Sample.store 6 3%N true
             = Ret (top :: [2%N; 3%N]))
     ∧ last [2%N; 3%N] = Some 3%N
     ∧ ∀ x, x ∈ [2%N; 3%N] → is_Some (parent_of Sample.store x)).
Proof.
  apply (full_path_without_root Sample.store 6 3%N [2%N; 3%N]).
  vm_compute. reflexivity.
Defined.

(** ** Descendants are yielded once *)

Section SubFoldersOnce.
Context (st : Store).

Lemma on_chain_nth a f : on_chain st a f ↔ ∃ k, nth_parent st k f = Some a.
Proof.
  split.
  - intros [->|[k Hk]]; [by exists 0 | by exists (S k)].
  - intros [[|k] Hk]; [left; simpl in Hk; congruence | right; by exists k].
Qed.

Lemma folder_set_NoDup folder : NoDup (folder_set st folder).
Proof.
  unfold folder_set.
  eapply sublist_NoDup; [apply (NoDup_fst_map_to_list (Folder_objects st))|].
  apply fmap_sublist, sublist_filter.
Qed.

(** Two children of one folder lie on no common chain. *)
Lemma siblings_apart (Hacyclic : acyclic st) folder c1 c2 x :
  parent_of st c1 = Some folder → parent_of st c2 = Some folder →
  on_chain st c1 x → on_chain st c2 x → c1 = c2.
Proof.
  intros Hc1 Hc2 [k1 Hk1]%on_chain_nth [k2 Hk2]%on_chain_nth.
  assert (∀ a b ka kb,
            parent_of st a = Some folder → parent_of st b = Some folder →
            nth_parent st ka x = Some a → nth_parent st kb x = Some b →
            ka < kb → False) as Habove.
  { intros a b ka kb Ha Hb Hka Hkb Hlt. apply (Hacyclic folder).
    exists (kb - ka - 1).
    replace kb with (ka + S (kb - ka - 1)) in Hkb by lia.
    rewrite nth_parent_add, Hka in Hkb. simpl in Hkb.
    rewrite Ha in Hkb. simpl in Hkb.
    by rewrite nth_parent_S_r, Hkb. }
  destruct (decide (k1 = k2)) as [->|Hne]; [congruence|]. exfalso.
  destruct (decide (k1 < k2)).
  - eapply (Habove c1 c2 k1 k2); eauto.
  - eapply (Habove c2 c1 k2 k1); eauto with lia.
Qed.

Lemma join_NoDup_Forall2 (R : uuid → list uuid → Prop) cs subs :
  Forall2 R cs subs →
  (∀ c s, c ∈ cs → R c s → NoDup s) →
  (∀ c1 s1 c2 s2 x, c1 ∈ cs → c2 ∈ cs → R c1 s1 → R c2 s2 →
                    x ∈ s1 → x ∈ s2 → c1 = c2) →
  NoDup cs →
  NoDup (mjoin (M:=list) subs).
Proof.
  induction 1 as [|c s cs subs HR Hrest IH]; intros Hone Hapart Hcs.
  - constructor.
  - simpl. apply NoDup_cons in Hcs as [Hc Hcs]. apply NoDup_app.
    split; [|split].
    + apply (Hone c); [left | done].
    + intros x Hx (s' & Hxs' & Hs')%list_elem_of_join.
      apply list_elem_of_lookup in Hs' as [i Hi].
      destruct (Forall2_lookup_r _ _ _ _ _ Hrest Hi) as (c' & Hc' & HR').
      apply list_elem_of_lookup_2 in Hc'.
      assert (c = c') as <-; [|done].
      eapply (Hapart c s c' s' x); eauto; [left | by right].
    + apply IH; [| |done].
      * intros c' s' Hc'. apply Hone. by right.
      * intros c1 s1 c2 s2 x H1 H2. apply Hapart; by right.
Qed.

Lemma sub_folders_in_NoDup (Hacyclic : acyclic st) fuel folder l :
  sub_folders_in st fuel folder = Ret l → NoDup l.
Proof.
  revert folder l. induction fuel as [|fuel IH]; intros folder l Hl; [done|].
  apply sub_folders_in_unfold in Hl as (subs & Hsubs & ->).
  eapply join_NoDup_Forall2; [exact Hsubs | | | apply folder_set_NoDup].
  - intros c s Hc (below & Hbelow & ->). apply NoDup_cons. split.
    + intros Hin. apply (Hacyclic c).
      by eapply sub_folders_in_spec.
    + by eapply IH.
  - intros c1 s1 c2 s2 x Hc1%elem_of_folder_set Hc2%elem_of_folder_set
      (b1 & Hb1 & ->) (b2 & Hb2 & ->) Hx1 Hx2.
    eapply (siblings_apart Hacyclic folder c1 c2 x); try done.
    + apply elem_of_cons in Hx1 as [->|Hx1]; [by left | right].
      by eapply sub_folders_in_spec.
    + apply elem_of_cons in Hx2 as [->|Hx2]; [by left | right].
      by eapply sub_folders_in_spec.
Qed.

(** X4: under the tree invariant [get_sub_folders] yields every strict
    descendant of the folder, each exactly once, never the folder itself,
    and only rows of the folder table; with fuel above the number of
    folders it returns. *)
Theorem get_sub_folders_each_once (fuel : nat) (folder : uuid) :
  acyclic st →
  (∀ l, get_sub_folders st fuel folder = Ret l →
        NoDup l
        ∧ (folder ∉ l)
        ∧ (∀ x, x ∈ l ↔ strict_ancestor st folder x)
        ∧ ∀ x, x ∈ l → x ∈ dom (Folder_objects st))
  ∧ (size (Folder_objects st) < fuel →
     ∃ l, get_sub_folders st fuel folder = Ret l).
Proof.
  intros Hacyclic. split.
  - intros l Hl. split; [by eapply sub_folders_in_NoDup|].
    split; [|split].
    + intros Hin. apply (Hacyclic folder).
      by eapply get_sub_folders_spec.
    + intros x. by eapply get_sub_folders_spec.
    + intros x Hx. eapply get_sub_folders_spec in Hx; [|exact Hl].
      apply strict_ancestor_inv in Hx as (p & Hp & _).
      by eapply parent_of_dom.
  - by apply get_sub_folders_total.
Qed.
End SubFoldersOnce.

Lemma get_sub_folders_each_once_witness :
  (∀ l, get_sub_folders Sample.store 6 1%N = Ret l →
        NoDup l
        ∧ (1%N ∉ l)
        ∧ (∀ x, x ∈ l ↔ strict_ancestor Sample.store 1%N x)
        ∧ ∀ x, x ∈ l → x ∈ dom (Folder_objects Sample.store))
  ∧ (size (Folder_objects Sample.store) < 6 →
     ∃ l, get_sub_folders Sample.store 6 1%N = Ret l).
Proof.
  apply (get_sub_folders_each_once Sample.store 6 1%N).
  apply parents_precede_acyclic. vm_compute. reflexivity.
Defined.

(** ** More on the single decision *)

Section DecisionFacts.
Context (st : Store).

Lemma on_chain_below a f c :
  on_chain st a f → strict_ancestor st f c → on_chain st a c.
Proof.
  intros [->|Ha] Hc; right; [done|]. by eapply strict_ancestor_trans.
Qed.

Lemma grants_below add_tag_permission perm f c ra :
  grants st add_tag_permission perm f ra → strict_ancestor st f c →
  grants st add_tag_permission perm c ra.
Proof.
  intros [Hp [->|(a & Ha & Hch)]] Hc; split; try done; [by left|].
  right. exists a. split; [done|]. by eapply on_chain_below.
Qed.

Lemma is_access_allowed_true (Hacyclic : acyclic st) fuel user perm f :
  size (Folder_objects st) < fuel →
  "add_filteringlabel" ∈ Permission_objects st →
  (∃ ra, assigned st user ra ∧ grants st "add_filteringlabel" perm f ra.2) →
  is_access_allowed st fuel user perm f = Ret true.
Proof.
  intros Hfuel Hcat Hg.
  destruct (is_access_allowed_total st Hacyclic fuel user perm f) as [b Hb];
    [done..|].
  rewrite Hb. f_equal. by eapply is_access_allowed_spec.
Qed.

(** X5: denial is the default. With the tree invariant, enough fuel and
    the tagging token in the catalog, [is_access_allowed] answers [False]
    exactly when no assignment of the principal, direct or through a
    group, grants the token on the folder; in particular for a principal
    none of whose roles holds the token. *)
Theorem is_access_allowed_denies_by_default (fuel : nat) (P : Principal)
    (T : Permission) (f : uuid) :
  acyclic st →
  size (Folder_objects st) < fuel →
  "add_filteringlabel" ∈ Permission_objects st →
  (is_access_allowed st fuel P T f = Ret false ↔
   ∀ ra, assigned st P ra → ¬ grants st "add_filteringlabel" T f ra.2)
  ∧ ((∀ ra, assigned st P ra → T ∉ permissions (role ra.2)) →
     is_access_allowed st fuel P T f = Ret false).
Proof.
  intros Hacyclic Hfuel Hcat.
  destruct (is_access_allowed_total st Hacyclic fuel P T f) as [b Hb];
    [done..|].
  pose proof (is_access_allowed_spec _ _ _ _ _ _ Hb) as Hspec.
  assert (b = false ↔
          ∀ ra, assigned st P ra → ¬ grants st "add_filteringlabel" T f ra.2)
    as Hfalse.
  { split.
    - intros -> ra Hra Hg. assert (false = true); [|done].
      apply Hspec. eauto.
    - intros Hno. destruct b; [|done].
      destruct Hspec as [(ra & Hra & Hg) _]; [done|]. by destruct (Hno ra). }
  rewrite Hb. split.
  - rewrite <-Hfalse. split; [by intros [= ->] | by intros ->].
  - intros Hnone. f_equal. apply Hfalse. intros ra Hra [Hp _].
    by apply (Hnone ra).
Qed.

(** X6: what is allowed on a folder is allowed on every descendant of it. *)
Theorem is_access_allowed_inherited (fuel : nat) (P : Principal)
    (T : Permission) (f c : uuid) :
  acyclic st →
  size (Folder_objects st) < fuel →
  is_access_allowed st fuel P T f = Ret true →
  strict_ancestor st f c →
  is_access_allowed st fuel P T c = Ret true.
Proof.
  intros Hacyclic Hfuel Hallowed Hc.
  assert ("add_filteringlabel" ∈ Permission_objects st) as Hcat.
  { unfold is_access_allowed, Permission_get in Hallowed.
    by case_decide. }
  apply is_access_allowed_spec in Hallowed as [(ra & Hra & Hg) _]; [done|].
  apply is_access_allowed_true; try done.
  exists ra. split; [done|]. by eapply grants_below.
Qed.

Lemma local_grant_allowed (Hacyclic : acyclic st) fuel folder user p f :
  size (Folder_objects st) < fuel →
  "add_filteringlabel" ∈ Permission_objects st →
  local_grant st folder user p f →
  on_chain st folder f
  ∧ is_access_allowed st fuel user p f = Ret true
  ∧ is_access_allowed st fuel user "view_folder" f = Ret true.
Proof.
  intros Hfuel Hcat (ra & Hra & Hview & Hp & Hscope & a & Ha & Hexp).
  assert (on_chain st a f) as Hch.
  { destruct Hexp as [->|[_ ?]]; [by left | by right]. }
  split; [done|].
  split; apply is_access_allowed_true; try done;
    exists ra; (split; [done|]); (split; [done|]); right; eauto.
Qed.

(** X7: the bulk enumeration never lists for change or delete what the
    single decision would refuse. Every id of the change list (of the
    delete list) is an object located in a folder of the queried scope on
    which [is_access_allowed] answers [True] for the change (delete) token
    and for [view_folder]; every id of the view list is such an object for
    the view token, or a published object of an ancestor of such a folder. *)
Theorem accessible_objects_are_allowed (fuel : nat) (folder : uuid)
    (user : Principal) (object_type : ObjectType) (v c d : list uuid) :
  acyclic st →
  size (Folder_objects st) < fuel →
  "add_filteringlabel" ∈ Permission_objects st →
  get_accessible_object_ids st fuel folder user object_type = Ret (v, c, d) →
  let kind := class_name_lower object_type in
  let allowed_in := allowed_object st fuel folder user object_type in
  (∀ o, o ∈ c → allowed_in ("change_" +:+ kind) o)
  ∧ (∀ o, o ∈ d → allowed_in ("delete_" +:+ kind) o)
  ∧ (∀ o, o ∈ v →
          allowed_in ("view_" +:+ kind) o
          ∨ ∃ f a, on_chain st folder f
                   ∧ is_access_allowed st fuel user ("view_" +:+ kind) f
                     = Ret true
                   ∧ strict_ancestor st a f
                   ∧ published_in object_type a o).
Proof.
  intros Hacyclic Hfuel Hcat Hres kind allowed_in.
  apply get_accessible_object_ids_spec in Hres as (Hv & Hc & Hd).
  fold kind in Hv, Hc, Hd. split; [|split].
  - intros o (f & Hf & Ho)%Hc.
    destruct (local_grant_allowed Hacyclic fuel _ _ _ _ Hfuel Hcat Hf)
      as (? & ? & ?).
    exists f. auto.
  - intros o (f & Hf & Ho)%Hd.
    destruct (local_grant_allowed Hacyclic fuel _ _ _ _ Hfuel Hcat Hf)
      as (? & ? & ?).
    exists f. auto.
  - intros o [(f & Hf & Ho)|(_ & _ & f & a & Hf & _ & Ha & Hpub)]%Hv.
    + destruct (local_grant_allowed Hacyclic fuel _ _ _ _ Hfuel Hcat Hf)
        as (? & ? & ?).
      left. exists f. auto.
    + destruct (local_grant_allowed Hacyclic fuel _ _ _ _ Hfuel Hcat Hf)
        as (? & ? & ?).
      right. exists f, a. auto.
Qed.
End DecisionFacts.

Lemma is_access_allowed_denies_by_default_witness :
  (is_access_allowed Sample.store 6 (IsUser 7%N) "change_asset" 2%N
   = Ret false ↔
   ∀ ra, assigned Sample.store (IsUser 7%N) ra →
         ¬ grants Sample.store "add_filteringlabel" "change_asset" 2%N ra.2)
  ∧ ((∀ ra, assigned Sample.store (IsUser 7%N) ra →
            "change_asset" ∉ permissions (role ra.2)) →
     is_access_allowed Sample.store 6 (IsUser 7%N) "change_asset" 2%N
     = Ret false).
Proof.
  apply (is_access_allowed_denies_by_default Sample.store 6 (IsUser 7%N)
           "change_asset" 2%N).
  - apply parents_precede_acyclic. vm_compute. reflexivity.
  - vm_compute. lia.
  - vm_compute. reflexivity.
Defined.

Lemma is_access_allowed_inherited_witness :
  is_access_allowed Sample.store 6 (IsUser 7%N) "view_asset" 4%N = Ret true.
Proof.
  apply (is_access_allowed_inherited Sample.store 6 (IsUser 7%N)
           "view_asset" 2%N 4%N).
  - apply parents_precede_acyclic. vm_compute. reflexivity.
  - vm_compute. lia.
  - vm_compute. reflexivity.
  - exists 0. vm_compute. reflexivity.
Defined.

Lemma accessible_objects_are_allowed_witness :
  let allowed_in :=
    allowed_object Sample.store 6 1%N (IsUser 9%N) SampleKind.asset in
  (∀ o, o ∈ [200%N; 201%N; 203%N] → allowed_in ("change_" +:+ "asset") o)
  ∧ (∀ o, o ∈ [200%N; 201%N; 203%N] → allowed_in ("delete_" +:+ "asset") o)
  ∧ (∀ o, o ∈ [202%N; 200%N; 201%N; 203%N] →
          allowed_in ("view_" +:+ "asset") o
          ∨ ∃ f a, on_chain Sample.store 1%N f
                   ∧ is_access_allowed Sample.store 6 (IsUser 9%N)
                       ("view_" +:+ "asset") f = Ret true
                   ∧ strict_ancestor Sample.store a f
                   ∧ published_in SampleKind.asset a o).
Proof.
  apply (accessible_objects_are_allowed Sample.store 6 1%N (IsUser 9%N)
           SampleKind.asset [202%N; 200%N; 201%N; 203%N]
           [200%N; 201%N; 203%N] [200%N; 201%N; 203%N]).
  - apply parents_precede_acyclic. vm_compute. reflexivity.
  - vm_compute. lia.
  - vm_compute. reflexivity.
  - vm_compute. reflexivity.
Defined.

(** ** Who holds an assignment, who has a role *)

Section Holders.
Context (st : Store).

Lemma assigned_lookup principal k ra :
  assigned st principal (k, ra) → RoleAssignment_objects st !! k = Some ra.
Proof.
  intros [Hin|Hin].
  - by apply elem_of_roleassignment_set in Hin as [? _].
  - unfold group_assignments in Hin.
    destruct (user_groups st principal); [|by apply elem_of_nil in Hin].
    apply list_elem_of_bind in Hin as (g & Hin & _).
    by apply elem_of_roleassignment_set in Hin as [? _].
Qed.

Lemma assigned_user u k ra :
  assigned st (IsUser u) (k, ra) ↔
  RoleAssignment_objects st !! k = Some ra
  ∧ (user ra = Some u
     ∨ ∃ g, user_group ra = Some g
            ∧ g ∈ default ∅ (User_user_groups st !! u)).
Proof.
  unfold assigned, group_assignments. cbn [user_groups].
  rewrite elem_of_roleassignment_set, list_elem_of_bind. split.
  - intros [[Hk Hu]|(g & [Hk Hg]%elem_of_roleassignment_set
                       & Hmem%elem_of_elements)].
    + split; [done | by left].
    + split; [done|]. right. eauto.
  - intros [Hk [Hu|(g & Hg & Hmem)]]; [by left|]. right.
    exists g. split; [by apply elem_of_roleassignment_set |
                      by apply elem_of_elements].
Qed.

(** X8: [is_user_assigned] agrees with [get_role_assignments]: a stored
    assignment is one the user is assigned to exactly when it is in the
    list of the user's assignments, direct or through a group. *)
Theorem is_user_assigned_iff_listed (k : uuid) (ra : RoleAssignment)
    (u : uuid) :
  RoleAssignment_objects st !! k = Some ra →
  is_user_assigned st ra u = true ↔
  (k, ra) ∈ get_role_assignments st (IsUser u).
Proof.
  intros Hk. rewrite elem_of_get_role_assignments, assigned_user.
  unfold is_user_assigned. rewrite orb_true_iff, bool_decide_eq_true.
  destruct (user_group ra) as [g|].
  - rewrite bool_decide_eq_true. split.
    + intros [?|?]; (split; [done|]); [by left | right; eauto].
    + intros [_ [?|(g' & [= <-] & ?)]]; [by left | by right].
  - split.
    + intros [?|?]; [|done]. split; [done | by left].
    + intros [_ [?|(g' & ? & _)]]; [by left | done].
Qed.

Lemma has_role_loop_true a_role ras :
  has_role_loop a_role ras = true ↔
  ∃ ra, ra ∈ ras ∧ role_id (role ra.2) = role_id a_role.
Proof.
  induction ras as [|ra ras IH]; simpl.
  - split; [done | by intros (? & ?%elem_of_nil & _)].
  - case_bool_decide as Hid.
    + split; [|done]. intros _. exists ra. split; [left | done].
    + rewrite IH. split.
      * intros (ra' & ? & ?). exists ra'. split; [by right | done].
      * intros (ra' & [->|?]%elem_of_cons & ?); [done | eauto].
Qed.

(** X9: a user has a role exactly when some stored assignment the user is
    assigned to carries a role of that primary key. *)
Theorem has_role_iff_assigned (u : uuid) (a_role : Role) :
  has_role st (IsUser u) a_role = true ↔
  ∃ k ra, RoleAssignment_objects st !! k = Some ra
          ∧ is_user_assigned st ra u = true
          ∧ role_id (role ra) = role_id a_role.
Proof.
  unfold has_role. rewrite has_role_loop_true. split.
  - intros ([k ra] & Hin & Hid). exists k, ra.
    assert (RoleAssignment_objects st !! k = Some ra) as Hk.
    { eapply assigned_lookup, elem_of_get_role_assignments, Hin. }
    split; [done|]. split; [|done]. by apply (is_user_assigned_iff_listed k).
  - intros (k & ra & Hk & Hassigned & Hid). exists (k, ra).
    split; [|done]. by apply is_user_assigned_iff_listed.
Qed.
End Holders.

Lemma is_user_assigned_iff_listed_witness :
  is_user_assigned Sample.store Sample.ra_analyst 9%N = true ↔
  (101%N, Sample.ra_analyst) ∈ get_role_assignments Sample.store (IsUser 9%N).
Proof.
  apply (is_user_assigned_iff_listed Sample.store 101%N Sample.ra_analyst 9%N).
  vm_compute. reflexivity.
Defined.

(** ** Permissions per folder *)

Lemma fold_each_rel {A S X} (body : S → A → outcome S) (M : S → X → Prop)
    (Q : A → X → Prop) xs :
  (∀ s a s', a ∈ xs → body s a = Ret s' → ∀ x, M s' x ↔ M s x ∨ Q a x) →
  ∀ s s', fold_each body s xs = Ret s' →
  ∀ x, M s' x ↔ M s x ∨ ∃ a, a ∈ xs ∧ Q a x.
Proof.
  induction xs as [|a xs IH]; intros Hbody s s'; simpl.
  - intros [= <-] x. split; [auto|]. intros [?|(? & ?%elem_of_nil & _)]; done.
  - intros (s1 & H1 & Hrest)%bind_Ret_inv x.
    rewrite (IH (λ s a s' Ha, Hbody s a s' (list_elem_of_further _ _ _ Ha))
               _ _ Hrest x).
    rewrite (Hbody _ _ _ (list_elem_of_here _ _) H1 x). split.
    + intros [[?|?]|(a' & ? & ?)]; [by left | right; exists a | right; exists a'].
      * split; [left | done].
      * split; [by right | done].
    + intros [?|(a' & [->|?]%elem_of_cons & ?)]; [auto | auto | right; eauto].
Qed.

Section PerFolder.
Context (st : Store).

Lemma union_into_lookup key (P : gset Permission)
    (perms : gmap uuid (gset Permission)) f q :
  q ∈ union_into key P perms !!! f ↔ q ∈ perms !!! f ∨ (q ∈ P ∧ f = key).
Proof.
  unfold union_into. destruct (decide (key = f)) as [->|Hne].
  - rewrite lookup_total_insert_eq, elem_of_union. tauto.
  - rewrite lookup_total_insert_ne by done. intuition congruence.
Qed.

Lemma union_into_all_lookup (P : gset Permission) subs
    (perms : gmap uuid (gset Permission)) f q :
  q ∈ foldl (λ perms f, union_into f P perms) perms subs !!! f ↔
  q ∈ perms !!! f ∨ (q ∈ P ∧ f ∈ subs).
Proof.
  revert perms. induction subs as [|s subs IH]; intros perms; cbn [foldl].
  - split; [auto|]. by intros [?|[_ ?%elem_of_nil]].
  - rewrite IH, union_into_lookup, elem_of_cons. tauto.
Qed.

Lemma per_folder_step_spec fuel recursive perms ra perms' :
  per_folder_step st fuel recursive perms ra = Ret perms' →
  ∀ fq : uuid * Permission,
    fq.2 ∈ perms' !!! fq.1 ↔
    fq.2 ∈ perms !!! fq.1
    ∨ (fq.2 ∈ permissions (role ra.2) ∧ covers st recursive ra.2 fq.1).
Proof.
  intros Hstep [f q]. simpl. unfold per_folder_step in Hstep.
  pose proof
    (λ Hbody,
       fold_each_rel _
         (λ (s : gmap uuid (gset Permission)) (fq : uuid * Permission),
            fq.2 ∈ s !!! fq.1)
         (λ a (fq : uuid * Permission),
            fq.2 ∈ permissions (role ra.2)
            ∧ (fq.1 = a ∨ (recursive = true ∧ is_recursive ra.2 = true
                           ∧ strict_ancestor st a fq.1)))
         _ Hbody _ _ Hstep (f, q)) as Hfold.
  simpl in Hfold. rewrite Hfold.
  - unfold covers.
    setoid_rewrite elem_of_elements. split.
    + intros [?|(a & ? & ? & ?)]; [by left | right; eauto].
    + intros [?|(? & a & ? & ?)]; [by left | right; eauto].
  - clear. intros s a s' _ Hbody [f q]. simpl.
    destruct recursive, (is_recursive ra.2); simpl in Hbody;
      try (injection Hbody as <-; rewrite union_into_lookup;
           intuition congruence).
    apply bind_Ret_inv in Hbody as (subs & Hsubs & [= <-]).
    rewrite union_into_all_lookup, union_into_lookup.
    rewrite (get_sub_folders_spec _ _ _ _ f Hsubs). tauto.
Qed.

Lemma get_permissions_per_folder_spec fuel principal recursive perms :
  get_permissions_per_folder st fuel principal recursive = Ret perms →
  ∀ f q, q ∈ perms !!! f ↔
         ∃ ra, assigned st principal ra
               ∧ q ∈ permissions (role ra.2)
               ∧ covers st recursive ra.2 f.
Proof.
  intros Hres f q. unfold get_permissions_per_folder in Hres.
  pose proof
    (λ Hbody,
       fold_each_rel _
         (λ (s : gmap uuid (gset Permission)) (fq : uuid * Permission),
            fq.2 ∈ s !!! fq.1)
         (λ (ra : N * RoleAssignment) (fq : uuid * Permission),
            fq.2 ∈ permissions (role ra.2)
            ∧ covers st recursive ra.2 fq.1)
         _ Hbody _ _ Hres (f, q)) as Hfold.
  simpl in Hfold. rewrite Hfold.
  - rewrite lookup_total_empty.
    setoid_rewrite elem_of_get_role_assignments. split.
    + intros [?%elem_of_empty|(ra & ? & ? & ?)]; [done | eauto].
    + intros (ra & ? & ? & ?). right. eauto.
  - intros s ra s' _. apply per_folder_step_spec.
Qed.

Lemma get_permissions_per_folder_total fuel principal recursive :
  recursive = false ∨ (acyclic st ∧ size (Folder_objects st) < fuel) →
  ∃ perms, get_permissions_per_folder st fuel principal recursive = Ret perms.
Proof.
  intros Hcase. apply fold_each_total. intros perms ra _.
  apply fold_each_total. intros s a _.
  destruct (recursive && is_recursive ra.2) eqn:Hrec; [|eauto].
  destruct Hcase as [->|[Hacyclic Hfuel]]; [done|].
  destruct (get_sub_folders_total st Hacyclic fuel a Hfuel) as [subs ->].
  simpl. eauto.
Qed.

(** X10: the entry of folder [f] in the mapping of
    [get_permissions_per_folder] holds a token exactly when an assignment
    of the principal, direct or through a group, has it in its role and has
    [f] in its perimeter or, when [recursive] is asked and the assignment
    is recursive, has an ancestor of [f] in its perimeter. Without
    [recursive] the function returns on any folder table and with any fuel;
    with it, under the tree invariant and fuel above the number of
    folders. *)
Theorem get_permissions_per_folder_entries (fuel : nat)
    (principal : Principal) (recursive : bool) :
  (∀ perms,
     get_permissions_per_folder st fuel principal recursive = Ret perms →
     ∀ f q, q ∈ perms !!! f ↔
            ∃ ra a, assigned st principal ra
                    ∧ q ∈ permissions (role ra.2)
                    ∧ a ∈ perimeter_folders ra.2
                    ∧ (f = a ∨ (recursive = true ∧ is_recursive ra.2 = true
                                ∧ strict_ancestor st a f)))
  ∧ (recursive = false →
     ∃ perms, get_permissions_per_folder st fuel principal false = Ret perms)
  ∧ (acyclic st → size (Folder_objects st) < fuel →
     ∃ perms,
       get_permissions_per_folder st fuel principal recursive = Ret perms).
Proof.
  split; [|split].
  - intros perms Hres f q.
    rewrite (get_permissions_per_folder_spec _ _ _ _ Hres f q).
    unfold covers. split.
    + intros (ra & ? & ? & a & ? & ?). exists ra, a. auto.
    + intros (ra & a & ? & ? & ? & ?). exists ra. eauto.
  - intros _. apply get_permissions_per_folder_total. by left.
  - intros Hacyclic Hfuel. apply get_permissions_per_folder_total. by right.
Qed.

(** X11: the per-folder mapping never promises what the single decision
    refuses, and asking [recursive] only adds. A token in the entry of a
    folder, in either mode, is a token [is_access_allowed] grants the
    principal on that folder; and every token of an entry computed without
    [recursive] is in the same entry computed with it. *)
Theorem get_permissions_per_folder_sound (fuel : nat) (principal : Principal)
    (recursive : bool) (perms : gmap uuid (gset Permission)) :
  acyclic st →
  size (Folder_objects st) < fuel →
  "add_filteringlabel" ∈ Permission_objects st →
  get_permissions_per_folder st fuel principal recursive = Ret perms →
  (∀ f q, q ∈ perms !!! f →
          is_access_allowed st fuel principal q f = Ret true)
  ∧ (∀ flat deep,
       get_permissions_per_folder st fuel principal false = Ret flat →
       get_permissions_per_folder st fuel principal true = Ret deep →
       ∀ f q, q ∈ flat !!! f → q ∈ deep !!! f).
Proof.
  intros Hacyclic Hfuel Hcat Hres. split.
  - intros f q Hq.
    apply (get_permissions_per_folder_spec _ _ _ _ Hres) in Hq
      as (ra & Hra & Hperm & a & Ha & Hcov).
    apply is_access_allowed_true; try done.
    exists ra. split; [done|]. split; [done|]. right. exists a.
    split; [done|]. destruct Hcov as [->|(_ & _ & ?)]; [by left | by right].
  - intros flat deep Hflat Hdeep f q Hq.
    apply (get_permissions_per_folder_spec _ _ _ _ Hflat) in Hq
      as (ra & Hra & Hperm & a & Ha & Hcov).
    apply (get_permissions_per_folder_spec _ _ _ _ Hdeep).
    exists ra. split; [done|]. split; [done|]. exists a. split; [done|].
    destruct Hcov as [->|(? & _)]; [by left | done].
Qed.
End PerFolder.

Lemma get_permissions_per_folder_sound_witness :
  let perms : gmap uuid (gset Permission) :=
    <[4%N := permissions Sample.analyst]>
      (<[3%N := permissions Sample.analyst]>
         {[2%N := permissions Sample.analyst]}) in
  (∀ f q, q ∈ perms !!! f →
          is_access_allowed Sample.store 6 (IsUser 9%N) q f = Ret true)
  ∧ (∀ flat deep,
       get_permissions_per_folder Sample.store 6 (IsUser 9%N) false
       = Ret flat →
       get_permissions_per_folder Sample.store 6 (IsUser 9%N) true
       = Ret deep →
       ∀ f q, q ∈ flat !!! f → q ∈ deep !!! f).
Proof.
  apply (get_permissions_per_folder_sound Sample.store 6 (IsUser 9%N) true).
  - apply parents_precede_acyclic. vm_compute. reflexivity.
  - vm_compute. lia.
  - vm_compute. reflexivity.
  - vm_compute. reflexivity.
Defined.

(** ** The permission mapping, editors and backups *)

Lemma prefix_true_iff (s1 s2 : string) :
  String.prefix s1 s2 = true ↔ ∃ rest, s2 = s1 +:+ rest.
Proof.
  revert s2. induction s1 as [|c s1 IH]; intros s2; simpl.
  - destruct s2; simpl; (split; [eauto | done]).
  - destruct s2 as [|c' s2]; simpl.
    + split; [done | by intros [? ?]].
    + destruct (Ascii.ascii_dec c c') as [->|Hne].
      * rewrite IH. split; intros [rest Hrest]; exists rest.
        -- by rewrite Hrest.
        -- by injection Hrest.
      * split; [done|]. intros [rest Hrest]. by injection Hrest.
Qed.

Section Mapping.
Context (st : Store) (Permission_str : Permission → string).

(** X12: [get_permissions] has an entry for a codename exactly when the
    role of some assignment of the principal, direct or through a group,
    holds that token, and the entry is then [{"str": str(p)}]. *)
Theorem get_permissions_entries (principal : Principal) (c : string)
    (entry : gmap string string) :
  get_permissions st Permission_str principal !! c = Some entry ↔
  entry = {[ "str" := Permission_str c ]}
  ∧ ∃ ra, assigned st principal ra ∧ c ∈ permissions (role ra.2).
Proof.
  unfold get_permissions. rewrite permissions_of_lookup.
  destruct (decide (Exists _ _)) as [Hex|Hnex].
  - apply Exists_exists in Hex as (ra & Hra & Hc).
    apply elem_of_get_role_assignments in Hra. split.
    + intros [= <-]. eauto.
    + by intros [-> _].
  - split; [done|]. intros [_ (ra & Hra & Hc)]. destruct Hnex.
    apply Exists_exists. exists ra.
    split; [by apply elem_of_get_role_assignments | done].
Qed.

(** X13: a user is an editor exactly when the role of one of the user's
    assignments, direct or through a group, holds a token whose codename
    starts with [add_], [change_] or [delete_]; perimeters play no part. *)
Theorem is_editor_iff (u : uuid) :
  is_editor st Permission_str u = true ↔
  ∃ ra p rest,
    assigned st (IsUser u) ra ∧ p ∈ permissions (role ra.2)
    ∧ (p = "add_" +:+ rest ∨ p = "change_" +:+ rest ∨ p = "delete_" +:+ rest).
Proof.
  unfold is_editor. rewrite existsb_exists. split.
  - intros (p & Hp & Hpre). apply list_elem_of_In in Hp.
    apply list_elem_of_fmap in Hp as ([p' entry] & -> & Hin).
    apply elem_of_map_to_list, get_permissions_entries in Hin
      as [_ (ra & Hra & Hperm)].
    simpl in *. rewrite !orb_true_iff, !prefix_true_iff in Hpre.
    destruct Hpre as [[rest ?]|[[rest ?]|[[rest ?]|?]]]; [..|done];
      exists ra, p', rest; auto.
  - intros (ra & p & rest & Hra & Hperm & Hpre). exists p. split.
    + apply list_elem_of_In, list_elem_of_fmap.
      exists (p, {[ "str" := Permission_str p ]}). split; [done|].
      apply elem_of_map_to_list, get_permissions_entries. eauto.
    + simpl. rewrite !orb_true_iff, !prefix_true_iff.
      destruct Hpre as [?|[?|?]]; eauto.
Qed.
End Mapping.

Section Backup.
Context (st : Store).

Lemma access_loop_from_Some fuel add_tag_permission perm f ras :
  access_loop_from st fuel add_tag_permission perm (Some f) ras
  = access_loop st fuel add_tag_permission perm f ras.
Proof.
  induction ras as [|ra ras IH]; simpl; [done|].
  destruct (_ && _); [done|].
  destruct (perimeter_walk st fuel ra.2 perm (Some f)) as [[]| |]; simpl; done.
Qed.

Lemma access_loop_from_None fuel add_tag_permission perm ras :
  perm ≠ add_tag_permission →
  access_loop_from st fuel add_tag_permission perm None ras = Ret false.
Proof.
  intros Hne. induction ras as [|ra ras IH]; simpl; [done|].
  rewrite bool_decide_eq_false_2 by done. simpl.
  destruct fuel; simpl; exact IH.
Qed.

(** The call with a folder is the evaluator itself. *)
Lemma is_access_allowed_from_Some fuel u perm f :
  is_access_allowed_from st fuel u perm (Some f)
  = is_access_allowed st fuel u perm f.
Proof.
  unfold is_access_allowed_from, is_access_allowed.
  destruct (Permission_get st "add_filteringlabel"); simpl; [|done..].
  apply access_loop_from_Some.
Qed.

(** X14: the backup permission is the token [backup] on the root folder
    itself. Without a unique root folder the answer is [False]; with a
    root folder that has no parent, the answer is [True] exactly when an
    assignment of the user, direct or through a group, has [backup] in its
    role and the root folder in its perimeter. *)
Theorem has_backup_permission_needs_root (fuel : nat) (u : uuid) :
  "backup" ∈ Permission_objects st →
  "add_filteringlabel" ∈ Permission_objects st →
  (get_root_folder st = None → has_backup_permission st fuel u = Ret false)
  ∧ (∀ root,
       get_root_folder st = Some root →
       parent_of st root = None →
       0 < fuel →
       ∃ b, has_backup_permission st fuel u = Ret b
            ∧ (b = true ↔
               ∃ ra, assigned st (IsUser u) ra
                     ∧ "backup" ∈ permissions (role ra.2)
                     ∧ root ∈ perimeter_folders ra.2)).
Proof.
  intros Hbackup Hcat. unfold has_backup_permission, Permission_get.
  rewrite (decide_True _ _ Hbackup). simpl. split.
  - intros ->. unfold is_access_allowed_from, Permission_get.
    rewrite (decide_True _ _ Hcat). simpl.
    by apply access_loop_from_None.
  - intros root -> Hparent Hfuel. rewrite is_access_allowed_from_Some.
    assert (nth_parent st fuel root = None) as Hend.
    { destruct fuel; [lia|]. simpl. by rewrite Hparent. }
    unfold is_access_allowed, Permission_get.
    rewrite (decide_True _ _ Hcat). simpl.
    destruct (access_loop_total st fuel "add_filteringlabel" "backup" root
                (get_role_assignments st (IsUser u)) Hend) as [b Hb].
    exists b. split; [done|].
    rewrite (access_loop_spec _ _ _ _ _ _ _ Hb).
    setoid_rewrite elem_of_get_role_assignments. split.
    + intros (ra & Hra & Hperm & [?|(a & Ha & Hch)]); [done|].
      exists ra. split; [done|]. split; [done|].
      destruct Hch as [->|Hch]; [done|].
      apply strict_ancestor_inv in Hch as (p & Hp & _). congruence.
    + intros (ra & Hra & Hperm & Hroot). exists ra. split; [done|].
      split; [done|]. right. exists root. split; [done | by left].
Qed.
End Backup.

Lemma has_backup_permission_needs_root_witness :
  (get_root_folder SampleBackup.store = None →
   has_backup_permission SampleBackup.store 6 7%N = Ret false)
  ∧ (∀ root,
       get_root_folder SampleBackup.store = Some root →
       parent_of SampleBackup.store root = None →
       0 < 6 →
       ∃ b, has_backup_permission SampleBackup.store 6 7%N = Ret b
            ∧ (b = true ↔
               ∃ ra, assigned SampleBackup.store (IsUser 7%N) ra
                     ∧ "backup" ∈ permissions (role ra.2)
                     ∧ root ∈ perimeter_folders ra.2)).
Proof.
  apply (has_backup_permission_needs_root SampleBackup.store 6 7%N);
    vm_compute; reflexivity.
Defined.

(** ** Accessible folders and the single decision *)

Lemma filter_each_Ret_inv {A} (g : A → outcome bool) xs ys :
  filter_each g xs = Ret ys →
  ∀ x, x ∈ ys → x ∈ xs ∧ g x = Ret true.
Proof.
  revert ys. induction xs as [|x xs IH]; intros ys; simpl.
  - intros [= <-] y Hy. by apply elem_of_nil in Hy.
  - intros (keep & Hkeep & H)%bind_Ret_inv.
    apply bind_Ret_inv in H as (ys' & Hys' & [= <-]).
    intros y Hy. destruct keep.
    + apply elem_of_cons in Hy as [->|Hy]; [split; [left | done]|].
      destruct (IH _ Hys' y Hy). split; [by right | done].
    + destruct (IH _ Hys' y Hy). split; [by right | done].
Qed.

Section FoldersAllowed.
Context (st : Store).

Lemma get_accessible_folders_members fuel folder user contentType codename l :
  get_accessible_folders st fuel folder user contentType codename = Ret l →
  ∀ x, x ∈ l → accessibleFolders_spec st folder user contentType codename x.
Proof.
  unfold get_accessible_folders.
  intros (ref & [-> _]%Permission_get_Ret & H)%bind_Ret_inv.
  apply bind_Ret_inv in H as (ras & Hras & H).
  apply bind_Ret_inv in H as (folders_set & Hset & H).
  apply bind_Ret_inv in H as (subs & Hsubs & [= <-]).
  intros x [Htest Hx]%list_elem_of_filter.
  apply elem_of_elements in Hx.
  apply andb_true_iff in Htest as [Hct Hscope%bool_decide_eq_true].
  pose proof
    (λ Hbody,
       fold_each_elem (add_perimeter st fuel)
         (λ (ra : N * RoleAssignment) x,
            ∃ f, f ∈ perimeter_folders ra.2 ∧ on_chain st f x)
         ras Hbody _ _ Hset x) as Hfold.
  rewrite Hfold in Hx by (intros s ra s1 _; apply add_perimeter_spec).
  destruct Hx as [?%elem_of_empty|(ra & Hra & f & Hf & Hch)]; [done|].
  destruct (filter_each_Ret_inv _ _ _ Hras ra Hra) as [Hin Hroles].
  apply bind_Ret_inv in Hroles as (vf & [-> _]%Permission_get_Ret & [= Hroles]).
  apply andb_true_iff in Hroles
    as [Hv%bool_decide_eq_true Hc%bool_decide_eq_true].
  apply elem_of_get_role_assignments in Hin.
  split; [by exists ra, f|]. split.
  - apply elem_of_union in Hscope as [->%elem_of_singleton|Hsub];
      [by left | right].
    eapply get_sub_folders_spec; [exact Hsubs|].
    by apply elem_of_list_to_set in Hsub.
  - destruct contentType; [by apply bool_decide_eq_true in Hct | done].
Qed.

(** X15: every folder [get_accessible_folders] returns is the queried
    folder or one of its descendants, has the requested content type when
    one is requested, and is a folder on which [is_access_allowed] grants
    the user both [view_folder] and the requested token. *)
Theorem accessible_folders_are_allowed (fuel : nat) (folder : uuid)
    (user : Principal) (contentType : option ContentType)
    (codename : string) (l : list uuid) :
  acyclic st →
  size (Folder_objects st) < fuel →
  "add_filteringlabel" ∈ Permission_objects st →
  get_accessible_folders st fuel folder user contentType codename = Ret l →
  ∀ x, x ∈ l →
       on_chain st folder x
       ∧ (∀ ct, contentType = Some ct → content_type_of st x = Some ct)
       ∧ is_access_allowed st fuel user "view_folder" x = Ret true
       ∧ is_access_allowed st fuel user codename x = Ret true.
Proof.
  intros Hacyclic Hfuel Hcat Hres x Hx.
  apply (get_accessible_folders_members _ _ _ _ _ _ Hres) in Hx
    as ((ra & p & Hra & Hv & Hc & Hp & Hch) & Hscope & Hct).
  split; [done|]. split; [by intros ct ->|].
  split; apply is_access_allowed_true; try done;
    exists ra; (split; [done|]); (split; [done|]); right; eauto.
Qed.
End FoldersAllowed.

Lemma accessible_folders_are_allowed_witness :
  on_chain Sample.store 1%N 3%N
  ∧ content_type_of Sample.store 3%N = Some DOMAIN
  ∧ is_access_allowed Sample.store 6 (IsUser 9%N) "view_folder" 3%N
    = Ret true
  ∧ is_access_allowed Sample.store 6 (IsUser 9%N) "change_asset" 3%N
    = Ret true.
Proof.
  destruct (accessible_folders_are_allowed Sample.store 6 1%N (IsUser 9%N)
              (Some DOMAIN) "change_asset" [2%N; 3%N]) with (x := 3%N)
    as (Hchain & Hct & Hview & Hchange).
  - apply parents_precede_acyclic. vm_compute. reflexivity.
  - vm_compute. lia.
  - vm_compute. reflexivity.
  - vm_compute. reflexivity.
  - apply list_elem_of_further, list_elem_of_here.
  - exact (conj Hchain (conj (Hct DOMAIN eq_refl) (conj Hview Hchange))).
Defined.

(** ** Navigating to the folder of an object *)

Section Navigation.
Context (py : Attributes) (st : Store).

(** A part of a path that does not lead to [None] can be followed first. *)
Lemma navigate_app start p1 p2 :
  _navigate_structure py st start p1 ≠ PyNone →
  _navigate_structure py st start (p1 ++ p2)
  = _navigate_structure py st (_navigate_structure py st start p1) p2.
Proof.
  revert start. induction p1 as [|p p1 IH]; intros start; simpl; [done|].
  destruct (step_into py st start p); [done|apply IH..].
Qed.

(** A [None] reached on the way ends the navigation. *)
Lemma navigate_stops start p1 p2 :
  p1 ≠ [] →
  _navigate_structure py st start p1 = PyNone →
  _navigate_structure py st start (p1 ++ p2) = PyNone.
Proof.
  revert start. induction p1 as [|p p1 IH]; intros start Hp1; [done|].
  simpl. destruct (step_into py st start p) eqn:Hstep; [done|..];
    (destruct p1 as [|q p1]; [by intros [=]|]); by apply IH.
Qed.

(** X16: navigation composes, and a [None] met on the way ends it. The
    empty path leads to the start. Following a path made of two parts is
    following the second part from where the first part leads, when that
    is not [None]; when the first part is not empty and leads to [None],
    so does the whole path, whatever follows. A key a dictionary lacks, an
    attribute an object does not resolve, and an entry that is [None],
    lead to [None] at once. *)
Theorem navigate_structure_composes :
  (∀ start, _navigate_structure py st start [] = start)
  ∧ (∀ start p1 p2,
       _navigate_structure py st start p1 ≠ PyNone →
       _navigate_structure py st start (p1 ++ p2)
       = _navigate_structure py st (_navigate_structure py st start p1) p2)
  ∧ (∀ start p1 p2,
       p1 ≠ [] →
       _navigate_structure py st start p1 = PyNone →
       _navigate_structure py st start (p1 ++ p2) = PyNone)
  ∧ (∀ entries p rest,
       entry p entries = None ∨ entry p entries = Some PyNone →
       _navigate_structure py st (PyDict entries) (p :: rest) = PyNone
       ∧ _navigate_structure py st (PyObject entries) (p :: rest) = PyNone).
Proof.
  split; [done|]. split; [apply navigate_app|].
  split; [apply navigate_stops|].
  intros entries p rest [H|H]; simpl; by rewrite H.
Qed.

Lemma first_folder_None obj ps :
  first_folder py st obj ps = PyNone ↔
  ∀ path, path ∈ ps → _navigate_structure py st obj path = PyNone.
Proof.
  induction ps as [|path ps IH]; simpl.
  - split; [by intros _ ? ?%elem_of_nil | done].
  - destruct (_navigate_structure py st obj path) eqn:E.
    + rewrite IH. split.
      * intros H p [->|?]%elem_of_cons; auto.
      * intros H p Hp. apply H. by right.
    + split; [done|]. intros H. specialize (H path). rewrite E in H.
      apply H. left.
    + split; [done|]. intros H. specialize (H path). rewrite E in H.
      apply H. left.
    + split; [done|]. intros H. specialize (H path). rewrite E in H.
      apply H. left.
Qed.

Lemma first_folder_found obj ps v :
  v ≠ PyNone →
  first_folder py st obj ps = v ↔
  ∃ i path,
    ps !! i = Some path
    ∧ _navigate_structure py st obj path = v
    ∧ ∀ j earlier, j < i → ps !! j = Some earlier →
                   _navigate_structure py st obj earlier = PyNone.
Proof.
  intros Hv. induction ps as [|path ps IH]; simpl.
  - split; [by intros <- | by intros (? & ? & ? & _)].
  - assert (_navigate_structure py st obj path = PyNone
            ∨ _navigate_structure py st obj path ≠ PyNone) as [E|E].
    { destruct (_navigate_structure py st obj path); auto. }
    + rewrite E, IH. split.
      * intros (i & p & Hi & Hp & Hearlier). exists (S i), p.
        split; [done|]. split; [done|].
        intros [|j] earlier Hj Hlook; simpl in Hlook; [congruence|].
        eapply Hearlier; [|done]. lia.
      * intros ([|i] & p & Hi & Hp & Hearlier); simpl in Hi.
        { congruence. }
        exists i, p. split; [done|]. split; [done|].
        intros j earlier Hj Hlook. apply (Hearlier (S j)); [lia | done].
    + assert (first_here :
        match _navigate_structure py st obj path with
        | PyNone => first_folder py st obj ps
        | folder => folder
        end = _navigate_structure py st obj path).
      { by destruct (_navigate_structure py st obj path). }
      rewrite first_here. split.
      * intros <-. exists 0, path. split; [done|]. split; [done|].
        intros j earlier Hj. lia.
      * intros ([|i] & p & Hi & Hp & Hearlier); simpl in Hi.
        { congruence. }
        destruct E. apply (Hearlier 0); [lia | done].
Qed.

(** X17: [get_folder] answers a folder with itself. For any other object
    it answers what the first of the nine paths, in the order written,
    that does not lead to [None] leads to, and [None] exactly when all
    nine do; so an object, or a dictionary, whose [folder] entry is not
    [None] is resolved to that entry whatever its other entries are. *)
Theorem get_folder_first_path_wins :
  (∀ f, get_folder py st (PyFolder f) = PyFolder f)
  ∧ (∀ obj, (∀ f, obj ≠ PyFolder f) →
       (get_folder py st obj = PyNone ↔
        ∀ path, path ∈ paths → _navigate_structure py st obj path = PyNone)
       ∧ ∀ v, v ≠ PyNone →
              (get_folder py st obj = v ↔
               ∃ i path,
                 paths !! i = Some path
                 ∧ _navigate_structure py st obj path = v
                 ∧ ∀ j earlier, j < i → paths !! j = Some earlier →
                                _navigate_structure py st obj earlier = PyNone))
  ∧ (∀ entries v, entry "folder" entries = Some v → v ≠ PyNone →
       get_folder py st (PyObject entries) = v
       ∧ get_folder py st (PyDict entries) = v).
Proof.
  split; [done|]. split.
  - intros obj Hobj.
    assert (get_folder py st obj = first_folder py st obj paths) as ->.
    { destruct obj; try done. by destruct (Hobj id). }
    split; [apply first_folder_None|]. intros v Hv.
    by apply first_folder_found.
  - intros entries v Hentry Hv.
    split; unfold get_folder, paths, first_folder, _navigate_structure,
      step_into; rewrite Hentry; simpl; by destruct v.
Qed.
End Navigation.

(** ** Reading an object *)

Section Readable.
Context (py : Attributes) (st : Store).

Lemma perimeter_walk_value_folder fuel ra perm o :
  perimeter_walk_value st fuel ra perm (of_option o)
  = perimeter_walk st fuel ra perm o.
Proof.
  revert o. induction fuel as [|fuel IH]; intros [f|]; simpl; try done.
  destruct (_ && _); [done|]. apply (IH (parent_of st f)).
Qed.

Lemma access_loop_value_folder fuel add_tag_permission perm f ras :
  access_loop_value st fuel add_tag_permission perm (PyFolder f) ras
  = access_loop st fuel add_tag_permission perm f ras.
Proof.
  induction ras as [|ra ras IH]; [done|].
  cbn [access_loop_value access_loop].
  destruct (bool_decide (perm = add_tag_permission) && _); [done|].
  pose proof (perimeter_walk_value_folder fuel ra.2 perm (Some f)) as Hw.
  change (of_option (Some f)) with (PyFolder f) in Hw. rewrite Hw.
  destruct (perimeter_walk st fuel ra.2 perm (Some f)) as [[]| |]; simpl;
    done.
Qed.

Lemma access_loop_value_None fuel add_tag_permission perm ras :
  perm ≠ add_tag_permission →
  access_loop_value st fuel add_tag_permission perm PyNone ras = Ret false.
Proof.
  intros Hne. induction ras as [|ra ras IH]; simpl; [done|].
  rewrite bool_decide_eq_false_2 by done. simpl.
  destruct fuel; simpl; exact IH.
Qed.

(** X18: [is_object_readable] answers [False] for an id the table does not
    hold, whatever the catalog; it answers [False] to every user for an
    object whose folder cannot be resolved; and for an object resolved to
    a folder it is [is_access_allowed] for the view token of the class on
    that folder. *)
Theorem is_object_readable_cases (fuel : nat) (a_user : Principal)
    (class_name : string) (table : gmap uuid PyValue) (id : uuid) :
  (table !! id = None →
   is_object_readable py st fuel a_user class_name table id = Ret false)
  ∧ (∀ obj, table !! id = Some obj →
       get_folder py st obj = PyNone →
       "view_" +:+ class_name ∈ Permission_objects st →
       "add_filteringlabel" ∈ Permission_objects st →
       is_object_readable py st fuel a_user class_name table id = Ret false)
  ∧ (∀ obj f, table !! id = Some obj →
       get_folder py st obj = PyFolder f →
       is_object_readable py st fuel a_user class_name table id
       = (permission ← Permission_get st ("view_" +:+ class_name);
          is_access_allowed st fuel a_user permission f)).
Proof.
  unfold is_object_readable. split; [by intros ->|]. split.
  - intros obj -> -> Hview Hcat. unfold Permission_get.
    rewrite (decide_True _ _ Hview). simpl.
    unfold is_access_allowed_value, Permission_get.
    rewrite (decide_True _ _ Hcat). simpl.
    by apply access_loop_value_None.
  - intros obj f -> ->.
    destruct (Permission_get st ("view_" +:+ class_name)); simpl; [|done..].
    unfold is_access_allowed_value, is_access_allowed.
    destruct (Permission_get st "add_filteringlabel"); simpl; [|done..].
    apply access_loop_value_folder.
Qed.
End Readable.

(** ** More on saving through the mixin *)

(** X19: [PublishInRootFolderMixin.save] writes one row and only sets the
    flag. For an instance whose [folder] is set it returns, the row written
    under the key differs from the instance at most in [is_published],
    which is never cleared; an instance whose folder is not the root
    folder, or of a class without [is_published], is written as it is;
    every other row is left alone; and saving the written row again writes
    the same row. For an instance whose [folder] is unset, and for a class
    without [folder], it raises and writes nothing. *)
Theorem mixin_save_only_sets_flag (st : Store) (object_type : ObjectType)
    (id : uuid) (self : ObjectRow) :
  (has_folder object_type = true → is_Some (folder self) →
   ∃ ot' r,
     save st object_type id self = Ret ot'
     ∧ objects ot' !! id = Some r
     ∧ r = set_is_published (is_published r) self
     ∧ (is_published self = true → r = self)
     ∧ (folder self ≠ get_root_folder st → r = self)
     ∧ (has_is_published object_type = false → r = self)
     ∧ (∀ other, other ≠ id →
                 objects ot' !! other = objects object_type !! other)
     ∧ save st ot' id r = Ret ot')
  ∧ (has_folder object_type = true → folder self = None →
     save st object_type id self = Raise RelatedObjectDoesNotExist)
  ∧ (has_folder object_type = false →
     save st object_type id self = Raise AttributeError).
Proof.
  split; [|split]; intros Hfol; unfold save; rewrite Hfol; simpl;
    [|by intros ->|done].
  intros [f Hself]. rewrite Hself. simpl.
  destruct (bool_decide (Some f = get_root_folder st)
            && has_is_published object_type
            && negb (is_published self)) eqn:Hcond.
  - apply andb_true_iff in Hcond as [Hcond Hunpub%negb_true_iff].
    apply andb_true_iff in Hcond as [Hroot%bool_decide_eq_true Hpub].
    eexists _, _. split; [done|]. simpl. rewrite lookup_insert_eq.
    split; [done|]. repeat split; try done; try congruence.
    + intros other Hother. by rewrite lookup_insert_ne.
    + unfold save, set_objects. simpl. rewrite Hfol, Hself. simpl.
      rewrite andb_false_r. simpl. by rewrite insert_insert_eq.
  - eexists _, _. split; [done|]. simpl. rewrite lookup_insert_eq.
    split; [done|]. repeat split; try done.
    + by destruct self.
    + intros other Hother. by rewrite lookup_insert_ne.
    + unfold save, set_objects. simpl. rewrite Hfol, Hself. simpl.
      rewrite Hcond. by rewrite insert_insert_eq.
Qed.

(** ** More on provisioning a domain *)

Section Provisioning.
Context (UserGroupCodename RoleCodename : Codename → string).

Lemma extends_refl st : extends st st.
Proof. by repeat split. Qed.

Lemma extends_trans st1 st2 st3 :
  extends st1 st2 → extends st2 st3 → extends st1 st3.
Proof.
  intros (? & ? & ? & ? & ? & ?) (? & ? & ? & ? & ? & ?).
  repeat split; try congruence; by etrans.
Qed.

Lemma UserGroup_objects_create_extends name folder builtin st :
  extends st (UserGroup_objects_create name folder builtin st).1.
Proof.
  repeat split; try done. simpl. apply insert_subseteq, fresh_lookup_None.
Qed.

(** One block either raises at once, writing nothing, or adds one
    assignment under a new key. *)
Lemma create_builtin_ra_cases c group folder st :
  (∃ e, create_builtin_ra RoleCodename c group folder st = (st, Raise e))
  ∨ (∃ r root,
       Role_get (Role_objects st) (RoleCodename c) = Ret r
       ∧ get_root_folder st = Some root
       ∧ create_builtin_ra RoleCodename c group folder st
         = (set_RoleAssignment_objects
              (<[fresh (dom (RoleAssignment_objects st))
                 := builtin_assignment group r root folder]>
                 (RoleAssignment_objects st)) st,
            Ret ())).
Proof.
  destruct (Role_get (Role_objects st) (RoleCodename c)) as [r|e|] eqn:Hr.
  - destruct (get_root_folder st) as [root|] eqn:Hroot.
    + right. exists r, root. split; [done|]. split; [done|].
      by apply create_builtin_ra_eq.
    + left. exists IntegrityError. unfold create_builtin_ra.
      erewrite cmd_bind_Ret; [|unfold Role_objects_get; by rewrite Hr].
      erewrite cmd_bind_Ret; [|unfold read; by rewrite Hroot].
      done.
  - left. exists e. unfold create_builtin_ra, mbind, cmd_bind,
      Role_objects_get. by rewrite Hr.
  - exfalso. unfold Role_get in Hr.
    by destruct (filter _ _) as [|? [|? ?]].
Qed.

Lemma create_builtin_ra_extends c group folder st :
  extends st (create_builtin_ra RoleCodename c group folder st).1
  ∧ (create_builtin_ra RoleCodename c group folder st).2 ≠ Timeout.
Proof.
  destruct (create_builtin_ra_cases c group folder st)
    as [[e ->]|(r & root & _ & _ & ->)]; simpl.
  - split; [apply extends_refl | done].
  - split; [|done]. repeat split; try done. simpl.
    apply insert_subseteq, fresh_lookup_None.
Qed.

Lemma cmd_bind_extends {A B} (m : cmd A) (k : A → cmd B) st :
  extends st (m st).1 → (m st).2 ≠ Timeout →
  (∀ a st', extends st' (k a st').1 ∧ (k a st').2 ≠ Timeout) →
  extends st ((m ≫= k) st).1 ∧ ((m ≫= k) st).2 ≠ Timeout.
Proof.
  intros Hm Hout Hk. unfold mbind, cmd_bind.
  destruct (m st) as [st' [a|e|]]; simpl in *; [|done..].
  destruct (Hk a st') as [Hext ?]. split; [|done].
  by eapply extends_trans.
Qed.

Lemma acyclic_extends st st' : extends st st' → acyclic st → acyclic st'.
Proof.
  intros (Hfolders & _) Hacyclic.
  assert (∀ n f, nth_parent st' n f = nth_parent st n f) as Hnth.
  { induction n as [|n IH]; intros f; simpl; [done|].
    unfold parent_of. rewrite Hfolders.
    destruct (Folder_objects st !! f ≫= parent_folder); simpl; [apply IH|done]. }
  intros f [k Hk]. apply (Hacyclic f). exists k. by rewrite <-Hnth.
Qed.

(** X20: whatever its outcome, the provisioner only adds. The store it
    leaves has the same folders, tokens, roles and memberships, and every
    group and every assignment that was there, unchanged; so the tree
    invariant survives it. It never runs out of fuel: it follows no parent
    or child link. *)
Theorem create_default_ug_and_ra_only_adds (folder : instance Folder)
    (st : Store) :
  let result :=
    create_default_ug_and_ra UserGroupCodename RoleCodename folder st in
  extends st result.1
  ∧ result.2 ≠ Timeout
  ∧ (acyclic st → acyclic result.1).
Proof.
  intros result.
  assert (extends st result.1 ∧ result.2 ≠ Timeout) as [Hext Hout].
  { unfold result, create_default_ug_and_ra.
    destruct (decide (content_type folder.2 = DOMAIN));
      [|split; [apply extends_refl | done]].
    repeat (apply cmd_bind_extends;
            [apply UserGroup_objects_create_extends | done | intros ? ?]).
    repeat (apply cmd_bind_extends;
            [apply create_builtin_ra_extends
            |apply create_builtin_ra_extends | intros ? ?]).
    apply create_builtin_ra_extends. }
  split; [done|]. split; [done|]. by apply acyclic_extends.
Qed.

(** X21: a failure at the first assignment leaves four groups and no
    assignment. On a domain, when the reader role is not found, or is
    found but there is no unique root folder, the provisioner raises (what
    the lookup raised, or [IntegrityError]), the table of assignments is as
    it was and the table of groups has four rows more. *)
Theorem create_default_ug_and_ra_fails_after_groups
    (folder : instance Folder) (st : Store) :
  content_type folder.2 = DOMAIN →
  (∃ e, Role_get (Role_objects st) (RoleCodename READER) = Raise e)
  ∨ get_root_folder st = None →
  ∃ st' e,
    create_default_ug_and_ra UserGroupCodename RoleCodename folder st
    = (st', Raise e)
    ∧ RoleAssignment_objects st' = RoleAssignment_objects st
    ∧ size (UserGroup_objects st') = size (UserGroup_objects st) + 4.
Proof.
  intros Hct Hfail. unfold create_default_ug_and_ra.
  rewrite decide_True by done.
  do 4 (erewrite cmd_bind_Ret; [|apply UserGroup_objects_create_eq]).
  match goal with
  | |- context [create_builtin_ra _ READER ?g _] =>
      match goal with
      | |- ∃ _ _, (_ ≫= _) ?s = _ ∧ _ =>
          destruct (create_builtin_ra_cases READER g folder.1 s)
            as [[e He]|(r & root & Hr & Hroot & _)]
      end
  end.
  - eexists _, e. split.
    + unfold mbind at 1, cmd_bind at 1. by rewrite He.
    + split; [done|]. simpl.
      rewrite !map_size_insert_None by apply fresh_lookup_None. lia.
  - exfalso.
    change (Role_get (Role_objects st) (RoleCodename READER) = Ret r) in Hr.
    change (get_root_folder st = Some root) in Hroot.
    destruct Hfail as [[e He]|Hnone]; congruence.
Qed.

Lemma create_default_ug_and_ra_success (folder : instance Folder)
    (st : Store) root r1 r2 r3 r4 :
  content_type folder.2 = DOMAIN →
  get_root_folder st = Some root →
  Role_get (Role_objects st) (RoleCodename READER) = Ret r1 →
  Role_get (Role_objects st) (RoleCodename APPROVER) = Ret r2 →
  Role_get (Role_objects st) (RoleCodename ANALYST) = Ret r3 →
  Role_get (Role_objects st) (RoleCodename DOMAIN_MANAGER) = Ret r4 →
  create_default_ug_and_ra UserGroupCodename RoleCodename folder st
  = (provisioned UserGroupCodename folder.1 root r1 r2 r3 r4 st, Ret ()).
Proof.
  intros Hct Hroot H1 H2 H3 H4. unfold create_default_ug_and_ra.
  rewrite decide_True by done.
  do 4 (erewrite cmd_bind_Ret; [|apply UserGroup_objects_create_eq]).
  erewrite cmd_bind_Ret; [|by apply create_builtin_ra_eq].
  erewrite cmd_bind_Ret; [|by apply create_builtin_ra_eq].
  erewrite cmd_bind_Ret; [|by apply create_builtin_ra_eq].
  erewrite create_builtin_ra_eq by done.
  reflexivity.
Qed.
End Provisioning.

Section ProvisionedAccess.
Context (UserGroupCodename RoleCodename : Codename → string).

Lemma group_assignment_allows st fuel g a ra T p f :
  acyclic st →
  size (Folder_objects st) < fuel →
  "add_filteringlabel" ∈ Permission_objects st →
  RoleAssignment_objects st !! a = Some ra →
  user_group ra = Some g →
  T ∈ permissions (role ra) →
  p ∈ perimeter_folders ra →
  on_chain st p f →
  is_access_allowed st fuel (IsUserGroup g) T f = Ret true.
Proof.
  intros Hacyclic Hfuel Hcat Ha Hg HT Hp Hch.
  apply is_access_allowed_true; try done.
  exists (a, ra). split.
  - left. by apply elem_of_roleassignment_set.
  - split; [done|]. right. eauto.
Qed.

(** X22: provisioning composes with the access decision. After a
    successful provisioning of a domain, each of the four new groups, taken
    as a principal, is allowed every token of the builtin role of its
    codename on the domain folder and on every folder below it. *)
Theorem provisioned_groups_are_allowed (folder : instance Folder)
    (st : Store) (fuel : nat) (root : uuid) (r1 r2 r3 r4 : Role) :
  content_type folder.2 = DOMAIN →
  get_root_folder st = Some root →
  Role_get (Role_objects st) (RoleCodename READER) = Ret r1 →
  Role_get (Role_objects st) (RoleCodename APPROVER) = Ret r2 →
  Role_get (Role_objects st) (RoleCodename ANALYST) = Ret r3 →
  Role_get (Role_objects st) (RoleCodename DOMAIN_MANAGER) = Ret r4 →
  acyclic st →
  size (Folder_objects st) < fuel →
  "add_filteringlabel" ∈ Permission_objects st →
  ∃ st',
    create_default_ug_and_ra UserGroupCodename RoleCodename folder st
    = (st', Ret ())
    ∧ ∀ c r,
        (c, r) ∈ [(READER, r1); (APPROVER, r2); (ANALYST, r3);
                  (DOMAIN_MANAGER, r4)] →
        ∃ g,
          UserGroup_objects st' !! g
          = Some (builtin_group UserGroupCodename c folder.1)
          ∧ UserGroup_objects st !! g = None
          ∧ ∀ T f, T ∈ permissions r → on_chain st folder.1 f →
                   is_access_allowed st' fuel (IsUserGroup g) T f = Ret true.
Proof.
  intros Hct Hroot H1 H2 H3 H4 Hacyclic Hfuel Hcat.
  eexists. split; [by apply create_default_ug_and_ra_success|].
  unfold provisioned. cbv zeta.
  set (ug0 := UserGroup_objects st).
  set (g1 := fresh (dom ug0)).
  set (ug1 := <[g1 := builtin_group UserGroupCodename READER folder.1]> ug0).
  set (g2 := fresh (dom ug1)).
  set (ug2 := <[g2 := builtin_group UserGroupCodename APPROVER folder.1]> ug1).
  set (g3 := fresh (dom ug2)).
  set (ug3 := <[g3 := builtin_group UserGroupCodename ANALYST folder.1]> ug2).
  set (g4 := fresh (dom ug3)).
  set (ra0 := RoleAssignment_objects st).
  set (a1 := fresh (dom ra0)).
  set (ra1 := <[a1 := builtin_assignment g1 r1 root folder.1]> ra0).
  set (a2 := fresh (dom ra1)).
  set (ra2 := <[a2 := builtin_assignment g2 r2 root folder.1]> ra1).
  set (a3 := fresh (dom ra2)).
  set (ra3 := <[a3 := builtin_assignment g3 r3 root folder.1]> ra2).
  set (a4 := fresh (dom ra3)).
  pose proof (fresh_lookup_None ug0) as Hg1.
  pose proof (fresh_lookup_None ug1) as Hg2.
  pose proof (fresh_lookup_None ug2) as Hg3.
  pose proof (fresh_lookup_None ug3) as Hg4.
  pose proof (fresh_lookup_None ra0) as Ha1.
  pose proof (fresh_lookup_None ra1) as Ha2.
  pose proof (fresh_lookup_None ra2) as Ha3.
  pose proof (fresh_lookup_None ra3) as Ha4.
  fold g1 in Hg1. fold g2 in Hg2. fold g3 in Hg3. fold g4 in Hg4.
  fold a1 in Ha1. fold a2 in Ha2. fold a3 in Ha3. fold a4 in Ha4.
  unfold ug3, ug2, ug1 in Hg2, Hg3, Hg4.
  unfold ra3, ra2, ra1 in Ha2, Ha3, Ha4.
  repeat match goal with
         | H : <[_ := _]> _ !! _ = None |- _ =>
             apply lookup_insert_None in H as [H ?]
         end.
  set (st' := mkStore _ _ _ _ _ _).
  assert (acyclic st') as Hacyclic' by exact Hacyclic.
  assert (∀ f, on_chain st folder.1 f → on_chain st' folder.1 f) as Hchain
    by (intros f Hf; exact Hf).
  assert (∀ g a r,
            RoleAssignment_objects st' !! a
            = Some (builtin_assignment g r root folder.1) →
            ∀ T f, T ∈ permissions r → on_chain st folder.1 f →
                   is_access_allowed st' fuel (IsUserGroup g) T f = Ret true)
    as Hallowed.
  { intros g a r Ha T f HT Hf.
    eapply (group_assignment_allows st' fuel g a _ T folder.1 f);
      first [done | simpl; by apply elem_of_singleton | by apply Hchain]. }
  intros c r Hcr. rewrite !elem_of_cons, elem_of_nil in Hcr.
  destruct Hcr as [[= -> ->]|[[= -> ->]|[[= -> ->]|[[= -> ->]|[]]]]].
  - exists g1. split; [|split; [done|]].
    + simpl. unfold ug3, ug2, ug1.
      by rewrite !lookup_insert_ne, lookup_insert_eq by done.
    + apply (Hallowed g1 a1). simpl. unfold ra3, ra2, ra1.
      by rewrite !lookup_insert_ne, lookup_insert_eq by done.
  - exists g2. split; [|split; [done|]].
    + simpl. unfold ug3, ug2.
      by rewrite !lookup_insert_ne, lookup_insert_eq by done.
    + apply (Hallowed g2 a2). simpl. unfold ra3, ra2.
      by rewrite !lookup_insert_ne, lookup_insert_eq by done.
  - exists g3. split; [|split; [done|]].
    + simpl. unfold ug3.
      by rewrite !lookup_insert_ne, lookup_insert_eq by done.
    + apply (Hallowed g3 a3). simpl. unfold ra3.
      by rewrite !lookup_insert_ne, lookup_insert_eq by done.
  - exists g4. split; [|split; [done|]].
    + simpl. by rewrite lookup_insert_eq.
    + apply (Hallowed g4 a4). simpl. by rewrite lookup_insert_eq.
Qed.
End ProvisionedAccess.

Lemma create_default_ug_and_ra_fails_after_groups_witness :
  ∃ st' e,
    create_default_ug_and_ra SampleCodenames.UserGroupCodename
      SampleCodenames.RoleCodename SampleCodenames.new_domain
      SampleRootless.store
    = (st', Raise e)
    ∧ RoleAssignment_objects st'
      = RoleAssignment_objects SampleRootless.store
    ∧ size (UserGroup_objects st')
      = size (UserGroup_objects SampleRootless.store) + 4.
Proof.
  apply (create_default_ug_and_ra_fails_after_groups
           SampleCodenames.UserGroupCodename SampleCodenames.RoleCodename
           SampleCodenames.new_domain SampleRootless.store).
  - reflexivity.
  - right. vm_compute. reflexivity.
Defined.

Lemma provisioned_groups_are_allowed_witness :
  ∃ st',
    create_default_ug_and_ra SampleCodenames.UserGroupCodename
      SampleCodenames.RoleCodename SampleCodenames.new_domain
      SampleCodenames.full_store
    = (st', Ret ())
    ∧ ∀ c r,
        (c, r) ∈ [(READER, Sample.reader); (APPROVER, SampleCodenames.approver);
                  (ANALYST, Sample.analyst);
                  (DOMAIN_MANAGER, SampleCodenames.domain_manager)] →
        ∃ g,
          UserGroup_objects st' !! g
          = Some (builtin_group SampleCodenames.UserGroupCodename c
                    SampleCodenames.new_domain.1)
          ∧ UserGroup_objects SampleCodenames.full_store !! g = None
          ∧ ∀ T f, T ∈ permissions r →
                   on_chain SampleCodenames.full_store
                            SampleCodenames.new_domain.1 f →
                   is_access_allowed st' 6 (IsUserGroup g) T f = Ret true.
Proof.
  apply (provisioned_groups_are_allowed SampleCodenames.UserGroupCodename
           SampleCodenames.RoleCodename SampleCodenames.new_domain
           SampleCodenames.full_store 6 1%N).
  - reflexivity.
  - vm_compute. reflexivity.
  - vm_compute. reflexivity.
  - vm_compute. reflexivity.
  - vm_compute. reflexivity.
  - vm_compute. reflexivity.
  - apply parents_precede_acyclic. vm_compute. reflexivity.
  - vm_compute. lia.
  - vm_compute. reflexivity.
Defined.


(** X23: what [User.save] stores. The row written under the primary key
    is the adjusted instance and no other row changes; a stored superuser
    is always active; a stored user who cannot log in locally has an
    unusable password, and the password of one who can is left alone; only
    [is_active] and [password] are ever rewritten, and [is_active] only for
    a superuser. *)
Theorem user_save_stores (sso : option (gmap string Json)) (pk : uuid)
    (self : UserRow) (User_objects : gmap uuid UserRow) :
  let saved := (User.save sso pk self User_objects).1 in
  let table := (User.save sso pk self User_objects).2 in
  table !! pk = Some saved
  ∧ (∀ k, k ≠ pk → table !! k = User_objects !! k)
  ∧ (is_superuser saved = true → is_active saved = true)
  ∧ (User.is_local sso saved = false → password saved = Unusable)
  ∧ (User.is_local sso saved = true → password saved = password self)
  ∧ email saved = email self
  ∧ keep_local_login saved = keep_local_login self
  ∧ is_superuser saved = is_superuser self
  ∧ (is_superuser self = false → is_active saved = is_active self).
Proof.
  intros saved table. subst saved table. unfold User.save. simpl.
  split; [by rewrite lookup_insert_eq|].
  split; [by intros k Hk; rewrite lookup_insert_ne|].
  destruct self as [e p k a s].
  destruct s, a; simpl;
    match goal with
    | |- context [User.is_local sso ?u] =>
        destruct (User.is_local sso u) eqn:Hlocal
    end; simpl; unfold User.is_local in *; simpl in *;
    repeat split; intros; try done; congruence.
Qed.

(** X24: saving a deactivated user who is no superuser replaces the
    password by the unusable marker, whatever the SSO settings are; so does
    saving any user without [keep_local_login] while SSO is enabled and
    forced. *)
Theorem user_save_wipes_password (sso : option (gmap string Json))
    (pk : uuid) (self : UserRow) (User_objects : gmap uuid UserRow) :
  (is_active self = false ∧ is_superuser self = false)
  ∨ (keep_local_login self = false
     ∧ ∃ value enabled forced,
         sso = Some value
         ∧ value !! "is_enabled" = Some enabled ∧ truthy enabled = true
         ∧ value !! "force_sso" = Some forced ∧ truthy forced = true) →
  password (User.save sso pk self User_objects).1 = Unusable.
Proof.
  intros H. unfold User.save. simpl.
  destruct self as [e p k a s]. simpl in H.
  destruct H as [[-> ->]|[-> (value & enabled & forced & -> & He & Het
                                & Hf & Hft)]].
  - simpl. unfold User.is_local. simpl. done.
  - destruct s, a; simpl; unfold User.is_local; simpl;
      rewrite ?He, ?Hf; simpl; rewrite ?Het, ?Hft; done.
Qed.

Lemma user_save_wipes_password_witness :
  password
    (User.save (Some forced_sso) 7%N
       (mkUser "ada@example.org" (Usable "pbkdf2") false true true) ∅).1
  = Unusable.
Proof.
  apply user_save_wipes_password. right. split; [reflexivity|].
  exists forced_sso, (JBool true), (JBool true).
  repeat split; vm_compute; reflexivity.
Defined.

(** X25: the defaults of [User.is_local]. Without a settings row, or with
    a row that lacks [is_enabled] or [force_sso], a user is local exactly
    when active; an inactive user is never local; with both keys set to
    true values a user is local exactly when active and flagged
    [keep_local_login]. *)
Theorem is_local_defaults (self : UserRow) :
  User.is_local None self = is_active self
  ∧ (∀ value,
       value !! "is_enabled" = None ∨ value !! "force_sso" = None →
       User.is_local (Some value) self = is_active self)
  ∧ (∀ sso, is_active self = false → User.is_local sso self = false)
  ∧ (∀ value enabled forced,
       value !! "is_enabled" = Some enabled → truthy enabled = true →
       value !! "force_sso" = Some forced → truthy forced = true →
       User.is_local (Some value) self
       = is_active self && keep_local_login self).
Proof.
  unfold User.is_local. repeat split.
  - simpl. rewrite lookup_empty. simpl.
    by rewrite orb_true_r, andb_true_r.
  - intros value [H|H]; rewrite H; simpl.
    + by rewrite orb_true_r, andb_true_r.
    + by rewrite orb_true_r, andb_true_r.
  - intros sso H. by rewrite H.
  - intros value enabled forced He Het Hf Hft.
    rewrite He, Hf. simpl. rewrite Het, Hft. simpl.
    by rewrite !orb_false_r.
Qed.
